(** * MP2 expressions of dyson ([dyson/expressions/mp2.py])

    A shallow embedding of the class built by [_mp2_constructor] and of its
    two instances [MP2_1h] and [MP2_1p].

    - Scalars.  The arrays of the source hold floating point numbers.  They
      are modelled over an arbitrary carrier [R] with the operations the
      source uses; the theorems that need arithmetic assume the laws of a
      commutative ring, that is, exact arithmetic.  Division carries no law
      at all (numpy returns inf or nan on a zero denominator and goes on).
      The carrier of the program itself is [binary64], the IEEE 754 double
      precision numbers: it has no ring laws, and the model is run on it
      where a statement made for exact arithmetic is tested on the program.
      The rationals are the carrier of exact arithmetic with a true
      division.
    - Arrays.  One-dimensional arrays are lists.  The state vectors, which
      the source allocates and updates in place through slices, live in a
      heap of lists addressed by allocation index.  Arrays of rank two to
      four are a shape and an index function.
    - Effects.  Every method runs in a state-and-error monad over the
      expression object [self] and the heap; a Python exception is [None].
    - External code.  [ao2mo.incore.general], [lib.einsum] and
      [lib.direct_sum] of pyscf are modelled by the contractions they
      denote; [mf._eri] is the dense four-index integral tensor. *)

From Stdlib Require Import ZArith Ring.
From Stdlib Require Floats QArith Qcanon.
From stdpp Require Import base option list strings gmap.

(** ** Scalars *)

Class Scalar (R : Type) := {
  s_zero : R;
  s_one : R;
  s_add : R → R → R;
  s_sub : R → R → R;
  s_mul : R → R → R;
  s_div : R → R → R;
  s_opp : R → R;
}.

Declare Scope scalar_scope.
Delimit Scope scalar_scope with R.
Notation "0" := s_zero : scalar_scope.
Notation "1" := s_one : scalar_scope.
Notation "2" := (s_add s_one s_one) : scalar_scope.
Infix "+" := s_add : scalar_scope.
Infix "-" := s_sub : scalar_scope.
Infix "*" := s_mul : scalar_scope.
Infix "/" := s_div : scalar_scope.

(** The ring laws of exact arithmetic. *)
Definition exact_arith `{Scalar R} : Prop :=
  ring_theory s_zero s_one s_add s_mul s_sub s_opp (@eq R).

(** Integer-valued data, used to run the model on concrete inputs.
    Division is the floor division of integers: [1 / 2] is [0], so the
    MP2 term of the static part vanishes on this carrier and only the
    diagonal of energies is left.  Statements about the entries of the
    static part are run on [binary64] or on the rationals below. *)
#[export] Instance Z_scalar : Scalar Z := {|
  s_zero := 0%Z; s_one := 1%Z;
  s_add := Z.add; s_sub := Z.sub; s_mul := Z.mul; s_div := Z.div;
  s_opp := Z.opp |}.

(** The numbers of the program: numpy's [float64] with the operations of
    IEEE 754 in the default rounding mode.  A zero denominator gives an
    infinity or a NaN, and the computation goes on. *)
#[export] Instance binary64 : Scalar PrimFloat.float := {|
  s_zero := PrimFloat.zero; s_one := PrimFloat.one;
  s_add := PrimFloat.add; s_sub := PrimFloat.sub; s_mul := PrimFloat.mul;
  s_div := PrimFloat.div; s_opp := PrimFloat.opp |}.

(** The rational numbers: exact arithmetic with a true division. *)
#[export] Instance Qc_scalar : Scalar Qcanon.Qc := {|
  s_zero := Qcanon.Q2Qc (QArith_base.inject_Z 0);
  s_one := Qcanon.Q2Qc (QArith_base.inject_Z 1);
  s_add := Qcanon.Qcplus; s_sub := Qcanon.Qcminus; s_mul := Qcanon.Qcmult;
  s_div := Qcanon.Qcdiv; s_opp := Qcanon.Qcopp |}.

(** ** Arrays *)

Section Arrays.
Context `{Scalar R}.
Local Open Scope scalar_scope.

(** [sum_n n f] is the sum of [f 0 .. f (n-1)], a contracted index. *)
Fixpoint sum_n (n : nat) (f : nat → R) : R :=
  match n with
  | O => 0
  | S k => sum_n k f + f k
  end.

(** [x ** n] for a Python int [n >= 0]. *)
Fixpoint s_pow (x : R) (n : nat) : R :=
  match n with
  | O => 1
  | S k => x * s_pow x k
  end.

(** [a[k]] for an index known to be in range. *)
Definition item (a : list R) (k : nat) : R := nth k a 0.

Record matrix := Matrix {
  mshape : nat * nat;
  mitem : nat → nat → R }.

Record tensor3 := Tensor3 {
  shape3 : nat * nat * nat;
  item3 : nat → nat → nat → R }.

Record tensor4 := Tensor4 {
  shape4 : nat * nat * nat * nat;
  item4 : nat → nat → nat → nat → R }.

(** *** Boolean mask indexing

    numpy turns a boolean mask into the positions of its [True] entries
    and raises IndexError when the mask is not as long as the axis. *)
Fixpoint nonzero_from (k : nat) (mask : list bool) : list nat :=
  match mask with
  | [] => []
  | b :: m => if b then k :: nonzero_from (S k) m else nonzero_from (S k) m
  end.

Definition nonzero (mask : list bool) : list nat := nonzero_from 0 mask.

(** [np.sum(mask)] *)
Definition np_sum_mask (mask : list bool) : nat := length (nonzero mask).

(** [np.take(a, idx)] and [np.take(c, idx, axis=1)] *)
Definition np_take (a : list R) (idx : list nat) : list R := item a <$> idx.

Definition np_take_cols (c : matrix) (idx : list nat) : matrix :=
  Matrix ((mshape c).1, length idx) (λ p x, mitem c p (nth x idx O)).

(** [a[mask]] *)
Definition getitem_mask (a : list R) (mask : list bool) : option (list R) :=
  if decide (length mask = length a)
  then Some (np_take a (nonzero mask))
  else None.

(** [c[:, mask]] *)
Definition getitem_cols (c : matrix) (mask : list bool) : option matrix :=
  if decide (length mask = (mshape c).2)
  then Some (np_take_cols c (nonzero mask))
  else None.

(** *** numpy on one-dimensional arrays *)

(** [np.zeros(n)] *)
Definition np_zeros (n : nat) : list R := replicate n 0.

(** Broadcasting of a binary operation whose result is written back into
    the left operand ([seg += x]): equal lengths go elementwise, a single
    element on the right is broadcast, anything else raises. *)
Definition inplace (f : R → R → R) (seg x : list R) : option (list R) :=
  if decide (length x = length seg) then Some (zip_with f seg x)
  else match x with
       | [x0] => Some ((λ s, f s x0) <$> seg)
       | _ => None
       end.

(** [a * b] on one-dimensional arrays, with numpy's broadcasting. *)
Definition np_mul (a b : list R) : option (list R) :=
  if decide (length a = length b) then Some (zip_with s_mul a b)
  else match a, b with
       | [a0], _ => Some (s_mul a0 <$> b)
       | _, [b0] => Some ((λ s, s * b0) <$> a)
       | _, _ => None
       end.

(** [u + v] and [c * v] on vectors of one length. *)
Definition vadd (u v : list R) : list R := zip_with s_add u v.

Definition vscale (c : R) (v : list R) : list R := s_mul c <$> v.

(** [np.dot(m, v)] for a matrix and a vector: the products of the rows
    with [v]; ValueError on a shape mismatch. *)
Definition rows_dot (m : matrix) (v : list R) : list R :=
  (λ x, sum_n (length v) (λ y, mitem m x y * item v y)) <$> seq 0 (mshape m).1.

Definition np_dot (m : matrix) (v : list R) : option (list R) :=
  if decide ((mshape m).2 = length v) then Some (rows_dot m v) else None.

(** [np.diag(m)] of a matrix: its diagonal. *)
Definition np_diag (m : matrix) : list R :=
  (λ k, mitem m k k) <$> seq 0 (min (mshape m).1 (mshape m).2).

(** [np.diag(e)] of a vector: the diagonal matrix. *)
Definition np_diag_matrix (e : list R) : matrix :=
  Matrix (length e, length e) (λ x y, if decide (x = y) then item e x else 0).

(** [m.T] *)
Definition transpose (m : matrix) : matrix :=
  Matrix ((mshape m).2, (mshape m).1) (λ x y, mitem m y x).

(** [h += m] on matrices of one shape. *)
Definition matrix_iadd (h m : matrix) : option matrix :=
  if decide (mshape m = mshape h)
  then Some (Matrix (mshape h) (λ x y, mitem h x y + mitem m x y))
  else None.

(** [np.ndindex(shape)]: the index triples of a rank-3 array in
    row-major order. *)
Definition ndindex3 (shape : nat * nat * nat) : list (nat * nat * nat) :=
  let '(n1, n2, n3) := shape in
  i ← seq 0 n1; j ← seq 0 n2; a ← seq 0 n3; [(i, j, a)].

Definition item3_at (t : tensor3) (ija : nat * nat * nat) : R :=
  let '(i, j, a) := ija in item3 t i j a.

(** [t.ravel()] of a rank-3 array. *)
Definition ravel3 (t : tensor3) : list R :=
  item3_at t <$> ndindex3 (shape3 t).

(** [v.reshape(shape)] of a one-dimensional array into rank 3;
    ValueError when the sizes differ. *)
Definition reshaped3 (v : list R) (shape : nat * nat * nat) : tensor3 :=
  let '(n1, n2, n3) := shape in
  Tensor3 shape (λ i j a, item v ((i * n2 + j) * n3 + a)%nat).

Definition reshape3 (v : list R) (shape : nat * nat * nat) : option tensor3 :=
  let '(n1, n2, n3) := shape in
  if decide (length v = (n1 * n2 * n3)%nat)
  then Some (reshaped3 v shape)
  else None.

(** *** Elementwise operations on arrays of higher rank *)

Definition matrix_map (f : R → R) (m : matrix) : matrix :=
  Matrix (mshape m) (λ x y, f (mitem m x y)).

Definition tensor3_map (f : R → R) (t : tensor3) : tensor3 :=
  Tensor3 (shape3 t) (λ i j a, f (item3 t i j a)).

Definition tensor4_map (f : R → R) (t : tensor4) : tensor4 :=
  Tensor4 (shape4 t) (λ x i j a, f (item4 t x i j a)).

(** A binary operation on two arrays of one shape (no broadcasting
    between arrays of rank above one is modelled: other shapes raise). *)
Definition tensor3_zip (f : R → R → R) (s t : tensor3) : option tensor3 :=
  if decide (shape3 s = shape3 t)
  then Some (Tensor3 (shape3 s) (λ i j a, f (item3 s i j a) (item3 t i j a)))
  else None.

Definition tensor4_zip (f : R → R → R) (s t : tensor4) : option tensor4 :=
  if decide (shape4 s = shape4 t)
  then Some (Tensor4 (shape4 s)
               (λ x i j a, f (item4 s x i j a) (item4 t x i j a)))
  else None.

(** [t.transpose(0, 3, 2, 1)] *)
Definition transpose_0321 (t : tensor4) : tensor4 :=
  let '(n0, n1, n2, n3) := shape4 t in
  Tensor4 (n0, n3, n2, n1) (λ x a j b, item4 t x b j a).

(** [t[:, i]] and [t[:, :, i]]; IndexError when [i] is out of range. *)
Definition getitem_axis1 (t : tensor4) (i : nat) : option tensor3 :=
  let '(n0, n1, n2, n3) := shape4 t in
  if decide (i < n1)%nat
  then Some (Tensor3 (n0, n2, n3) (λ x j a, item4 t x i j a))
  else None.

Definition getitem_axis2 (t : tensor4) (i : nat) : option tensor3 :=
  let '(n0, n1, n2, n3) := shape4 t in
  if decide (i < n2)%nat
  then Some (Tensor3 (n0, n1, n3) (λ x j a, item4 t x j i a))
  else None.

(** *** pyscf: [lib.direct_sum], [lib.einsum], [ao2mo.incore.general] *)

(** [lib.direct_sum("x-a+j-b->xajb", e, ev, eo, ev')] *)
Definition direct_sum_xajb (e ev eo ev' : list R) : tensor4 :=
  Tensor4 (length e, length ev, length eo, length ev')
    (λ x a j b, item e x - item ev a + item eo j - item ev' b).

(** [lib.direct_sum("i+j-a->ija", eo, eo', ev)] *)
Definition direct_sum_ija (eo eo' ev : list R) : tensor3 :=
  Tensor3 (length eo, length eo', length ev)
    (λ i j a, item eo i + item eo' j - item ev a).

(** [lib.direct_sum("j-a->ja", eo, ev)] *)
Definition direct_sum_ja (eo ev : list R) : matrix :=
  Matrix (length eo, length ev) (λ j a, item eo j - item ev a).

(** [ao2mo.incore.general(eri, (c1, c2, c3, c4), compact=False)] followed
    by the reshape to rank four: the integrals in the basis of the
    columns of [c1 .. c4]. *)
Definition ao2mo_general (eri : nat → nat → nat → nat → R)
    (c1 c2 c3 c4 : matrix) : tensor4 :=
  let nao := (mshape c1).1 in
  Tensor4 ((mshape c1).2, (mshape c2).2, (mshape c3).2, (mshape c4).2)
    (λ x i j a,
       sum_n nao (λ p, sum_n nao (λ q, sum_n nao (λ r, sum_n nao (λ s,
         eri p q r s * mitem c1 p x * mitem c2 q i
                     * mitem c3 r j * mitem c4 s a))))).

(** [lib.einsum("xajb,yajb->xy", s, t)] *)
Definition einsum_xajb_yajb_xy (s t : tensor4) : option matrix :=
  let '(nx, na, nj, nb) := shape4 s in
  let '(ny, na', nj', nb') := shape4 t in
  if decide ((na, nj, nb) = (na', nj', nb'))
  then Some (Matrix (nx, ny) (λ x y,
         sum_n na (λ a, sum_n nj (λ j, sum_n nb (λ b,
           item4 s x a j b * item4 t y a j b)))))
  else None.

(** [lib.einsum("xija,ija->x", t, v)]: the contraction, and the check
    that the contracted dimensions agree. *)
Definition contract_xija_ija (t : tensor4) (v : tensor3) : list R :=
  let '(nx, ni, nj, na) := shape4 t in
  (λ x, sum_n ni (λ i, sum_n nj (λ j, sum_n na (λ a,
          item4 t x i j a * item3 v i j a)))) <$> seq 0 nx.

Definition einsum_xija_ija_x (t : tensor4) (v : tensor3) : option (list R) :=
  let '(nx, ni, nj, na) := shape4 t in
  if decide ((ni, nj, na) = shape3 v)
  then Some (contract_xija_ija t v)
  else None.

(** [lib.einsum("xija,x->ija", t, v)] *)
Definition contract_xija_x (t : tensor4) (v : list R) : tensor3 :=
  let '(nx, ni, nj, na) := shape4 t in
  Tensor3 (ni, nj, na) (λ i j a, sum_n nx (λ x, item4 t x i j a * item v x)).

Definition einsum_xija_x_ija (t : tensor4) (v : list R) : option tensor3 :=
  let '(nx, ni, nj, na) := shape4 t in
  if decide (nx = length v) then Some (contract_xija_x t v) else None.

(** [lib.einsum("xjia,x->ija", t, v)] *)
Definition contract_xjia_x (t : tensor4) (v : list R) : tensor3 :=
  let '(nx, nj, ni, na) := shape4 t in
  Tensor3 (ni, nj, na) (λ i j a, sum_n nx (λ x, item4 t x j i a * item v x)).

Definition einsum_xjia_x_ija (t : tensor4) (v : list R) : option tensor3 :=
  let '(nx, nj, ni, na) := shape4 t in
  if decide (nx = length v) then Some (contract_xjia_x t v) else None.

(** [lib.einsum("xja,yja,ja->xy", l, r, w)] *)
Definition einsum_xja_yja_ja_xy (l r : tensor3) (w : matrix)
    : option matrix :=
  let '(nx, nj, na) := shape3 l in
  let '(ny, nj', na') := shape3 r in
  if decide ((nj, na) = (nj', na') ∧ (nj, na) = mshape w)
  then Some (Matrix (nx, ny) (λ x y,
         sum_n nj (λ j, sum_n na (λ a,
           item3 l x j a * item3 r y j a * mitem w j a))))
  else None.
End Arrays.

Arguments matrix R : clear implicits.
Arguments tensor3 R : clear implicits.
Arguments tensor4 R : clear implicits.

(** ** The expression object, the heap and the monad of methods *)

Definition loc := nat.

(** [slice(None, n)] and [slice(n, None)], the two slices of the source. *)
Inductive slice := slice_to (n : nat) | slice_from (n : nat).

Section State.
Context `{Scalar R}.
Local Open Scope scalar_scope.

(** The attributes of [self]: those of [BaseExpression] ([mf._eri],
    [mo_coeff], [mo_energy], [mo_occ]) and the two [_MP2] adds.  The
    occupation numbers are natural numbers (0, 1 or 2 in the spec).
    [xija] is [None] until [__init__] has assigned it. *)
Record expression := Expression {
  mf_eri : nat → nat → nat → nat → R;
  mo_coeff : matrix R;
  mo_energy : list R;
  mo_occ : list nat;
  _non_dyson : bool;
  xija : option (tensor4 R) }.

(** Modelled from the spec: [BaseExpression.__init__], whose source is
    not among the files.  By the data model and the inbound interface of
    the spec an expression is built from the two-electron integral tensor,
    the orbital coefficient matrix, the orbital energies and the orbital
    occupation numbers, which it only reads.  The two attributes of
    [_MP2] are not assigned yet. *)
Definition BaseExpression_init (eri : nat → nat → nat → nat → R)
    (coeff : matrix R) (energy : list R) (occupation : list nat)
    : expression :=
  Expression eri coeff energy occupation false None.

Record world := World {
  self : expression;
  heap : list (list R) }.

Definition M (A : Type) : Type := world → option (A * world).

#[export] Instance M_ret : MRet M := λ A a w, Some (a, w).
#[export] Instance M_bind : MBind M := λ A B f m w,
  match m w with
  | Some (a, w') => f a w'
  | None => None
  end.

(** An operation that may raise. *)
Definition lift {A} (o : option A) : M A := λ w, (λ a, (a, w)) <$> o.

Definition get_self : M expression := λ w, Some (self w, w).

Definition setattr_non_dyson (value : bool) : M () := λ w,
  let s := self w in
  Some ((), World (Expression (mf_eri s) (mo_coeff s) (mo_energy s)
                     (mo_occ s) value (xija s)) (heap w)).

Definition setattr_xija (value : tensor4 R) : M () := λ w,
  let s := self w in
  Some ((), World (Expression (mf_eri s) (mo_coeff s) (mo_energy s)
                     (mo_occ s) (_non_dyson s) (Some value)) (heap w)).

(** A new one-dimensional array. *)
Definition np_alloc (v : list R) : M loc := λ w,
  Some (length (heap w), World (self w) (heap w ++ [v])).

Definition np_load (l : loc) : M (list R) := λ w,
  (λ v, (v, w)) <$> heap w !! l.

Definition np_store (l : loc) (v : list R) : M () := λ w,
  if decide (l < length (heap w))%nat
  then Some ((), World (self w) (<[l := v]> (heap w)))
  else None.

Definition getslice (s : slice) (v : list R) : list R :=
  match s with
  | slice_to n => take n v
  | slice_from n => drop n v
  end.

Definition setslice (s : slice) (v seg : list R) : list R :=
  match s with
  | slice_to n => seg ++ drop n v
  | slice_from n => take n v ++ seg
  end.

(** [vector[s]], a view read at the time of use. *)
Definition getitem_slice (l : loc) (s : slice) : M (list R) :=
  v ← np_load l; mret (getslice s v).

(** [r[s] += x] and [r[s] -= x] *)
Definition inplace_slice (f : R → R → R) (l : loc) (s : slice)
    (x : list R) : M () :=
  v ← np_load l;
  seg ← lift (inplace f (getslice s v) x);
  np_store l (setslice s v seg).

(** [r[orb] = x] with Python's negative indices; IndexError outside
    [-len(r) .. len(r) - 1]. *)
Definition setitem (l : loc) (orb : Z) (x : R) : M () :=
  v ← np_load l;
  let n := Z.of_nat (length v) in
  if decide (0 ≤ orb < n)%Z
  then np_store l (<[Z.to_nat orb := x]> v)
  else if decide (- n ≤ orb < 0)%Z
  then np_store l (<[Z.to_nat (n + orb) := x]> v)
  else lift None.

(** The accumulator [tn] of [build_se_moments]: the Python int it starts
    as, or the array it becomes at the first [+=]. *)
Inductive moment := Number (z : R) | Array2 (m : matrix R).

(** [tn += m] *)
Definition moment_iadd (tn : moment) (m : matrix R) : option moment :=
  match tn with
  | Number z => Some (Array2 (matrix_map (s_add z) m))
  | Array2 h => Array2 <$> matrix_iadd h m
  end.

(** A [for] loop threading an accumulator through a body that may
    raise. *)
Fixpoint for_fold {A B} (body : B → A → option B) (l : list A) (b : B)
    : option B :=
  match l with
  | [] => Some b
  | x :: l' => b' ← body b x; for_fold body l' b'
  end.
End State.

Arguments expression R : clear implicits.
Arguments world R : clear implicits.
Arguments moment R : clear implicits.
Arguments M R A : clear implicits.

(** ** What a method may change

    [framed L Φ m]: started on a heap of at least [L] arrays, [m] leaves
    [self] and the first [L] arrays as they are, never shrinks the heap,
    and returns a value in [Φ]. *)

Section Effects.
Context `{Scalar R}.

Definition framed {A} (L : nat) (Φ : A → Prop) (m : M R A) : Prop :=
  ∀ w a w', L ≤ length (heap w) → m w = Some (a, w') →
    Φ a ∧ self w' = self w ∧ length (heap w) ≤ length (heap w') ∧
    ∀ l, l < L → heap w' !! l = heap w !! l.

(** [pure_method m]: whenever [m] returns, [self] and the heap are what
    they were before the call. *)
Definition pure_method {A} (m : M R A) : Prop :=
  ∀ w a w', m w = Some (a, w') → w' = w.
End Effects.

Arguments pure_method R {A} m.
Arguments framed R {A} L Φ m.

(** ** [_mp2_constructor(occ, vir)] *)

Module _MP2.
Section _mp2_constructor.
Context `{Scalar R}.
Variables occ vir : expression R → list bool.
Local Open Scope scalar_scope.

(** The property [non_dyson]. *)
Definition non_dyson : M R bool :=
  self ← get_self; mret (_non_dyson self).

(** The choice of the main block that opens [get_static_part] and
    [_integrals_for_hamiltonian]: [mo_coeff[:, occ]] and [mo_energy[occ]]
    in non-Dyson mode, all orbitals otherwise. *)
Definition main_block : M R (matrix R * list R) :=
  self ← get_self;
  nd ← non_dyson;
  if (nd : bool) then
    c ← lift (getitem_cols (mo_coeff self) (occ self));
    e ← lift (getitem_mask (mo_energy self) (occ self));
    mret (c, e)
  else mret (mo_coeff self, mo_energy self).

Definition get_static_part : M R (matrix R) :=
  '(c, e) ← main_block;
  self ← get_self;
  co ← lift (getitem_cols (mo_coeff self) (occ self));
  cv ← lift (getitem_cols (mo_coeff self) (vir self));
  eo ← lift (getitem_mask (mo_energy self) (occ self));
  ev ← lift (getitem_mask (mo_energy self) (vir self));
  let e_xajb := direct_sum_xajb e ev eo ev in
  let xajb := ao2mo_general (mf_eri self) c cv co cv in
  t2 ← lift (tensor4_zip s_div xajb e_xajb);
  xajb ← lift (tensor4_zip s_sub (tensor4_map (s_mul 2) xajb)
                 (transpose_0321 xajb));
  h1 ← lift (einsum_xajb_yajb_xy xajb t2);
  let h1 := matrix_map (λ z, z * (1 / 2)) h1 in
  h1 ← lift (matrix_iadd h1 (transpose h1));
  h1 ← lift (matrix_iadd h1 (np_diag_matrix e));
  mret h1.

Definition _integrals_for_hamiltonian : M R (tensor4 R) :=
  '(c, e) ← main_block;
  self ← get_self;
  co ← lift (getitem_cols (mo_coeff self) (occ self));
  cv ← lift (getitem_cols (mo_coeff self) (vir self));
  mret (ao2mo_general (mf_eri self) c co co cv).

(** The argument [static=None] of [apply_hamiltonian] and [diagonal]. *)
Definition static_or_fresh (static : option (matrix R)) : M R (matrix R) :=
  match static with
  | None => get_static_part
  | Some s => mret s
  end.

Definition apply_hamiltonian (vector : loc) (static : option (matrix R))
    : M R loc :=
  static ← static_or_fresh static;
  self ← get_self;
  nd ← non_dyson;
  e ← (if (nd : bool) then lift (getitem_mask (mo_energy self) (occ self))
       else mret (mo_energy self));
  let p := slice_to (length e) in
  let a := slice_from (length e) in
  eo ← lift (getitem_mask (mo_energy self) (occ self));
  ev ← lift (getitem_mask (mo_energy self) (vir self));
  let e_ija := direct_sum_ija eo eo ev in
  xija ← lift (xija self);
  v ← np_load vector;
  r ← np_alloc (np_zeros (length v));
  vp ← getitem_slice vector p;
  t ← lift (np_dot static vp);
  inplace_slice s_add r p t;;
  va ← getitem_slice vector a;
  va ← lift (reshape3 va (shape3 e_ija));
  t ← lift (einsum_xija_ija_x xija va);
  inplace_slice s_add r p t;;
  vp ← getitem_slice vector p;
  t ← lift (einsum_xija_x_ija xija vp);
  inplace_slice s_add r a ((λ z, z * 2) <$> ravel3 t);;
  vp ← getitem_slice vector p;
  t ← lift (einsum_xjia_x_ija xija vp);
  inplace_slice s_sub r a (ravel3 t);;
  va ← getitem_slice vector a;
  t ← lift (np_mul va (ravel3 e_ija));
  inplace_slice s_add r a t;;
  mret r.

Definition diagonal (static : option (matrix R)) : M R loc :=
  static ← static_or_fresh static;
  self ← get_self;
  eo ← lift (getitem_mask (mo_energy self) (occ self));
  ev ← lift (getitem_mask (mo_energy self) (vir self));
  let e_ija := direct_sum_ija eo eo ev in
  r ← np_alloc (np_diag static ++ ravel3 e_ija);
  mret r.

Definition get_wavefunction (orb : Z) : M R loc :=
  self ← get_self;
  let nocc := np_sum_mask (occ self) in
  let nvir := np_sum_mask (vir self) in
  let nija := (nocc * nocc * nvir)%nat in
  nd ← non_dyson;
  let n := if (nd : bool) then nocc else (nocc + nvir)%nat in
  r ← np_alloc (np_zeros (n + nija));
  setitem r orb 1;;
  mret r.

Definition build_se_moments (nmom : nat) : M R (list (moment R)) :=
  self ← get_self;
  eo ← lift (getitem_mask (mo_energy self) (occ self));
  ev ← lift (getitem_mask (mo_energy self) (vir self));
  xija ← lift (xija self);
  lift (mapM (λ n,
    for_fold (λ tn i,
      vl ← getitem_axis1 xija i;
      xji ← getitem_axis2 xija i;
      vr ← tensor3_zip s_sub (tensor3_map (s_mul 2) vl) xji;
      let eja := matrix_map (s_add (item eo i)) (direct_sum_ja eo ev) in
      m ← einsum_xja_yja_ja_xy vl vr (matrix_map (λ z, s_pow z n) eja);
      moment_iadd tn m)
    (seq 0 (length eo)) (Number 0))
    (seq 0 nmom)).

(** The setter of [non_dyson]. *)
Definition set_non_dyson (value : bool) : M R unit :=
  self ← get_self;
  let old := _non_dyson self in
  setattr_non_dyson value;;
  if decide (value ≠ old)
  then x ← _integrals_for_hamiltonian; setattr_xija x
  else mret tt.

(** [__init__(self, *args, non_dyson=False)]: the base class stores the
    orbital data, then the flag is set and the integrals are cached. *)
Definition __init__ (eri : nat → nat → nat → nat → R) (coeff : matrix R)
    (energy : list R) (occupation : list nat) (non_dyson : bool)
    (h : list (list R)) : option (world R) :=
  let self := BaseExpression_init eri coeff energy occupation in
  '(_, w) ← (setattr_non_dyson non_dyson;;
             x ← _integrals_for_hamiltonian;
             setattr_xija x) (World self h);
  Some w.
End _mp2_constructor.
End _MP2.

(** ** The classes [MP2_1h] and [MP2_1p] *)

(** The class returned by [_mp2_constructor]: the two masks it closes over
    and its methods. *)
Record mp2_class (R : Type) := Mp2Class {
  occ : expression R → list bool;
  vir : expression R → list bool;
  __init__ : (nat → nat → nat → nat → R) → matrix R → list R →
             list nat → bool → list (list R) → option (world R);
  get_static_part : M R (matrix R);
  _integrals_for_hamiltonian : M R (tensor4 R);
  apply_hamiltonian : loc → option (matrix R) → M R loc;
  diagonal : option (matrix R) → M R loc;
  get_wavefunction : Z → M R loc;
  build_se_moments : nat → M R (list (moment R));
  set_non_dyson : bool → M R unit }.

Arguments occ {R}.
Arguments vir {R}.
Arguments __init__ {R}.
Arguments get_static_part {R}.
Arguments _integrals_for_hamiltonian {R}.
Arguments apply_hamiltonian {R}.
Arguments diagonal {R}.
Arguments get_wavefunction {R}.
Arguments build_se_moments {R}.
Arguments set_non_dyson {R}.

Section Classes.
Context `{Scalar R}.
Local Open Scope scalar_scope.

Definition _mp2_constructor (occ vir : expression R → list bool)
    : mp2_class R := {|
  occ := occ;
  vir := vir;
  __init__ := _MP2.__init__ occ vir;
  get_static_part := _MP2.get_static_part occ vir;
  _integrals_for_hamiltonian := _MP2._integrals_for_hamiltonian occ vir;
  apply_hamiltonian := _MP2.apply_hamiltonian occ vir;
  diagonal := _MP2.diagonal occ vir;
  get_wavefunction := _MP2.get_wavefunction occ vir;
  build_se_moments := _MP2.build_se_moments occ vir;
  set_non_dyson := _MP2.set_non_dyson occ vir |}.

(** [lambda self: self.mo_occ > 0] *)
Definition occ_positive (self : expression R) : list bool :=
  (λ o, bool_decide (0 < o)%nat) <$> mo_occ self.

(** [lambda self: self.mo_occ == 0] *)
Definition occ_zero (self : expression R) : list bool :=
  (λ o, bool_decide (o = 0)%nat) <$> mo_occ self.

Definition MP2_1h : mp2_class R := _mp2_constructor occ_positive occ_zero.

Definition MP2_1p : mp2_class R := _mp2_constructor occ_zero occ_positive.

Definition MP2 : gmap string (mp2_class R) :=
  {[ "1h" := MP2_1h; "1p" := MP2_1p ]}.

(** *** Expressions and their dimensions *)

(** Valid orbital input: one column of coefficients, one energy and one
    occupation number for each molecular orbital. *)
Definition valid_orbitals (coeff : matrix R) (energy : list R)
    (occupation : list nat) : Prop :=
  (mshape coeff).2 = length energy ∧ length occupation = length energy.

(** The states an object of class [cls] can be in: fresh from the
    constructor, after an assignment to [non_dyson], and with whatever
    arrays its clients hold. *)
Inductive mp2_expression (cls : mp2_class R) : world R → Prop :=
| expression_new eri coeff energy occupation non_dyson h w :
    valid_orbitals coeff energy occupation →
    __init__ cls eri coeff energy occupation non_dyson h = Some w →
    mp2_expression cls w
| expression_set_non_dyson w value w' :
    mp2_expression cls w →
    set_non_dyson cls value w = Some (tt, w') →
    mp2_expression cls w'
| expression_heap w h :
    mp2_expression cls w →
    mp2_expression cls (World (self w) h).

Definition n_occ (cls : mp2_class R) (w : world R) : nat :=
  np_sum_mask (occ cls (self w)).

Definition n_vir (cls : mp2_class R) (w : world R) : nat :=
  np_sum_mask (vir cls (self w)).

(** The size of the main block: [e.size] in [apply_hamiltonian]. *)
Definition n_main (cls : mp2_class R) (w : world R) : nat :=
  if _non_dyson (self w) then n_occ cls w else length (mo_energy (self w)).

(** The number of auxiliary configurations [(i, j, a)]. *)
Definition n_aux (cls : mp2_class R) (w : world R) : nat :=
  n_occ cls w * n_occ cls w * n_vir cls w.

(** *** Calls on arrays passed by value *)

(** [apply_hamiltonian(np.array(v))], the result read back. *)
Definition apply_to (cls : mp2_class R) (static : option (matrix R))
    (v : list R) : world R → option (list R) := λ w,
  '(lv, w1) ← np_alloc v w;
  '(lr, w2) ← apply_hamiltonian cls lv static w1;
  heap w2 !! lr.

(** [diagonal()], the result read back. *)
Definition diagonal_of (cls : mp2_class R) (static : option (matrix R))
    : world R → option (list R) := λ w,
  '(lr, w1) ← diagonal cls static w;
  heap w1 !! lr.

(** The energies of the occupied and of the virtual orbitals, and the
    energy [e_i + e_j - e_a] of every configuration [(i, j, a)], listed
    with [i] slowest and [a] fastest. *)
Definition occupied_energies (cls : mp2_class R) (w : world R) : list R :=
  np_take (mo_energy (self w)) (nonzero (occ cls (self w))).

Definition virtual_energies (cls : mp2_class R) (w : world R) : list R :=
  np_take (mo_energy (self w)) (nonzero (vir cls (self w))).

Definition auxiliary_energies (cls : mp2_class R) (w : world R) : list R :=
  ei ← occupied_energies cls w;
  ej ← occupied_energies cls w;
  ea ← virtual_energies cls w;
  [ei + ej - ea].

(** A call of one of the four operations that only read the expression;
    it returns the one-dimensional array the operation returns, if it
    returns one. *)
Inductive read_call :=
| Call_apply_hamiltonian (vector : loc) (static : option (matrix R))
| Call_diagonal (static : option (matrix R))
| Call_get_wavefunction (orb : Z)
| Call_build_se_moments (nmom : nat).

Definition call_read (cls : mp2_class R) (c : read_call)
    : M R (option loc) :=
  match c with
  | Call_apply_hamiltonian vector static =>
      r ← apply_hamiltonian cls vector static; mret (Some r)
  | Call_diagonal static => r ← diagonal cls static; mret (Some r)
  | Call_get_wavefunction orb => r ← get_wavefunction cls orb; mret (Some r)
  | Call_build_se_moments nmom => build_se_moments cls nmom;; mret None
  end.

(** The [k]-th standard basis vector of length [n]. *)
Definition basis (n k : nat) : list R := <[k := 1]> (np_zeros n).

(** The dense operator: [apply_hamiltonian] on every standard basis
    vector gives the columns. *)
Definition dense (cls : mp2_class R) (w : world R) : option (matrix R) :=
  let n := (n_main cls w + n_aux cls w)%nat in
  columns ← mapM (λ k, apply_to cls None (basis n k) w) (seq 0 n);
  Some (Matrix (n, n) (λ x k, item (nth k columns []) x)).

(** The position of configuration [(i, j, a)] in the vectors: the
    auxiliary block follows the main block and is raveled in row-major
    order, as [reshape(e_ija.shape)] and [ravel()] have it. *)
Definition aux_index (cls : mp2_class R) (w : world R) (i j a : nat) : nat :=
  (n_main cls w + ((i * n_occ cls w + j) * n_vir cls w + a))%nat.

(** The position in a Dyson-mode vector of entry [p] of a non-Dyson-mode
    vector: the [p]-th occupied orbital for a main entry, the same
    configuration for an auxiliary one. *)
Definition dyson_position (cls : mp2_class R) (w : world R) (p : nat) : nat :=
  if decide (p < n_occ cls w)%nat
  then nth p (nonzero (occ cls (self w))) 0%nat
  else (length (mo_energy (self w)) + (p - n_occ cls w))%nat.
End Classes.

(** ** Exchanging the occupied and the virtual orbitals *)

Section Exchange.
Context `{Scalar R}.

(** The occupation numbers with the predicate inverted: an occupied
    orbital becomes empty, an empty one doubly occupied. *)
Definition invert_occupation (o : list nat) : list nat :=
  (λ n, if decide (n = 0) then 2 else 0) <$> o.

(** The orbital input, and the world, with the two sets exchanged. *)
Definition swap_expr (s : expression R) : expression R :=
  Expression (mf_eri s) (mo_coeff s) (mo_energy s)
    (invert_occupation (mo_occ s)) (_non_dyson s) (xija s).

Definition swap_world (w : world R) : world R :=
  World (swap_expr (self w)) (heap w).

(** The outcome of a call, seen after the exchange. *)
Definition swapped {A} (r : option (A * world R)) : option (A * world R) :=
  (λ aw, (aw.1, swap_world aw.2)) <$> r.

(** [m1] on the exchanged world does what [m2] does on the world, up to
    [rel] on the values returned. *)
Definition sim {A} (rel : A → A → Prop) (m1 m2 : M R A) : Prop :=
  ∀ w, match m2 w with
       | Some (a2, w2) =>
           ∃ a1, m1 (swap_world w) = Some (a1, swap_world w2) ∧ rel a1 a2
       | None => m1 (swap_world w) = None
       end.

End Exchange.

Arguments sim R {A} rel m1 m2.

(** ** Closed forms used in the proofs *)

Section ClosedForms.
Context `{Scalar R}.
Variables occ vir : expression R → list bool.

(** What the two masks of a class must satisfy; both classes do. *)
Record masks_ok : Prop := {
  occ_length : ∀ s, length (occ s) = length (mo_occ s);
  vir_length : ∀ s, length (vir s) = length (mo_occ s);
  occ_attr : ∀ s s', mo_occ s = mo_occ s' → occ s = occ s';
  vir_attr : ∀ s s', mo_occ s = mo_occ s' → vir s = vir s';
  occ_vir_partition : ∀ s,
    (np_sum_mask (occ s) + np_sum_mask (vir s))%nat = length (mo_occ s) }.

(** The coefficients and energies of the main block. *)
Definition main_coeff (s : expression R) : matrix R :=
  if _non_dyson s then np_take_cols (mo_coeff s) (nonzero (occ s))
  else mo_coeff s.

Definition main_energy (s : expression R) : list R :=
  if _non_dyson s then np_take (mo_energy s) (nonzero (occ s))
  else mo_energy s.

(** The value [_integrals_for_hamiltonian] computes. *)
Definition integrals_of (s : expression R) : tensor4 R :=
  ao2mo_general (mf_eri s) (main_coeff s)
    (np_take_cols (mo_coeff s) (nonzero (occ s)))
    (np_take_cols (mo_coeff s) (nonzero (occ s)))
    (np_take_cols (mo_coeff s) (nonzero (vir s))).

(** [self] after an assignment of the flag and of the cache. *)
Definition with_mode (s : expression R) (value : bool)
    (x : option (tensor4 R)) : expression R :=
  Expression (mf_eri s) (mo_coeff s) (mo_energy s) (mo_occ s) value x.

(** The vector [apply_hamiltonian] returns for a static part [h] and an
    input [v]: the main block, then the auxiliary block. *)
Definition apply_value (s : expression R) (h : matrix R) (v : list R)
    : list R :=
  let n := length (main_energy s) in
  let eo := np_take (mo_energy s) (nonzero (occ s)) in
  let ev := np_take (mo_energy s) (nonzero (vir s)) in
  let e_ija := direct_sum_ija eo eo ev in
  let x := integrals_of s in
  let vp := take n v in
  let va := drop n v in
  zip_with s_add
    (zip_with s_add (np_zeros n) (rows_dot h vp))
    (contract_xija_ija x (reshaped3 va (shape3 e_ija)))
  ++ zip_with s_add
       (zip_with s_sub
          (zip_with s_add (np_zeros (length va))
             ((λ z, s_mul z (s_add s_one s_one))
                <$> ravel3 (contract_xija_x x vp)))
          (ravel3 (contract_xjia_x x vp)))
       (zip_with s_mul va (ravel3 e_ija)).

(** The dense operator: column [k] is the vector returned for the [k]-th
    basis vector. *)
Definition dense_value (s : expression R) (h : matrix R) (n : nat) : matrix R :=
  Matrix (n, n)
    (λ x k, item (nth k ((λ k, apply_value s h (basis n k))
                            <$> seq 0 n) []) x).

(** The term of occupied orbital [i] in moment [n], and the sum of the
    terms of the first [k] occupied orbitals, as [build_se_moments]
    accumulates them. *)
Definition moment_term (s : expression R) (n i x y : nat) : R :=
  let eo := np_take (mo_energy s) (nonzero (occ s)) in
  let ev := np_take (mo_energy s) (nonzero (vir s)) in
  sum_n (length (nonzero (occ s))) (λ j,
    sum_n (length (nonzero (vir s))) (λ a,
      s_mul
        (s_mul (item4 (integrals_of s) x i j a)
           (s_sub (s_mul (s_add s_one s_one) (item4 (integrals_of s) y i j a))
              (item4 (integrals_of s) y j i a)))
        (s_pow (s_add (item eo i) (s_sub (item eo j) (item ev a))) n))).

Definition moment_sum (s : expression R) (n k : nat) : matrix R :=
  Matrix (length (main_energy s), length (main_energy s))
    (λ x y, sum_n k (λ i, moment_term s n i x y)).

(** The invariant of an expression: orbital data of matching sizes and
    a cache that holds the integrals of the current mode. *)
Definition consistent (s : expression R) : Prop :=
  (mshape (mo_coeff s)).2 = length (mo_energy s) ∧
  length (mo_occ s) = length (mo_energy s) ∧
  xija s = Some (integrals_of s).

(** The entries of the static part: [h1[x, y]] as the contraction
    [einsum("xajb,yajb->xy", 2 xajb - xajb.transpose(0, 3, 2, 1), t2) * 0.5]
    gives it, and the entry once [h1.T] and [np.diag(e)] are added. *)
Definition static_half (s : expression R) (x y : nat) : R :=
  let co := np_take_cols (mo_coeff s) (nonzero (occ s)) in
  let cv := np_take_cols (mo_coeff s) (nonzero (vir s)) in
  let eo := np_take (mo_energy s) (nonzero (occ s)) in
  let ev := np_take (mo_energy s) (nonzero (vir s)) in
  let xajb := ao2mo_general (mf_eri s) (main_coeff s) cv co cv in
  let e_xajb := direct_sum_xajb (main_energy s) ev eo ev in
  s_mul
    (sum_n (length (nonzero (vir s))) (λ a,
       sum_n (length (nonzero (occ s))) (λ j,
         sum_n (length (nonzero (vir s))) (λ b,
           s_mul
             (s_sub (s_mul (s_add s_one s_one) (item4 xajb x a j b))
                (item4 xajb x b j a))
             (s_div (item4 xajb y a j b) (item4 e_xajb y a j b))))))
    (s_div s_one (s_add s_one s_one)).

Definition static_entry (s : expression R) (x y : nat) : R :=
  s_add (s_add (static_half s x y) (static_half s y x))
    (if decide (x = y) then item (main_energy s) x else s_zero).
End ClosedForms.

(** ** Running the model on integer-valued data *)

Module Scenario.
(** Two occupied and two virtual orbitals, an identity coefficient
    matrix and an integral tensor of all ones. *)
Definition eri : nat → nat → nat → nat → Z := λ _ _ _ _, 1%Z.
Definition coeff : matrix Z :=
  Matrix (4, 4) (λ p x, if decide (p = x) then 1%Z else 0%Z).
Definition energy : list Z := [-2; -1; 1; 2]%Z.
Definition occupation : list nat := [2; 2; 0; 0].

(** The [MP2_1h] expression on these orbitals, in Dyson mode, and the
    same with a client vector in the heap. *)
Definition hole : world Z :=
  World (Expression eri coeff energy occupation false
           (Some (ao2mo_general eri coeff
                    (np_take_cols coeff [0; 1]) (np_take_cols coeff [0; 1])
                    (np_take_cols coeff [2; 3])))) [].

Definition vector : list Z := [1; 2; 3; 4; 5; 6; 7; 8; 9; 10; 11; 12]%Z.

Definition hole_with_vector : world Z := World (self hole) [vector].

(** One doubly occupied orbital and no virtual one (a helium atom in a
    minimal basis), as an [MP2_1p] expression: the mask that plays the
    occupied role selects nothing. *)
Definition helium_coeff : matrix Z := Matrix (1, 1) (λ _ _, 1%Z).
Definition helium_energy : list Z := [-1]%Z.
Definition helium_occupation : list nat := [2].

Definition helium : world Z :=
  World (Expression eri helium_coeff helium_energy helium_occupation false
           (Some (ao2mo_general eri helium_coeff
                    (np_take_cols helium_coeff []) (np_take_cols helium_coeff [])
                    (np_take_cols helium_coeff [0])))) [].

(** The first expression after [non_dyson = True]. *)
Definition hole_non_dyson : world Z :=
  World (Expression eri coeff energy occupation true
           (Some (ao2mo_general eri (np_take_cols coeff [0; 1])
                    (np_take_cols coeff [0; 1]) (np_take_cols coeff [0; 1])
                    (np_take_cols coeff [2; 3])))) [].

(** The first expression with a client vector of the wrong length. *)
Definition short_vector : list Z := [1; 2; 3]%Z.

Definition hole_with_short_vector : world Z := World (self hole) [short_vector].
End Scenario.

(** ** Running the model on any carrier *)

Module Orbitals.
Section Orbitals.
Context `{Scalar R}.

(** The integer [z] as a scalar. *)
Definition num (z : Z) : R :=
  match z with
  | Z0 => 0%R
  | Zpos p => Pos.iter (s_add 1%R) 0%R p
  | Zneg p => s_opp (Pos.iter (s_add 1%R) 0%R p)
  end.

(** Integral tensors of all ones and of all zeros, and the identity as
    coefficient matrix. *)
Definition ones : nat → nat → nat → nat → R := λ _ _ _ _, 1%R.
Definition zeros : nat → nat → nat → nat → R := λ _ _ _ _, 0%R.
Definition identity (n : nat) : matrix R :=
  Matrix (n, n) (λ p x, if decide (p = x) then 1%R else 0%R).

(** Two occupied and two virtual orbitals: the [MP2_1h] expression in
    Dyson mode.  No denominator [e_x - e_a + e_j - e_b] vanishes. *)
Definition four_energy : list R := num <$> [-2; -1; 1; 2]%Z.
Definition four_occupation : list nat := [2; 2; 0; 0].

Definition four : world R :=
  World (Expression ones (identity 4) four_energy four_occupation false
           (Some (ao2mo_general ones (identity 4)
                    (np_take_cols (identity 4) [0; 1])
                    (np_take_cols (identity 4) [0; 1])
                    (np_take_cols (identity 4) [2; 3])))) [].

(** One occupied orbital of energy -1 and virtual orbitals of energies 1
    and 3: for [x = 2], [a = b = 1], [j = 0] the denominator
    [e_x - e_a + e_j - e_b] is [3 - 1 - 1 - 1 = 0].  The [MP2_1h]
    expression in Dyson mode on an integral tensor [eri]. *)
Definition three_energy : list R := num <$> [-1; 1; 3]%Z.
Definition three_occupation : list nat := [2; 0; 0].

Definition three (eri : nat → nat → nat → nat → R) : world R :=
  World (Expression eri (identity 3) three_energy three_occupation false
           (Some (ao2mo_general eri (identity 3)
                    (np_take_cols (identity 3) [0])
                    (np_take_cols (identity 3) [0])
                    (np_take_cols (identity 3) [1; 2])))) [].

(** With integrals all one the vanishing denominator divides 1, with
    integrals all zero it divides 0. *)
Definition degenerate : world R := three ones.
Definition noninteracting : world R := three zeros.

(** A vector for the five positions of these expressions. *)
Definition vector : list R := num <$> [1; 1; 1; 0; 0]%Z.
End Orbitals.
End Orbitals.

(** The expressions above on the numbers of the program, and the first
    of them in exact arithmetic. *)
Module Binary64.
Definition four : world PrimFloat.float := Orbitals.four.
Definition degenerate : world PrimFloat.float := Orbitals.degenerate.
Definition noninteracting : world PrimFloat.float := Orbitals.noninteracting.
Definition vector : list PrimFloat.float := Orbitals.vector.

(** The IEEE 754 class of every entry of an array that was returned. *)
Definition classes (r : option (list PrimFloat.float))
    : option (list FloatClass.float_class) :=
  (λ l : list PrimFloat.float, PrimFloat.classify <$> l) <$> r.
End Binary64.

Module Rational.
Definition four : world Qcanon.Qc := Orbitals.four.
End Rational.

(** * Properties *)

Lemma Z_exact : @exact_arith Z Z_scalar.
Proof.
  constructor; simpl; intros; lia.
Qed.

Lemma Qc_exact : @exact_arith Qcanon.Qc Qc_scalar.
Proof. exact Qcanon.Qcrt. Qed.

(** Addition of binary64 numbers is commutative: it is so on the
    specification of IEEE 754 addition, case by case. *)
Lemma SFadd_comm prec emax x y :
  SpecFloat.SFadd prec emax x y = SpecFloat.SFadd prec emax y x.
Proof.
  destruct x as [sx|sx| |sx mx ex], y as [sy|sy| |sy my ey]; simpl; try done.
  - destruct sx, sy; done.
  - destruct sx, sy; done.
  - by rewrite Z.min_comm, Z.add_comm.
Qed.

Lemma binary64_add_comm (a b : PrimFloat.float) : (a + b)%R = (b + a)%R.
Proof.
  apply FloatAxioms.Prim2SF_inj. cbn [s_add binary64].
  rewrite !FloatAxioms.add_spec. apply SFadd_comm.
Qed.

(** ** Running monadic code *)

Section Run.
Context `{Scalar R}.

Lemma run_bind {A B} (m : M R A) (f : A → M R B) w a w1 :
  m w = Some (a, w1) → (m ≫= f) w = f a w1.
Proof. unfold mbind, M_bind. by intros ->. Qed.

Lemma run_ret {A} (a : A) (w : world R) : mret (M := M R) a w = Some (a, w).
Proof. done. Qed.

Lemma run_lift {A} (o : option A) (a : A) (w : world R) :
  o = Some a → lift o w = Some (a, w).
Proof. by intros ->. Qed.

Lemma run_get_self (w : world R) : get_self w = Some (self w, w).
Proof. done. Qed.

Lemma run_alloc (v : list R) (w : world R) :
  np_alloc v w = Some (length (heap w), World (self w) (heap w ++ [v])).
Proof. done. Qed.

Lemma run_load (l : loc) (v : list R) (w : world R) :
  heap w !! l = Some v → np_load l w = Some (v, w).
Proof. unfold np_load. by intros ->. Qed.

Lemma run_store (l : loc) (v : list R) (w : world R) :
  l < length (heap w) →
  np_store l v w = Some (tt, World (self w) (<[l := v]> (heap w))).
Proof. intros Hl. unfold np_store. by rewrite decide_True. Qed.

Lemma run_setitem (l : loc) (orb : Z) (x : R) (v : list R) (w : world R) :
  heap w !! l = Some v →
  (0 ≤ orb < Z.of_nat (length v))%Z →
  setitem l orb x w
  = Some (tt, World (self w) (<[l := <[Z.to_nat orb := x]> v]> (heap w))).
Proof.
  intros Hl Horb. unfold setitem.
  rewrite (run_bind _ _ _ _ _ (run_load l v w Hl)). cbv zeta.
  rewrite decide_True by done.
  apply run_store. by eapply lookup_lt_Some.
Qed.

Lemma bind_inv {A B} (m : M R A) (f : A → M R B) w b w2 :
  (m ≫= f) w = Some (b, w2) →
  ∃ a w1, m w = Some (a, w1) ∧ f a w1 = Some (b, w2).
Proof.
  unfold mbind, M_bind. destruct (m w) as [[a w1]|]; [|done]. eauto.
Qed.
End Run.

(** ** Frames of the primitive operations and of the methods *)

Section Frame.
Context `{Scalar R}.

Lemma framed_weaken {A} L (Φ Ψ : A → Prop) m :
  (∀ a, Φ a → Ψ a) → framed R L Φ m → framed R L Ψ m.
Proof.
  intros HΦ Hm w a w' HL Hrun.
  destruct (Hm w a w' HL Hrun) as (? & ? & ? & ?). auto.
Qed.

Lemma framed_bind {A B} L (Φ : A → Prop) (Ψ : B → Prop) m
    (f : A → M R B) :
  framed R L Φ m → (∀ a, Φ a → framed R L Ψ (f a)) →
  framed R L Ψ (m ≫= f).
Proof.
  intros Hm Hf w b w2 HL Hrun.
  apply bind_inv in Hrun as (a & w1 & Hrun1 & Hrun2).
  destruct (Hm w a w1 HL Hrun1) as (Ha & Hs1 & Hl1 & Hh1).
  destruct (Hf a Ha w1 b w2) as (Hb & Hs2 & Hl2 & Hh2); [lia|done|].
  split_and!; [done|congruence|lia|].
  intros l Hl. rewrite Hh2, Hh1; done.
Qed.

Lemma framed_pure {A} L (Φ : A → Prop) (m : M R A) :
  (∀ w a w', m w = Some (a, w') → w' = w ∧ Φ a) → framed R L Φ m.
Proof.
  intros Hm w a w' _ Hrun. destruct (Hm w a w' Hrun) as [-> ?]. auto.
Qed.

Lemma framed_ret {A} L (Φ : A → Prop) (a : A) : Φ a → framed R L Φ (mret a).
Proof. intros Ha. apply framed_pure. by intros w ? ? [= <- <-]. Qed.

Lemma framed_lift {A} L (o : option A) : framed R L (λ _, True) (lift o).
Proof.
  apply framed_pure. intros w a w'. unfold lift.
  destruct o; simpl; [|done]. by intros [= <- <-].
Qed.

Lemma framed_get_self L : framed R L (λ _, True) get_self.
Proof. apply framed_pure. by intros w a w' [= <- <-]. Qed.

Lemma framed_load L l : framed R L (λ _, True) (np_load l).
Proof.
  apply framed_pure. intros w a w'. unfold np_load.
  destruct (heap w !! l); simpl; [|done]. by intros [= <- <-].
Qed.

Lemma framed_alloc L v : framed R L (λ r, L ≤ r) (np_alloc v).
Proof.
  intros w a w' HL [= <- <-]. simpl. split_and!; [done..| |].
  - rewrite length_app. lia.
  - intros l Hl. apply lookup_app_l. lia.
Qed.

Lemma framed_store L l v : L ≤ l → framed R L (λ _, True) (np_store l v).
Proof.
  intros Hl w a w' HL. unfold np_store. case_decide; [|done].
  intros [= <- <-]. simpl. split_and!; [done..| |].
  - by rewrite length_insert.
  - intros l' Hl'. apply list_lookup_insert_ne. lia.
Qed.

Lemma framed_getitem_slice L l s : framed R L (λ _, True) (getitem_slice l s).
Proof.
  eapply framed_bind; [apply framed_load|].
  intros v _. by apply framed_ret.
Qed.

Lemma framed_inplace_slice L f l s x :
  L ≤ l → framed R L (λ _, True) (inplace_slice f l s x).
Proof.
  intros Hl. eapply framed_bind; [apply framed_load|]. intros v _.
  eapply framed_bind; [apply framed_lift|]. intros seg _.
  by apply framed_store.
Qed.

Lemma framed_setitem L l orb x :
  L ≤ l → framed R L (λ _, True) (setitem l orb x).
Proof.
  intros Hl. eapply framed_bind; [apply framed_load|]. intros v _.
  cbv zeta. repeat case_decide;
    first [by apply framed_store | apply framed_lift].
Qed.
End Frame.

Section MethodFrames.
Context `{Scalar R}.
Variables occ vir : expression R → list bool.

Lemma framed_non_dyson L :
  framed R L (λ _, True) (_MP2.non_dyson (R := R)).
Proof.
  eapply framed_bind; [apply framed_get_self|]. intros s _.
  by apply framed_ret.
Qed.

Lemma framed_main_block L : framed R L (λ _, True) (_MP2.main_block occ).
Proof.
  eapply framed_bind; [apply framed_get_self|]. intros s _.
  eapply framed_bind; [apply framed_non_dyson|]. intros [] _.
  - eapply framed_bind; [apply framed_lift|]. intros c _.
    eapply framed_bind; [apply framed_lift|]. intros e _.
    by apply framed_ret.
  - by apply framed_ret.
Qed.

Ltac framed_step :=
  first
    [ eapply framed_bind;
      [ first [ apply framed_lift | apply framed_get_self
              | apply framed_non_dyson | apply framed_main_block
              | apply framed_getitem_slice | apply framed_load
              | apply framed_inplace_slice; lia
              | apply framed_setitem; lia ]
      | intros ? _ ]
    | by apply framed_ret ].

Lemma framed_get_static_part L :
  framed R L (λ _, True) (_MP2.get_static_part occ vir).
Proof.
  unfold _MP2.get_static_part.
  eapply framed_bind; [apply framed_main_block|]. intros [c e] _.
  repeat framed_step.
Qed.

Lemma framed_static_or_fresh L static :
  framed R L (λ _, True) (_MP2.static_or_fresh occ vir static).
Proof.
  destruct static; simpl; [by apply framed_ret|].
  apply framed_get_static_part.
Qed.

Lemma framed_apply_hamiltonian L vector static :
  framed R L (λ r, L ≤ r) (_MP2.apply_hamiltonian occ vir vector static).
Proof.
  unfold _MP2.apply_hamiltonian.
  eapply framed_bind; [apply framed_static_or_fresh|]. intros h _.
  eapply framed_bind; [apply framed_get_self|]. intros s _.
  eapply framed_bind; [apply framed_non_dyson|]. intros nd _.
  eapply framed_bind.
  { instantiate (1 := λ _, True).
    destruct nd; [apply framed_lift|by apply framed_ret]. }
  intros e _. do 4 framed_step.
  eapply framed_bind; [apply framed_alloc|]. intros r Hr; cbv beta in Hr.
  repeat framed_step.
Qed.

Lemma framed_diagonal L static :
  framed R L (λ r, L ≤ r) (_MP2.diagonal occ vir static).
Proof.
  unfold _MP2.diagonal.
  eapply framed_bind; [apply framed_static_or_fresh|]. intros h _.
  do 3 framed_step.
  eapply framed_bind; [apply framed_alloc|]. intros r Hr; cbv beta in Hr.
  by apply framed_ret.
Qed.

Lemma framed_get_wavefunction L orb :
  framed R L (λ r, L ≤ r) (_MP2.get_wavefunction occ vir orb).
Proof.
  unfold _MP2.get_wavefunction.
  do 2 framed_step.
  eapply framed_bind; [apply framed_alloc|]. intros r Hr; cbv beta in Hr.
  repeat framed_step.
Qed.

Lemma framed_build_se_moments L nmom :
  framed R L (λ _, True) (_MP2.build_se_moments occ vir nmom).
Proof.
  unfold _MP2.build_se_moments.
  do 4 framed_step. apply framed_lift.
Qed.
End MethodFrames.

(** ** The invariant of an expression *)

Section Invariant.
Context `{Scalar R}.
Variables occ vir : expression R → list bool.
Hypothesis masks : masks_ok occ vir.

Lemma getitem_mask_occ s :
  length (mo_occ s) = length (mo_energy s) →
  getitem_mask (mo_energy s) (occ s)
  = Some (np_take (mo_energy s) (nonzero (occ s))).
Proof.
  intros Hlen. unfold getitem_mask.
  rewrite decide_True; [done|]. by rewrite (occ_length _ _ masks).
Qed.

Lemma getitem_mask_vir s :
  length (mo_occ s) = length (mo_energy s) →
  getitem_mask (mo_energy s) (vir s)
  = Some (np_take (mo_energy s) (nonzero (vir s))).
Proof.
  intros Hlen. unfold getitem_mask.
  rewrite decide_True; [done|]. by rewrite (vir_length _ _ masks).
Qed.

Lemma getitem_cols_occ s :
  (mshape (mo_coeff s)).2 = length (mo_energy s) →
  length (mo_occ s) = length (mo_energy s) →
  getitem_cols (mo_coeff s) (occ s)
  = Some (np_take_cols (mo_coeff s) (nonzero (occ s))).
Proof.
  intros Hc Hlen. unfold getitem_cols.
  rewrite decide_True; [done|]. rewrite (occ_length _ _ masks). congruence.
Qed.

Lemma getitem_cols_vir s :
  (mshape (mo_coeff s)).2 = length (mo_energy s) →
  length (mo_occ s) = length (mo_energy s) →
  getitem_cols (mo_coeff s) (vir s)
  = Some (np_take_cols (mo_coeff s) (nonzero (vir s))).
Proof.
  intros Hc Hlen. unfold getitem_cols.
  rewrite decide_True; [done|]. rewrite (vir_length _ _ masks). congruence.
Qed.

Lemma run_main_block w :
  (mshape (mo_coeff (self w))).2 = length (mo_energy (self w)) →
  length (mo_occ (self w)) = length (mo_energy (self w)) →
  _MP2.main_block occ w
  = Some ((main_coeff occ (self w), main_energy occ (self w)), w).
Proof.
  intros Hc Hlen. unfold _MP2.main_block, _MP2.non_dyson.
  unfold main_coeff, main_energy, mbind, M_bind, get_self. simpl.
  destruct (_non_dyson (self w)); [|done].
  by rewrite getitem_cols_occ, getitem_mask_occ.
Qed.

Lemma run_integrals w :
  (mshape (mo_coeff (self w))).2 = length (mo_energy (self w)) →
  length (mo_occ (self w)) = length (mo_energy (self w)) →
  _MP2._integrals_for_hamiltonian occ vir w
  = Some (integrals_of occ vir (self w), w).
Proof.
  intros Hc Hlen. unfold _MP2._integrals_for_hamiltonian.
  rewrite (run_bind _ _ _ _ _ (run_main_block w Hc Hlen)).
  unfold mbind, M_bind, get_self. simpl.
  by rewrite getitem_cols_occ, getitem_cols_vir.
Qed.

Lemma integrals_of_with_mode s value x :
  integrals_of occ vir (with_mode s value x)
  = integrals_of occ vir (with_mode s value None).
Proof.
  unfold integrals_of, main_coeff. simpl.
  by rewrite !(occ_attr _ _ masks (with_mode s value x) (with_mode s value None)),
    !(vir_attr _ _ masks (with_mode s value x) (with_mode s value None)).
Qed.

Lemma run_set_non_dyson w value :
  (mshape (mo_coeff (self w))).2 = length (mo_energy (self w)) →
  length (mo_occ (self w)) = length (mo_energy (self w)) →
  _MP2.set_non_dyson occ vir value w
  = Some (tt, World
      (if decide (value ≠ _non_dyson (self w))
       then with_mode (self w) value
              (Some (integrals_of occ vir (with_mode (self w) value None)))
       else with_mode (self w) value (xija (self w)))
      (heap w)).
Proof.
  intros Hc Hlen. unfold _MP2.set_non_dyson.
  rewrite (run_bind _ _ _ _ _ (run_get_self w)).
  erewrite run_bind; [|reflexivity].
  case_decide; [|done].
  erewrite run_bind; [|by apply run_integrals].
  unfold setattr_xija. simpl. do 3 f_equal.
  unfold with_mode. f_equal. f_equal.
  apply (integrals_of_with_mode _ value (xija (self w))).
Qed.

Lemma consistent_set_non_dyson w value w' :
  consistent occ vir (self w) →
  _MP2.set_non_dyson occ vir value w = Some (tt, w') →
  consistent occ vir (self w') ∧ heap w' = heap w.
Proof.
  intros (Hc & Hlen & Hx). rewrite run_set_non_dyson by done.
  intros [= <-]. simpl. split; [|done].
  case_decide as Hv; simpl.
  - split_and!; [done..|]. simpl.
    by rewrite (integrals_of_with_mode _ value (Some _)).
  - subst value.
    replace (with_mode (self w) (_non_dyson (self w)) (xija (self w)))
      with (self w) by (by destruct w as [[] ?]).
    done.
Qed.

Lemma consistent_new eri coeff energy occupation non_dyson h w :
  valid_orbitals coeff energy occupation →
  _MP2.__init__ occ vir eri coeff energy occupation non_dyson h = Some w →
  consistent occ vir (self w) ∧ heap w = h.
Proof.
  intros [Hc Hlen]. unfold _MP2.__init__.
  erewrite run_bind; [|reflexivity].
  erewrite run_bind; [|by apply run_integrals].
  unfold setattr_xija. simpl. intros [= <-]. simpl.
  split; [|done]. split_and!; [done..|]. simpl. f_equal. symmetry.
  apply (integrals_of_with_mode
           (Expression eri coeff energy occupation non_dyson None)
           non_dyson (Some _)).
Qed.
End Invariant.

(** ** The static part *)

Section ArrayFacts.
Context `{Scalar R}.

Lemma tensor4_zip_Some f (s t : tensor4 R) :
  shape4 s = shape4 t →
  ∃ r, tensor4_zip f s t = Some r ∧ shape4 r = shape4 s.
Proof.
  intros Hs. unfold tensor4_zip. rewrite decide_True by done. eauto.
Qed.

Lemma tensor3_zip_Some f (s t : tensor3 R) :
  shape3 s = shape3 t →
  ∃ r, tensor3_zip f s t = Some r ∧ shape3 r = shape3 s.
Proof.
  intros Hs. unfold tensor3_zip. rewrite decide_True by done. eauto.
Qed.

Lemma matrix_iadd_Some (h m : matrix R) :
  mshape m = mshape h →
  ∃ r, matrix_iadd h m = Some r ∧ mshape r = mshape h.
Proof.
  intros Hs. unfold matrix_iadd. rewrite decide_True by done. eauto.
Qed.

Lemma einsum_xajb_yajb_xy_Some (s t : tensor4 R) nx ny na nj nb :
  shape4 s = (nx, na, nj, nb) → shape4 t = (ny, na, nj, nb) →
  ∃ m, einsum_xajb_yajb_xy s t = Some m ∧ mshape m = (nx, ny).
Proof.
  intros Hs Ht. unfold einsum_xajb_yajb_xy. rewrite Hs, Ht.
  rewrite decide_True by done. eauto.
Qed.

Lemma shape4_transpose_0321 (t : tensor4 R) n0 n1 n2 n3 :
  shape4 t = (n0, n1, n2, n3) →
  shape4 (transpose_0321 t) = (n0, n3, n2, n1).
Proof. intros Ht. unfold transpose_0321. by rewrite Ht. Qed.

Lemma length_np_take (a : list R) idx : length (np_take a idx) = length idx.
Proof. unfold np_take. by rewrite length_fmap. Qed.
End ArrayFacts.

Section StaticPart.
Context `{Scalar R}.
Variables occ vir : expression R → list bool.
Hypothesis masks : masks_ok occ vir.
Local Open Scope scalar_scope.

Lemma main_shape s :
  (mshape (mo_coeff s)).2 = length (mo_energy s) →
  (mshape (main_coeff occ s)).2 = length (main_energy occ s).
Proof.
  intros Hc. unfold main_coeff, main_energy.
  destruct (_non_dyson s); [|done]. simpl. by rewrite length_np_take.
Qed.

Lemma static_part_exists s :
  (mshape (mo_coeff s)).2 = length (mo_energy s) →
  length (mo_occ s) = length (mo_energy s) →
  ∃ h, (∀ hp, _MP2.get_static_part occ vir (World s hp)
              = Some (h, World s hp)) ∧
       mshape h = (length (main_energy occ s), length (main_energy occ s)).
Proof.
  intros Hc Hlen.
  pose proof (main_shape s Hc) as Hm.
  set (n := length (main_energy occ s)) in *.
  set (no := length (nonzero (occ s))).
  set (nv := length (nonzero (vir s))).
  set (xajb := ao2mo_general (mf_eri s) (main_coeff occ s)
                 (np_take_cols (mo_coeff s) (nonzero (vir s)))
                 (np_take_cols (mo_coeff s) (nonzero (occ s)))
                 (np_take_cols (mo_coeff s) (nonzero (vir s)))).
  set (e_xajb := direct_sum_xajb (main_energy occ s)
                   (np_take (mo_energy s) (nonzero (vir s)))
                   (np_take (mo_energy s) (nonzero (occ s)))
                   (np_take (mo_energy s) (nonzero (vir s)))).
  assert (shape4 xajb = (n, nv, no, nv)) as Hx.
  { subst xajb. simpl. by rewrite Hm. }
  assert (shape4 e_xajb = (n, nv, no, nv)) as He.
  { subst e_xajb. simpl. by rewrite !length_np_take. }
  destruct (tensor4_zip_Some s_div xajb e_xajb) as (t2 & Ht2 & Hst2);
    [congruence|].
  destruct (tensor4_zip_Some s_sub (tensor4_map (s_mul 2) xajb)
              (transpose_0321 xajb)) as (x2 & Hx2 & Hsx2).
  { cbn [tensor4_map shape4]. rewrite Hx. symmetry.
    by apply shape4_transpose_0321. }
  destruct (einsum_xajb_yajb_xy_Some x2 t2 n n nv no nv) as (h1 & Hh1 & Hsh1).
  { rewrite Hsx2. cbn [tensor4_map shape4]. done. }
  { congruence. }
  destruct (matrix_iadd_Some (matrix_map (λ z, z * (1 / 2)) h1)
              (transpose (matrix_map (λ z, z * (1 / 2)) h1)))
    as (h2 & Hh2 & Hsh2).
  { cbn [transpose matrix_map mshape]. by rewrite Hsh1. }
  destruct (matrix_iadd_Some h2 (np_diag_matrix (main_energy occ s)))
    as (h3 & Hh3 & Hsh3).
  { rewrite Hsh2. cbn [np_diag_matrix matrix_map mshape]. by rewrite Hsh1. }
  exists h3. split.
  - intros hp. unfold _MP2.get_static_part.
    rewrite (run_bind _ _ _ _ _
               (run_main_block occ vir masks (World s hp) Hc Hlen)).
    rewrite (run_bind _ _ _ _ _ (run_get_self (World s hp))).
    cbn [self].
    erewrite run_bind;
      [|apply run_lift, (getitem_cols_occ occ vir masks); done].
    erewrite run_bind;
      [|apply run_lift, (getitem_cols_vir occ vir masks); done].
    erewrite run_bind;
      [|apply run_lift, (getitem_mask_occ occ vir masks); done].
    erewrite run_bind;
      [|apply run_lift, (getitem_mask_vir occ vir masks); done].
    fold xajb e_xajb.
    erewrite run_bind; [|apply run_lift, Ht2].
    erewrite run_bind; [|apply run_lift, Hx2].
    erewrite run_bind; [|apply run_lift, Hh1].
    erewrite run_bind; [|apply run_lift, Hh2].
    erewrite run_bind; [|apply run_lift, Hh3].
    done.
  - rewrite Hsh3, Hsh2. cbn [matrix_map mshape]. by rewrite Hsh1.
Qed.

Lemma run_get_static_part w :
  (mshape (mo_coeff (self w))).2 = length (mo_energy (self w)) →
  length (mo_occ (self w)) = length (mo_energy (self w)) →
  ∃ h, _MP2.get_static_part occ vir w = Some (h, w) ∧
       mshape h = (length (main_energy occ (self w)),
                   length (main_energy occ (self w))).
Proof.
  intros Hc Hlen.
  destruct (static_part_exists (self w) Hc Hlen) as (h & Hrun & Hshape).
  exists h. split; [|done]. specialize (Hrun (heap w)). by destruct w.
Qed.

(** Whatever [get_static_part] returns was symmetrized by [h1 += h1.T]
    and then shifted on its diagonal. *)
Lemma get_static_part_steps w h w' :
  _MP2.get_static_part occ vir w = Some (h, w') →
  ∃ h1 h0 e, matrix_iadd h1 (transpose h1) = Some h0 ∧
             matrix_iadd h0 (np_diag_matrix e) = Some h.
Proof.
  unfold _MP2.get_static_part. intros Hrun.
  apply bind_inv in Hrun as ([c e] & w1 & _ & Hrun).
  do 8 (apply bind_inv in Hrun as (? & ? & _ & Hrun)).
  apply bind_inv in Hrun as (h0 & ? & Hh0 & Hrun).
  apply bind_inv in Hrun as (h2 & ? & Hh2 & Hrun).
  injection Hrun as <- <-.
  unfold lift in Hh0, Hh2.
  destruct (matrix_iadd _ (transpose _)) as [h0'|] eqn:E0; [|done].
  injection Hh0 as <- <-.
  destruct (matrix_iadd h0' _) as [h2'|] eqn:E2; [|done].
  injection Hh2 as <- <-. eauto.
Qed.
End StaticPart.

Section Symmetry.
Context `{Scalar R}.
Hypothesis add_commutative : ∀ a b : R, (a + b)%R = (b + a)%R.
Local Open Scope scalar_scope.

Lemma symmetrized_symmetric (h1 h0 h : matrix R) (e : list R) :
  matrix_iadd h1 (transpose h1) = Some h0 →
  matrix_iadd h0 (np_diag_matrix e) = Some h →
  ∀ x y, mitem h x y = mitem h y x.
Proof.
  unfold matrix_iadd. repeat case_decide; try done.
  intros [= <-] [= <-] x y. simpl.
  destruct (decide (x = y)) as [->|Hxy].
  - by rewrite (decide_True (P := y = y)).
  - rewrite (decide_False (P := y = x)) by done.
    by rewrite (add_commutative (mitem h1 x y)).
Qed.
End Symmetry.


(** ** Lists, index lists and raveled arrays *)

Section ListFacts.
Context `{Scalar R}.

Lemma seq_items (l : list R) : item l <$> seq 0 (length l) = l.
Proof.
  apply list_eq. intros i. rewrite list_lookup_fmap.
  destruct (decide (i < length l)) as [Hi|Hi].
  - rewrite lookup_seq_lt by done. simpl. unfold item.
    destruct (lookup_lt_is_Some_2 l i Hi) as [x Hx].
    by rewrite Hx, (nth_lookup_Some _ _ _ _ Hx).
  - rewrite lookup_seq_ge by lia. symmetry. apply lookup_ge_None. lia.
Qed.

Lemma length_bind_const {A B} (f : A → list B) (l : list A) k :
  (∀ x, length (f x) = k) → length (l ≫= f) = length l * k.
Proof.
  intros Hf. induction l as [|x l IH]; [done|].
  rewrite bind_cons, length_app, Hf, IH. simpl. lia.
Qed.

Lemma length_ndindex3 n1 n2 n3 : length (ndindex3 (n1, n2, n3)) = n1 * n2 * n3.
Proof.
  unfold ndindex3.
  rewrite (length_bind_const _ _ (n2 * n3)), length_seq; [lia|].
  intros i. rewrite (length_bind_const _ _ n3), length_seq; [lia|].
  intros j. rewrite (length_bind_const _ _ 1), length_seq; [lia|done].
Qed.

Lemma length_ravel3 (t : tensor3 R) :
  length (ravel3 t) = (shape3 t).1.1 * (shape3 t).1.2 * (shape3 t).2.
Proof.
  unfold ravel3. rewrite length_fmap. destruct (shape3 t) as [[n1 n2] n3].
  apply length_ndindex3.
Qed.

Lemma bind_seq_items {B} (l : list R) (f : R → list B) :
  (i ← seq 0 (length l); f (item l i)) = (x ← l; f x).
Proof.
  rewrite <- (seq_items l) at 2.
  generalize (seq 0 (length l)). intros idx.
  induction idx as [|i idx IH]; [done|].
  by rewrite fmap_cons, !bind_cons, IH.
Qed.

Lemma fmap_bind {A B C} (g : B → C) (f : A → list B) (l : list A) :
  g <$> (l ≫= f) = l ≫= (λ x, g <$> f x).
Proof.
  induction l as [|x l IH]; [done|]. by rewrite !bind_cons, fmap_app, IH.
Qed.

Lemma ravel3_direct_sum_ija (eo eo' ev : list R) :
  ravel3 (direct_sum_ija eo eo' ev)
  = (ei ← eo; ej ← eo'; ea ← ev; [(ei + ej - ea)%R]).
Proof.
  unfold ravel3, direct_sum_ija, ndindex3. simpl.
  rewrite fmap_bind, <- (bind_seq_items eo).
  apply list_bind_ext; [|done]. intros i.
  rewrite fmap_bind, <- (bind_seq_items eo').
  apply list_bind_ext; [|done]. intros j.
  rewrite fmap_bind, <- (bind_seq_items ev).
  apply list_bind_ext; [|done]. intros a. done.
Qed.

Lemma length_np_diag (m : matrix R) n :
  mshape m = (n, n) → length (np_diag m) = n.
Proof.
  intros Hm. unfold np_diag. rewrite length_fmap, length_seq, Hm. simpl. lia.
Qed.
End ListFacts.

(** ** The two classes *)

Section ClassFacts.
Context `{Scalar R}.

Lemma length_nonzero_from_complement (f g : nat → bool) l j k :
  (∀ o, f o = negb (g o)) →
  length (nonzero_from j (f <$> l)) + length (nonzero_from k (g <$> l))
  = length l.
Proof.
  intros Hfg. revert j k. induction l as [|o l IH]; intros j k; [done|].
  specialize (IH (S j) (S k)). rewrite !fmap_cons. simpl.
  rewrite Hfg. destruct (g o); simpl; lia.
Qed.

Lemma positive_not_zero (o : nat) :
  bool_decide (0 < o) = negb (bool_decide (o = 0)).
Proof. destruct o; [done|]. rewrite bool_decide_true by lia. done. Qed.

Lemma masks_ok_1h : masks_ok (R := R) occ_positive occ_zero.
Proof.
  split; unfold occ_positive, occ_zero.
  - intros s. by rewrite length_fmap.
  - intros s. by rewrite length_fmap.
  - by intros s s' ->.
  - by intros s s' ->.
  - intros s. unfold np_sum_mask, nonzero.
    apply length_nonzero_from_complement, positive_not_zero.
Qed.

Lemma masks_ok_1p : masks_ok (R := R) occ_zero occ_positive.
Proof.
  destruct masks_ok_1h as [Ho Hv Hoa Hva Hp].
  split; [done..|]. intros s. rewrite <- (Hp s). lia.
Qed.

Lemma MP2_lookup key (cls : mp2_class R) :
  MP2 !! key = Some cls → cls = MP2_1h ∨ cls = MP2_1p.
Proof.
  unfold MP2. rewrite lookup_insert_Some, lookup_singleton_Some.
  intros [[_ <-] | [_ [_ <-]]]; auto.
Qed.

Lemma MP2_masks key (cls : mp2_class R) :
  MP2 !! key = Some cls →
  masks_ok (occ cls) (vir cls) ∧ cls = _mp2_constructor (occ cls) (vir cls).
Proof.
  intros [-> | ->]%MP2_lookup; split;
    auto using masks_ok_1h, masks_ok_1p.
Qed.

(** The methods of a class of [MP2] are those of [_MP2] at its masks. *)
Lemma MP2_methods key (cls : mp2_class R) :
  MP2 !! key = Some cls →
  get_static_part cls = _MP2.get_static_part (occ cls) (vir cls) ∧
  apply_hamiltonian cls = _MP2.apply_hamiltonian (occ cls) (vir cls) ∧
  diagonal cls = _MP2.diagonal (occ cls) (vir cls) ∧
  get_wavefunction cls = _MP2.get_wavefunction (occ cls) (vir cls) ∧
  build_se_moments cls = _MP2.build_se_moments (occ cls) (vir cls) ∧
  set_non_dyson cls = _MP2.set_non_dyson (occ cls) (vir cls).
Proof. by intros [-> | ->]%MP2_lookup. Qed.

Lemma expression_consistent (o v : expression R → list bool) w :
  masks_ok o v →
  mp2_expression (_mp2_constructor o v) w →
  consistent o v (self w).
Proof.
  intros Hm. induction 1 as [?????? w Hvalid Hnew|w value w' _ IH Hset|]; simpl in *.
  - by destruct (consistent_new o v Hm _ _ _ _ _ _ _ Hvalid Hnew).
  - by destruct (consistent_set_non_dyson o v Hm _ _ _ IH Hset).
  - done.
Qed.

Lemma main_energy_length (cls : mp2_class R) w :
  length (main_energy (occ cls) (self w)) = n_main cls w.
Proof.
  unfold main_energy, n_main, n_occ, np_sum_mask.
  destruct (_non_dyson (self w)); [|done]. apply length_np_take.
Qed.
End ClassFacts.

(** ** Running [apply_hamiltonian] *)

Section ApplyRun.
Context `{Scalar R}.
Variables occ vir : expression R → list bool.
Hypothesis masks : masks_ok occ vir.

Lemma run_getitem_slice l s (v : list R) w :
  heap w !! l = Some v → getitem_slice l s w = Some (getslice s v, w).
Proof.
  intros Hl. unfold getitem_slice.
  by rewrite (run_bind _ _ _ _ _ (run_load l v w Hl)).
Qed.

Lemma inplace_same f (seg x : list R) :
  length x = length seg → inplace f seg x = Some (zip_with f seg x).
Proof. intros Hx. unfold inplace. by rewrite decide_True. Qed.

Lemma lookup_last_alloc (hp : list (list R)) r : (hp ++ [r]) !! length hp = Some r.
Proof. by rewrite lookup_app_r, Nat.sub_diag. Qed.

Lemma insert_last_alloc (hp : list (list R)) r r' :
  <[length hp := r']> (hp ++ [r]) = hp ++ [r'].
Proof. by rewrite insert_app_r_alt, Nat.sub_diag. Qed.

Lemma run_inplace_to f s (hp : list (list R)) mp ax x n :
  length mp = n → length x = n →
  inplace_slice f (length hp) (slice_to n) x (World s (hp ++ [mp ++ ax]))
  = Some (tt, World s (hp ++ [zip_with f mp x ++ ax])).
Proof.
  intros Hmp Hx. unfold inplace_slice.
  erewrite run_bind; [|apply run_load, lookup_last_alloc]. simpl.
  rewrite take_app_length' by done.
  erewrite run_bind; [|apply run_lift, inplace_same; congruence].
  rewrite drop_app_length' by done.
  rewrite run_store by (simpl; rewrite length_app; simpl; lia).
  simpl. by rewrite insert_last_alloc.
Qed.

Lemma run_inplace_from f s (hp : list (list R)) mp ax x n :
  length mp = n → length x = length ax →
  inplace_slice f (length hp) (slice_from n) x (World s (hp ++ [mp ++ ax]))
  = Some (tt, World s (hp ++ [mp ++ zip_with f ax x])).
Proof.
  intros Hmp Hx. unfold inplace_slice.
  erewrite run_bind; [|apply run_load, lookup_last_alloc]. simpl.
  rewrite drop_app_length' by done.
  erewrite run_bind; [|apply run_lift, inplace_same; congruence].
  rewrite take_app_length' by done.
  rewrite run_store by (simpl; rewrite length_app; simpl; lia).
  simpl. by rewrite insert_last_alloc.
Qed.

Lemma shape4_integrals_of s :
  (mshape (mo_coeff s)).2 = length (mo_energy s) →
  shape4 (integrals_of occ vir s)
  = (length (main_energy occ s), length (nonzero (occ s)),
     length (nonzero (occ s)), length (nonzero (vir s))).
Proof.
  intros Hc. unfold integrals_of. simpl. by rewrite main_shape.
Qed.

Lemma length_np_zeros n : length (np_zeros (R := R) n) = n.
Proof. apply length_replicate. Qed.

Lemma length_rows_dot (h : matrix R) v : length (rows_dot h v) = (mshape h).1.
Proof. unfold rows_dot. by rewrite length_fmap, length_seq. Qed.

Lemma length_contract_xija_ija (t : tensor4 R) v :
  length (contract_xija_ija t v) = (shape4 t).1.1.1.
Proof.
  unfold contract_xija_ija. destruct (shape4 t) as [[[nx ni] nj] na].
  by rewrite length_fmap, length_seq.
Qed.

Lemma run_apply_hamiltonian w h vector v :
  consistent occ vir (self w) →
  mshape h = (length (main_energy occ (self w)), length (main_energy occ (self w))) →
  heap w !! vector = Some v →
  length v = length (main_energy occ (self w))
             + length (nonzero (occ (self w))) * length (nonzero (occ (self w)))
               * length (nonzero (vir (self w))) →
  _MP2.apply_hamiltonian occ vir vector (Some h) w
  = Some (length (heap w),
          World (self w) (heap w ++ [apply_value occ vir (self w) h v])).
Proof.
  intros (Hc & Hlen & Hx) Hh Hv Hlv. unfold _MP2.apply_hamiltonian.
  rewrite (run_bind _ _ _ _ _ (run_ret h w)).
  rewrite (run_bind _ _ _ _ _ (run_get_self w)).
  erewrite run_bind; [|reflexivity].
  erewrite (run_bind _ _ _ (main_energy occ (self w))).
  2:{ unfold main_energy. destruct (_non_dyson (self w)); [|done].
      apply run_lift, (getitem_mask_occ _ _ masks); done. }
  erewrite run_bind; [|apply run_lift, (getitem_mask_occ _ _ masks); done].
  erewrite run_bind; [|apply run_lift, (getitem_mask_vir _ _ masks); done].
  erewrite run_bind; [|apply run_lift, Hx].
  erewrite run_bind; [|apply run_load, Hv].
  erewrite run_bind; [|apply run_alloc].
  unfold apply_value.
  pose proof (shape4_integrals_of (self w) Hc) as Hsx.
  set (n := length (main_energy occ (self w))) in *.
  set (eo := np_take (mo_energy (self w)) (nonzero (occ (self w)))).
  set (ev := np_take (mo_energy (self w)) (nonzero (vir (self w)))).
  set (no := length (nonzero (occ (self w)))) in *.
  set (nv := length (nonzero (vir (self w)))) in *.
  assert (length eo = no) as Heo by apply length_np_take.
  assert (length ev = nv) as Hev by apply length_np_take.
  set (x := integrals_of occ vir (self w)) in *.
  set (e_ija := direct_sum_ija eo eo ev).
  assert (shape3 e_ija = (no, no, nv)) as Hse by (simpl; congruence).
  assert (length (take n v) = n) as Hvp by (rewrite length_take; lia).
  assert (length (drop n v) = no * no * nv) as Hva by (rewrite length_drop; lia).
  assert (Hv' : ∀ r, (heap w ++ [r]) !! vector = Some v).
  { intros r. by apply lookup_app_l_Some. }
  assert (np_zeros (length v) = np_zeros n ++ np_zeros (length (drop n v)) :> list R)
    as ->.
  { unfold np_zeros. rewrite <- replicate_add. f_equal. lia. }
  clearbody x e_ija. cbn [getslice].
  (* r[p] += np.dot(static, vector[p]) *)
  erewrite run_bind; [|apply run_getitem_slice, Hv'].
  erewrite run_bind.
  2:{ apply run_lift. unfold np_dot. rewrite decide_True; [done|].
      rewrite Hh. simpl. by rewrite Hvp. }
  erewrite run_bind.
  2:{ apply run_inplace_to; [apply length_replicate|].
      simpl. by rewrite length_rows_dot, Hh. }
  (* r[p] += einsum("xija,ija->x", ...) *)
  erewrite run_bind; [|apply run_getitem_slice, Hv'].
  erewrite run_bind.
  2:{ apply run_lift. unfold reshape3. rewrite Hse.
      rewrite decide_True by done. rewrite <- Hse. done. }
  erewrite run_bind.
  2:{ apply run_lift. unfold einsum_xija_ija_x. rewrite Hsx.
      rewrite decide_True; [done|]. rewrite Hse. done. }
  erewrite run_bind.
  2:{ apply run_inplace_to.
      - rewrite length_zip_with, length_np_zeros, length_rows_dot, Hh. simpl. lia.
      - by rewrite length_contract_xija_ija, Hsx. }
  (* r[a] += einsum("xija,x->ija", ...).ravel() * 2.0 *)
  erewrite run_bind; [|apply run_getitem_slice, Hv'].
  erewrite run_bind.
  2:{ apply run_lift. unfold einsum_xija_x_ija. rewrite Hsx.
      rewrite decide_True by done. done. }
  erewrite run_bind.
  2:{ apply run_inplace_from.
      - rewrite !length_zip_with, length_np_zeros, length_rows_dot,
          length_contract_xija_ija, Hh, Hsx. simpl. lia.
      - rewrite length_fmap, length_ravel3, length_np_zeros.
        unfold contract_xija_x. rewrite Hsx. simpl. lia. }
  (* r[a] -= einsum("xjia,x->ija", ...).ravel() *)
  erewrite run_bind; [|apply run_getitem_slice, Hv'].
  erewrite run_bind.
  2:{ apply run_lift. unfold einsum_xjia_x_ija. rewrite Hsx.
      rewrite decide_True by done. done. }
  erewrite run_bind.
  2:{ apply run_inplace_from.
      - rewrite !length_zip_with, length_np_zeros, length_rows_dot,
          length_contract_xija_ija, Hh, Hsx. simpl. lia.
      - rewrite length_zip_with, length_fmap, !length_ravel3, length_np_zeros.
        unfold contract_xija_x, contract_xjia_x. rewrite Hsx. simpl. lia. }
  (* r[a] += vector[a] * e_ija.ravel() *)
  erewrite run_bind; [|apply run_getitem_slice, Hv'].
  erewrite run_bind.
  2:{ apply run_lift. unfold np_mul. rewrite decide_True; [done|].
      rewrite length_ravel3, Hse. simpl. done. }
  erewrite run_bind.
  2:{ apply run_inplace_from.
      - rewrite !length_zip_with, length_np_zeros, length_rows_dot,
          length_contract_xija_ija, Hh, Hsx. simpl. lia.
      - rewrite !length_zip_with, length_fmap, !length_ravel3, length_np_zeros.
        unfold contract_xija_x, contract_xjia_x. rewrite Hsx, Hse. simpl. lia. }
  rewrite run_ret. cbn [getslice]. done.
Qed.
End ApplyRun.

(** ** Entries of lists and finite sums *)

Section ItemFacts.
Context `{Scalar R}.

Lemma item_lookup (l : list R) k : item l k = default 0%R (l !! k).
Proof. apply nth_lookup. Qed.

Lemma item_lookup_Some (l : list R) k x : l !! k = Some x → item l k = x.
Proof. intros Hk. by rewrite item_lookup, Hk. Qed.

Lemma lookup_item (l : list R) k : k < length l → l !! k = Some (item l k).
Proof.
  intros Hk. destruct (lookup_lt_is_Some_2 l k Hk) as [x Hx].
  by rewrite (item_lookup_Some _ _ _ Hx).
Qed.

Lemma item_overflow (l : list R) k : length l ≤ k → item l k = 0%R.
Proof. intros Hk. by rewrite item_lookup, lookup_ge_None_2. Qed.

Lemma item_ext (l1 l2 : list R) :
  length l1 = length l2 →
  (∀ k, k < length l1 → item l1 k = item l2 k) → l1 = l2.
Proof.
  intros Hlen Hitem. apply list_eq. intros k.
  destruct (decide (k < length l1)) as [Hk|Hk].
  - rewrite !lookup_item by lia. f_equal. auto.
  - rewrite !lookup_ge_None_2 by lia. done.
Qed.

Lemma item_app_l (l1 l2 : list R) k :
  k < length l1 → item (l1 ++ l2) k = item l1 k.
Proof. intros Hk. by rewrite !item_lookup, lookup_app_l. Qed.

Lemma item_app_r (l1 l2 : list R) k :
  item (l1 ++ l2) (length l1 + k) = item l2 k.
Proof.
  rewrite !item_lookup, lookup_app_r by lia. do 2 f_equal. lia.
Qed.

Lemma item_zip_with f (a b : list R) k :
  k < length a → k < length b →
  item (zip_with f a b) k = f (item a k) (item b k).
Proof.
  intros Ha Hb. apply item_lookup_Some.
  rewrite lookup_zip_with, !lookup_item by done. done.
Qed.

Lemma item_fmap {A} (f : A → R) (l : list A) d k :
  k < length l → item (f <$> l) k = f (nth k l d).
Proof.
  intros Hk. apply item_lookup_Some. rewrite list_lookup_fmap.
  destruct (lookup_lt_is_Some_2 l k Hk) as [x Hx].
  by rewrite Hx, (nth_lookup_Some _ _ _ _ Hx).
Qed.

Lemma item_fmap_seq (f : nat → R) n k :
  k < n → item (f <$> seq 0 n) k = f k.
Proof.
  intros Hk. apply item_lookup_Some.
  by rewrite list_lookup_fmap, lookup_seq_lt.
Qed.

Lemma item_take (l : list R) n k : k < n → item (take n l) k = item l k.
Proof. intros Hk. by rewrite !item_lookup, lookup_take_lt. Qed.

Lemma item_drop (l : list R) n k : item (drop n l) k = item l (n + k).
Proof. by rewrite !item_lookup, lookup_drop. Qed.

Lemma item_zeros n k : item (np_zeros n) k = 0%R.
Proof.
  destruct (decide (k < n)) as [Hk|Hk].
  - apply item_lookup_Some. by apply lookup_replicate_2.
  - apply item_overflow. rewrite length_np_zeros. lia.
Qed.

Lemma length_basis n j : length (basis (R := R) n j) = n.
Proof. unfold basis. by rewrite length_insert, length_np_zeros. Qed.

Lemma item_basis n j k :
  j < n → item (basis n j) k = if decide (k = j) then 1%R else 0%R.
Proof.
  intros Hj. unfold basis. case_decide as Hk.
  - subst k. apply item_lookup_Some.
    apply list_lookup_insert_eq. by rewrite length_np_zeros.
  - rewrite item_lookup, list_lookup_insert_ne by done.
    rewrite <- item_lookup. apply item_zeros.
Qed.
End ItemFacts.

Section Sums.
Context `{Scalar R}.
Hypothesis arith : exact_arith.
Add Ring scalar_ring_sums :
  (arith : ring_theory s_zero s_one s_add s_mul s_sub s_opp (@eq R)).
Local Open Scope scalar_scope.

Lemma sum_n_ext n (f g : nat → R) :
  (∀ k, (k < n)%nat → f k = g k) → sum_n n f = sum_n n g.
Proof using Type.
  induction n as [|n IH]; intros Hfg; [done|]. simpl.
  rewrite IH, Hfg by auto with lia. done.
Qed.

Lemma sum_n_zero n (f : nat → R) :
  (∀ k, (k < n)%nat → f k = 0) → sum_n n f = 0.
Proof.
  induction n as [|n IH]; intros Hf; [done|]. simpl.
  rewrite IH, Hf by auto with lia. ring.
Qed.

Lemma sum_n_add n (f g : nat → R) :
  sum_n n (λ k, f k + g k) = sum_n n f + sum_n n g.
Proof. induction n as [|n IH]; simpl; [|rewrite IH]; ring. Qed.

Lemma sum_n_scale n c (f : nat → R) :
  sum_n n (λ k, c * f k) = c * sum_n n f.
Proof. induction n as [|n IH]; simpl; [|rewrite IH]; ring. Qed.

Lemma sum_n_delta n j (f : nat → R) :
  (j < n)%nat →
  sum_n n (λ k, f k * (if decide (k = j) then 1 else 0)) = f j.
Proof.
  induction n as [|n IH]; intros Hj; [lia|]. simpl.
  destruct (decide (n = j)) as [->|Hn].
  - rewrite sum_n_zero; [ring|]. intros k Hk.
    rewrite decide_False by lia. ring.
  - rewrite IH by lia. ring.
Qed.
End Sums.

(** ** Linear forms on vectors *)

Section Linear.
Context `{Scalar R}.
Hypothesis arith : exact_arith.
Add Ring scalar_ring_linear :
  (arith : ring_theory s_zero s_one s_add s_mul s_sub s_opp (@eq R)).
Local Open Scope scalar_scope.

Lemma length_vadd (u v : list R) :
  length u = length v → length (vadd u v) = length v.
Proof using Type. intros Huv. unfold vadd. rewrite length_zip_with. lia. Qed.

Lemma length_vscale c (v : list R) : length (vscale c v) = length v.
Proof using Type. apply length_fmap. Qed.

Lemma item_vadd (u v : list R) k :
  length u = length v → item (vadd u v) k = item u k + item v k.
Proof.
  intros Huv. destruct (decide (k < length u)%nat) as [Hk|Hk].
  - apply item_zip_with; lia.
  - rewrite !item_overflow; [ring|lia..|]. rewrite length_vadd; lia.
Qed.

Lemma item_vscale c (v : list R) k : item (vscale c v) k = c * item v k.
Proof.
  destruct (decide (k < length v)%nat) as [Hk|Hk].
  - unfold vscale. rewrite (item_fmap _ _ 0) by done. done.
  - rewrite !item_overflow; [ring|lia|]. rewrite length_vscale. lia.
Qed.

Lemma item_app_ge (l1 l2 : list R) k :
  (length l1 ≤ k)%nat → item (l1 ++ l2) k = item l2 (k - length l1).
Proof using Type.
  intros Hk. replace k with (length l1 + (k - length l1))%nat at 1 by lia.
  apply item_app_r.
Qed.

Lemma vscale_zeros n : vscale 0 (np_zeros n) = np_zeros n.
Proof.
  apply item_ext; [by rewrite length_vscale|]. intros k _.
  rewrite item_vscale, item_zeros. ring.
Qed.

(** The vector that agrees with [v] on its first [j] entries and is zero
    on the others grows by one multiple of a basis vector. *)
Lemma truncation_step (v : list R) n j :
  length v = n → (j < n)%nat →
  vadd (take j v ++ np_zeros (n - j)) (vscale (item v j) (basis n j))
  = take (S j) v ++ np_zeros (n - S j).
Proof.
  intros Hv Hj.
  assert (length (take j v ++ np_zeros (n - j)) = n) as Hl1.
  { rewrite length_app, length_take, length_np_zeros. lia. }
  assert (length (take (S j) v ++ np_zeros (n - S j)) = n) as Hl2.
  { rewrite length_app, length_take, length_np_zeros. lia. }
  apply item_ext.
  { rewrite length_vadd; rewrite ?length_vscale, ?length_basis; lia. }
  intros k _.
  rewrite item_vadd by (rewrite length_vscale, length_basis; lia).
  rewrite item_vscale, item_basis by done.
  destruct (decide (k < j)%nat) as [Hkj|Hkj].
  - rewrite !item_app_l by (rewrite length_take; lia).
    rewrite !item_take by lia. rewrite decide_False by lia. ring.
  - rewrite (item_app_ge (take j v)) by (rewrite length_take; lia).
    rewrite item_zeros.
    destruct (decide (k = j)) as [->|Hne].
    + rewrite item_app_l by (rewrite length_take; lia).
      rewrite item_take by lia. ring.
    + rewrite (item_app_ge (take (S j) v)) by (rewrite length_take; lia).
      rewrite item_zeros. ring.
Qed.

(** A form that is additive and homogeneous on vectors of length [n] is
    the sum of its values on the basis weighted by the entries. *)
Lemma linear_form_expansion n (φ : list R → R) :
  (∀ u v, length u = n → length v = n → φ (vadd u v) = φ u + φ v) →
  (∀ c v, length v = n → φ (vscale c v) = c * φ v) →
  ∀ v, length v = n → φ v = sum_n n (λ k, φ (basis n k) * item v k).
Proof.
  intros Hadd Hscale v Hv.
  assert (φ (np_zeros n) = 0) as Hzero.
  { rewrite <- vscale_zeros, Hscale by apply length_np_zeros. ring. }
  assert (∀ j, (j ≤ n)%nat →
            φ (take j v ++ np_zeros (n - j))
            = sum_n j (λ k, φ (basis n k) * item v k)) as Hj.
  { induction j as [|j IH]; intros Hjn.
    - simpl. by rewrite Nat.sub_0_r.
    - rewrite <- truncation_step by lia.
      rewrite Hadd, Hscale, IH; [simpl; ring|lia|..].
      + apply length_basis.
      + rewrite length_app, length_take, length_np_zeros. lia.
      + rewrite length_vscale. apply length_basis. }
  rewrite <- Hj by done.
  by rewrite Nat.sub_diag, app_nil_r, take_ge by lia.
Qed.
End Linear.

(** ** The entries of the vector [apply_hamiltonian] returns *)

Section ApplyValue.
Context `{Scalar R}.
Variables occ vir : expression R → list bool.
Variables (s : expression R) (h : matrix R).
Hypothesis Hc : (mshape (mo_coeff s)).2 = length (mo_energy s).
Hypothesis Hh :
  mshape h = (length (main_energy occ s), length (main_energy occ s)).

Local Abbreviation n := (length (main_energy occ s)).
Local Abbreviation no := (length (nonzero (occ s))).
Local Abbreviation nv := (length (nonzero (vir s))).
Local Abbreviation eo := (np_take (mo_energy s) (nonzero (occ s))).
Local Abbreviation ev := (np_take (mo_energy s) (nonzero (vir s))).
Local Abbreviation x := (item4 (integrals_of occ vir s)).

Lemma length_apply_value v :
  length v = n + no * no * nv →
  length (apply_value occ vir s h v) = n + no * no * nv.
Proof.
  intros Hv. unfold apply_value.
  rewrite length_app, !length_zip_with, !length_np_zeros, length_rows_dot,
    length_contract_xija_ija, length_fmap, !length_ravel3, length_drop.
  rewrite (shape4_integrals_of occ vir s Hc), Hh.
  unfold contract_xija_x, contract_xjia_x.
  rewrite (shape4_integrals_of occ vir s Hc). simpl.
  rewrite !length_np_take. lia.
Qed.

Lemma apply_value_main v k :
  length v = n + no * no * nv → k < n →
  item (apply_value occ vir s h v) k
  = ((0 + sum_n n (λ y, mitem h k y * item v y))
     + sum_n no (λ i, sum_n no (λ j, sum_n nv (λ a,
         x k i j a * item v (n + ((i * no + j) * nv + a))%nat))))%R.
Proof.
  intros Hv Hk. unfold apply_value.
  assert (length (take n v) = n) as Hvp by (rewrite length_take; lia).
  rewrite item_app_l.
  2:{ rewrite !length_zip_with, length_np_zeros, length_rows_dot,
        length_contract_xija_ija, (shape4_integrals_of occ vir s Hc), Hh.
      simpl. lia. }
  rewrite !item_zip_with
    by (rewrite ?length_zip_with, ?length_np_zeros, ?length_rows_dot,
          ?length_contract_xija_ija, ?(shape4_integrals_of occ vir s Hc), ?Hh;
        simpl; lia).
  rewrite item_zeros. f_equal; [f_equal|].
  - unfold rows_dot. rewrite Hh. simpl. rewrite item_fmap_seq by done.
    rewrite Hvp. apply sum_n_ext. intros y Hy. by rewrite item_take.
  - unfold contract_xija_ija.
    rewrite (shape4_integrals_of occ vir s Hc).
    rewrite item_fmap_seq by done. simpl. rewrite !length_np_take.
    apply sum_n_ext. intros i _. apply sum_n_ext. intros j _.
    apply sum_n_ext. intros a _. by rewrite item_drop.
Qed.

Lemma apply_value_aux v q i j a :
  length v = n + no * no * nv → q < no * no * nv →
  nth q (ndindex3 (no, no, nv)) (0, 0, 0) = (i, j, a) →
  item (apply_value occ vir s h v) (n + q)
  = (((0 + sum_n n (λ y, x y i j a * item v y) * 2)
      - sum_n n (λ y, x y j i a * item v y))
     + item v (n + q) * (item eo i + item eo j - item ev a))%R.
Proof.
  intros Hv Hq Hija. unfold apply_value.
  assert (length (take n v) = n) as Hvp by (rewrite length_take; lia).
  assert (length (drop n v) = no * no * nv) as Hva
    by (rewrite length_drop; lia).
  pose proof (shape4_integrals_of occ vir s Hc) as Hsx.
  rewrite item_app_ge.
  2:{ rewrite !length_zip_with, length_np_zeros, length_rows_dot,
        length_contract_xija_ija, Hsx, Hh. simpl. lia. }
  replace (n + q - _) with q.
  2:{ rewrite !length_zip_with, length_np_zeros, length_rows_dot,
        length_contract_xija_ija, Hsx, Hh. simpl. lia. }
  assert (shape3 (contract_xija_x (integrals_of occ vir s) (take n v))
          = (no, no, nv)) as Hs1 by (unfold contract_xija_x; by rewrite Hsx).
  assert (shape3 (contract_xjia_x (integrals_of occ vir s) (take n v))
          = (no, no, nv)) as Hs2 by (unfold contract_xjia_x; by rewrite Hsx).
  assert (shape3 (direct_sum_ija eo eo ev) = (no, no, nv)) as Hs3
    by (simpl; by rewrite !length_np_take).
  rewrite !item_zip_with
    by (rewrite ?length_zip_with, ?length_np_zeros, ?length_fmap,
          ?length_ravel3, ?Hs1, ?Hs2, ?Hs3, ?Hva; simpl; lia).
  rewrite item_zeros, item_drop.
  unfold ravel3. rewrite <- list_fmap_compose, Hs1, Hs2, Hs3.
  rewrite !(item_fmap _ _ (0, 0, 0)) by (rewrite length_ndindex3; lia).
  rewrite Hija.
  unfold compose, item3_at, contract_xija_x, contract_xjia_x, direct_sum_ija.
  rewrite Hsx. cbn [item3].
  f_equal. f_equal; [f_equal; f_equal|].
  - apply sum_n_ext. intros y Hy. by rewrite item_take.
  - apply sum_n_ext. intros y Hy. by rewrite item_take.
Qed.

Hypothesis arith : exact_arith.
Add Ring scalar_ring_apply :
  (arith : ring_theory s_zero s_one s_add s_mul s_sub s_opp (@eq R)).

Lemma sum3_ext n1 n2 n3 (f g : nat → nat → nat → R) :
  (∀ i j a, f i j a = g i j a) →
  sum_n n1 (λ i, sum_n n2 (λ j, sum_n n3 (λ a, f i j a)))
  = sum_n n1 (λ i, sum_n n2 (λ j, sum_n n3 (λ a, g i j a))).
Proof using Type.
  intros Hfg. apply sum_n_ext. intros i _. apply sum_n_ext. intros j _.
  apply sum_n_ext. intros a _. apply Hfg.
Qed.

Lemma sum3_add n1 n2 n3 (f g : nat → nat → nat → R) :
  sum_n n1 (λ i, sum_n n2 (λ j, sum_n n3 (λ a, (f i j a + g i j a)%R)))
  = (sum_n n1 (λ i, sum_n n2 (λ j, sum_n n3 (λ a, f i j a)))
     + sum_n n1 (λ i, sum_n n2 (λ j, sum_n n3 (λ a, g i j a))))%R.
Proof.
  rewrite <- (sum_n_add arith). apply sum_n_ext. intros i _.
  rewrite <- (sum_n_add arith). apply sum_n_ext. intros j _.
  apply (sum_n_add arith).
Qed.

Lemma sum3_scale n1 n2 n3 c (f : nat → nat → nat → R) :
  sum_n n1 (λ i, sum_n n2 (λ j, sum_n n3 (λ a, (c * f i j a)%R)))
  = (c * sum_n n1 (λ i, sum_n n2 (λ j, sum_n n3 (λ a, f i j a))))%R.
Proof.
  rewrite <- (sum_n_scale arith). apply sum_n_ext. intros i _.
  rewrite <- (sum_n_scale arith). apply sum_n_ext. intros j _.
  apply (sum_n_scale arith).
Qed.

Lemma apply_value_additive u v k :
  length u = n + no * no * nv → length v = n + no * no * nv →
  item (apply_value occ vir s h (vadd u v)) k
  = (item (apply_value occ vir s h u) k
     + item (apply_value occ vir s h v) k)%R.
Proof.
  intros Hu Hv.
  assert (length (vadd u v) = n + no * no * nv) as Huv
    by (rewrite length_vadd; lia).
  assert (Hitem : ∀ y, item (vadd u v) y = (item u y + item v y)%R)
    by (intros y; apply (item_vadd arith); lia).
  destruct (decide (k < n + no * no * nv)) as [Hk|Hk].
  2:{ rewrite !item_overflow by (rewrite length_apply_value; lia). ring. }
  destruct (decide (k < n)) as [Hkn|Hkn].
  - rewrite !apply_value_main by done.
    rewrite (sum_n_ext _ _ (λ y, (mitem h k y * item u y
                                  + mitem h k y * item v y)%R))
      by (intros y _; rewrite Hitem; ring).
    rewrite (sum_n_add arith).
    rewrite (sum3_ext _ _ _ _
               (λ i j a, (x k i j a * item u (n + ((i * no + j) * nv + a))
                          + x k i j a * item v (n + ((i * no + j) * nv + a)))%R))
      by (intros i j a; rewrite Hitem; ring).
    rewrite sum3_add. ring.
  - assert (∃ q, k = n + q) as [q ->] by (exists (k - n); lia).
    destruct (nth q (ndindex3 (no, no, nv)) (0, 0, 0)) as [[i j] a] eqn:E.
    rewrite !(apply_value_aux _ _ i j a) by (done || lia).
    rewrite (sum_n_ext _ _ (λ y, (x y i j a * item u y
                                  + x y i j a * item v y)%R))
      by (intros y _; rewrite Hitem; ring).
    rewrite (sum_n_ext n (λ y, (x y j i a * item (vadd u v) y)%R)
               (λ y, (x y j i a * item u y + x y j i a * item v y)%R))
      by (intros y _; rewrite Hitem; ring).
    rewrite !(sum_n_add arith), Hitem. ring.
Qed.

Lemma apply_value_homogeneous c v k :
  length v = n + no * no * nv →
  item (apply_value occ vir s h (vscale c v)) k
  = (c * item (apply_value occ vir s h v) k)%R.
Proof.
  intros Hv.
  assert (length (vscale c v) = n + no * no * nv) as Hcv
    by (by rewrite length_vscale).
  assert (Hitem : ∀ y, item (vscale c v) y = (c * item v y)%R)
    by (intros y; apply (item_vscale arith)).
  destruct (decide (k < n + no * no * nv)) as [Hk|Hk].
  2:{ rewrite !item_overflow by (rewrite length_apply_value; lia). ring. }
  destruct (decide (k < n)) as [Hkn|Hkn].
  - rewrite !apply_value_main by done.
    rewrite (sum_n_ext _ _ (λ y, (c * (mitem h k y * item v y))%R))
      by (intros y _; rewrite Hitem; ring).
    rewrite (sum_n_scale arith).
    rewrite (sum3_ext _ _ _ _
               (λ i j a,
                  (c * (x k i j a * item v (n + ((i * no + j) * nv + a))))%R))
      by (intros i j a; rewrite Hitem; ring).
    rewrite sum3_scale. ring.
  - assert (∃ q, k = n + q) as [q ->] by (exists (k - n); lia).
    destruct (nth q (ndindex3 (no, no, nv)) (0, 0, 0)) as [[i j] a] eqn:E.
    rewrite !(apply_value_aux _ _ i j a) by (done || lia).
    rewrite (sum_n_ext _ _ (λ y, (c * (x y i j a * item v y))%R))
      by (intros y _; rewrite Hitem; ring).
    rewrite (sum_n_ext n (λ y, (x y j i a * item (vscale c v) y)%R)
               (λ y, (c * (x y j i a * item v y))%R))
      by (intros y _; rewrite Hitem; ring).
    rewrite !(sum_n_scale arith), Hitem. ring.
Qed.

Lemma apply_value_vadd u v :
  length u = n + no * no * nv → length v = n + no * no * nv →
  apply_value occ vir s h (vadd u v)
  = vadd (apply_value occ vir s h u) (apply_value occ vir s h v).
Proof.
  intros Hu Hv.
  assert (length (vadd u v) = n + no * no * nv) as Huv
    by (rewrite length_vadd; lia).
  apply item_ext.
  { rewrite length_vadd; rewrite !length_apply_value; done. }
  intros k _. rewrite (item_vadd arith) by (rewrite !length_apply_value; done).
  by apply apply_value_additive.
Qed.

Lemma apply_value_vscale c v :
  length v = n + no * no * nv →
  apply_value occ vir s h (vscale c v)
  = vscale c (apply_value occ vir s h v).
Proof.
  intros Hv.
  apply item_ext.
  { rewrite length_vscale, !length_apply_value; rewrite ?length_vscale; done. }
  intros k _. rewrite (item_vscale arith).
  by apply apply_value_homogeneous.
Qed.
End ApplyValue.

(** ** Calls on arrays passed by value *)

Section CallsByValue.
Context `{Scalar R}.
Variables occ vir : expression R → list bool.
Hypothesis masks : masks_ok occ vir.

Lemma mapM_fmap_Some_total {A B} (f : A → option B) (g : A → B) (l : list A) :
  (∀ x, x ∈ l → f x = Some (g x)) → mapM f l = Some (g <$> l).
Proof.
  induction l as [|x l IH]; intros Hf; [done|]. simpl.
  rewrite Hf by apply list_elem_of_here.
  rewrite IH by (intros y Hy; apply Hf; by apply list_elem_of_further).
  done.
Qed.

(** [apply_hamiltonian] on a vector of the right length returns
    [apply_value] in a new array. *)
Lemma apply_value_returned w h v :
  consistent occ vir (self w) →
  (∀ hp, _MP2.get_static_part occ vir (World (self w) hp)
         = Some (h, World (self w) hp)) →
  mshape h = (length (main_energy occ (self w)),
              length (main_energy occ (self w))) →
  length v = length (main_energy occ (self w))
             + length (nonzero (occ (self w))) * length (nonzero (occ (self w)))
               * length (nonzero (vir (self w))) →
  apply_to (_mp2_constructor occ vir) None v w
  = Some (apply_value occ vir (self w) h v).
Proof.
  intros Hcons Hstatic Hh Hv. unfold apply_to.
  rewrite run_alloc. cbn [mbind option_bind apply_hamiltonian _mp2_constructor].
  set (w1 := World (self w) (heap w ++ [v])).
  assert (_MP2.apply_hamiltonian occ vir (length (heap w)) None w1
          = _MP2.apply_hamiltonian occ vir (length (heap w)) (Some h) w1) as ->.
  { unfold _MP2.apply_hamiltonian, w1.
    rewrite (run_bind (_MP2.static_or_fresh _ _ None) _ _ _ _ (Hstatic _)).
    by rewrite (run_bind (_MP2.static_or_fresh _ _ (Some h)) _ _ _ _
                  (run_ret h _)). }
  rewrite (run_apply_hamiltonian occ vir masks w1 h _ v);
    [|done..|apply lookup_last_alloc|done].
  cbn [heap]. apply lookup_last_alloc.
Qed.

Lemma run_diagonal w h :
  length (mo_occ (self w)) = length (mo_energy (self w)) →
  _MP2.get_static_part occ vir w = Some (h, w) →
  _MP2.diagonal occ vir None w
  = Some (length (heap w),
          World (self w)
            (heap w ++ [np_diag h
                        ++ ravel3 (direct_sum_ija
                             (np_take (mo_energy (self w)) (nonzero (occ (self w))))
                             (np_take (mo_energy (self w)) (nonzero (occ (self w))))
                             (np_take (mo_energy (self w)) (nonzero (vir (self w)))))])).
Proof.
  intros Hlen Hrun. unfold _MP2.diagonal.
  rewrite (run_bind (_MP2.static_or_fresh _ _ None) _ _ _ _ Hrun).
  rewrite (run_bind _ _ _ _ _ (run_get_self w)).
  erewrite run_bind; [|apply run_lift, (getitem_mask_occ _ _ masks); done].
  erewrite run_bind; [|apply run_lift, (getitem_mask_vir _ _ masks); done].
  erewrite run_bind; [|apply run_alloc].
  by rewrite run_ret.
Qed.
End CallsByValue.

(** ** The dense operator *)

Section Dense.
Context `{Scalar R}.
Variables occ vir : expression R → list bool.
Hypothesis masks : masks_ok occ vir.
Hypothesis arith : exact_arith.
Add Ring scalar_ring_dense :
  (arith : ring_theory s_zero s_one s_add s_mul s_sub s_opp (@eq R)).

Local Abbreviation cls := (_mp2_constructor occ vir).

Lemma mitem_dense_value s h n x k :
  k < n →
  mitem (dense_value occ vir s h n) x k
  = item (apply_value occ vir s h (basis n k)) x.
Proof using Type.
  intros Hk. unfold dense_value. cbn [mitem]. f_equal.
  apply nth_lookup_Some. by rewrite list_lookup_fmap, lookup_seq_lt.
Qed.

Lemma dimension_unfold w :
  n_main cls w + n_aux cls w
  = length (main_energy occ (self w))
    + length (nonzero (occ (self w))) * length (nonzero (occ (self w)))
      * length (nonzero (vir (self w))).
Proof using Type. by rewrite <- (main_energy_length cls). Qed.

Lemma dense_run w h :
  consistent occ vir (self w) →
  (∀ hp, _MP2.get_static_part occ vir (World (self w) hp)
         = Some (h, World (self w) hp)) →
  mshape h = (length (main_energy occ (self w)),
              length (main_energy occ (self w))) →
  dense cls w
  = Some (dense_value occ vir (self w) h (n_main cls w + n_aux cls w)).
Proof using masks.
  intros Hcons Hstatic Hh. unfold dense.
  rewrite (mapM_fmap_Some_total _
             (λ k, apply_value occ vir (self w) h
                     (basis (n_main cls w + n_aux cls w) k))); [done|].
  intros k _. apply (apply_value_returned occ vir masks); try done.
  by rewrite length_basis, dimension_unfold.
Qed.

Lemma dense_matvec w h v :
  consistent occ vir (self w) →
  mshape h = (length (main_energy occ (self w)),
              length (main_energy occ (self w))) →
  length v = n_main cls w + n_aux cls w →
  apply_value occ vir (self w) h v
  = rows_dot (dense_value occ vir (self w) h (n_main cls w + n_aux cls w)) v.
Proof.
  intros (Hc & Hlen & Hx) Hh Hv.
  pose proof (dimension_unfold w) as HN.
  set (N := n_main cls w + n_aux cls w) in *.
  assert (length (apply_value occ vir (self w) h v) = N) as HF.
  { rewrite length_apply_value; (done || lia). }
  apply item_ext.
  { rewrite length_rows_dot. by cbn [dense_value mshape fst]. }
  rewrite HF. intros m Hm.
  unfold rows_dot. cbn [dense_value mshape fst].
  rewrite item_fmap_seq by lia. rewrite Hv.
  rewrite (linear_form_expansion arith N
             (λ v, item (apply_value occ vir (self w) h v) m)); [|..|done].
  - apply sum_n_ext. intros k Hk. by rewrite mitem_dense_value.
  - intros u1 u2 Hu1 Hu2. apply apply_value_additive; (done || lia).
  - intros c u Hu. apply apply_value_homogeneous; (done || lia).
Qed.

Lemma dense_diagonal w h :
  consistent occ vir (self w) →
  mshape h = (length (main_energy occ (self w)),
              length (main_energy occ (self w))) →
  np_diag h
  ++ ravel3 (direct_sum_ija
               (np_take (mo_energy (self w)) (nonzero (occ (self w))))
               (np_take (mo_energy (self w)) (nonzero (occ (self w))))
               (np_take (mo_energy (self w)) (nonzero (vir (self w)))))
  = np_diag (dense_value occ vir (self w) h (n_main cls w + n_aux cls w)).
Proof.
  intros (Hc & Hlen & Hx) Hh.
  pose proof (dimension_unfold w) as HN.
  set (N := n_main cls w + n_aux cls w) in *.
  set (n := length (main_energy occ (self w))) in *.
  set (no := length (nonzero (occ (self w)))) in *.
  set (nv := length (nonzero (vir (self w)))) in *.
  set (e_ija := direct_sum_ija _ _ _).
  assert (shape3 e_ija = (no, no, nv)) as Hse
    by (unfold e_ija; simpl; by rewrite !length_np_take).
  assert (length (np_diag h) = n) as Hdiag by (by apply length_np_diag).
  assert (length (ravel3 e_ija) = no * no * nv) as Hravel
    by (by rewrite length_ravel3, Hse).
  assert (length (np_diag (dense_value occ vir (self w) h N)) = N) as Hdense.
  { unfold np_diag. rewrite length_fmap, length_seq.
    cbn [dense_value mshape fst snd]. lia. }
  apply item_ext; [rewrite length_app; lia|].
  rewrite length_app, Hdiag, Hravel, <- HN. intros k Hk.
  assert (item (np_diag (dense_value occ vir (self w) h N)) k
          = item (apply_value occ vir (self w) h (basis N k)) k) as ->.
  { unfold np_diag. cbn [dense_value mshape fst snd].
    rewrite item_fmap_seq by lia. by apply mitem_dense_value. }
  destruct (decide (k < n)) as [Hkn|Hkn].
  - rewrite item_app_l by lia.
    unfold np_diag at 1. rewrite Hh. cbn [fst snd].
    rewrite item_fmap_seq by lia.
    rewrite (apply_value_main occ vir (self w) h Hc Hh)
      by (rewrite ?length_basis; (done || lia)).
    rewrite (sum_n_ext _ _ (λ y, (mitem h k y
                                  * (if decide (y = k) then 1 else 0))%R))
      by (intros y _; by rewrite item_basis by lia).
    rewrite (sum_n_delta arith) by done.
    rewrite (sum_n_zero arith).
    { ring. }
    intros i _. apply (sum_n_zero arith). intros j _.
    apply (sum_n_zero arith). intros a _.
    rewrite item_basis by lia. rewrite decide_False by lia. ring.
  - assert (∃ q, k = n + q) as [q ->] by (exists (k - n); lia).
    rewrite item_app_ge by lia. rewrite Hdiag.
    replace (n + q - n) with q by lia.
    destruct (nth q (ndindex3 (no, no, nv)) (0, 0, 0)) as [[i j] a] eqn:E.
    rewrite (apply_value_aux occ vir (self w) h Hc Hh _ _ i j a)
      by (rewrite ?length_basis; (done || lia)).
    unfold ravel3. rewrite Hse.
    rewrite (item_fmap _ _ (0, 0, 0)) by (rewrite length_ndindex3; lia).
    rewrite E. unfold e_ija. cbn [item3_at direct_sum_ija item3].
    rewrite !(sum_n_zero arith).
    + rewrite item_basis by lia. rewrite decide_True by done. ring.
    + intros y Hy. rewrite item_basis by lia. rewrite decide_False by lia. ring.
    + intros y Hy. rewrite item_basis by lia. rewrite decide_False by lia. ring.
Qed.
End Dense.

(** ** The exchange of occupied and virtual orbitals *)

Section Swap.
Context `{Scalar R}.

Lemma sim_bind {A B} (rel : A → A → Prop) (rel' : B → B → Prop)
    (m1 m2 : M R A) (f1 f2 : A → M R B) :
  sim R rel m1 m2 →
  (∀ a1 a2, rel a1 a2 → sim R rel' (f1 a1) (f2 a2)) →
  sim R rel' (m1 ≫= f1) (m2 ≫= f2).
Proof.
  intros Hm Hf w. specialize (Hm w). unfold mbind, M_bind.
  destruct (m2 w) as [[a2 w2]|].
  - destruct Hm as (a1 & -> & Ha). apply (Hf a1 a2 Ha w2).
  - by rewrite Hm.
Qed.

Lemma sim_ret {A} (rel : A → A → Prop) a1 a2 :
  rel a1 a2 → sim R rel (mret a1) (mret a2).
Proof. intros Ha w. simpl. eauto. Qed.

Lemma sim_lift {A} (o1 o2 : option A) : o1 = o2 → sim R eq (lift o1) (lift o2).
Proof. intros -> w. unfold lift. destruct o2; simpl; eauto. Qed.

Lemma sim_get_self : sim R (λ s1 s2, s1 = swap_expr s2) get_self get_self.
Proof. intros w. simpl. eauto. Qed.

Lemma sim_alloc v : sim R eq (np_alloc v) (np_alloc v).
Proof. intros w. simpl. eauto. Qed.

Lemma sim_load l : sim R eq (np_load l) (np_load l).
Proof. intros w. unfold np_load. simpl. destruct (heap w !! l); simpl; eauto. Qed.

Lemma sim_store l v : sim R eq (np_store l v) (np_store l v).
Proof.
  intros w. unfold np_store. simpl. case_decide; eauto.
Qed.

Lemma sim_getitem_slice l s : sim R eq (getitem_slice l s) (getitem_slice l s).
Proof.
  eapply sim_bind; [apply sim_load|]. intros ? v ->. by apply sim_ret.
Qed.

Lemma sim_inplace_slice f l s x :
  sim R eq (inplace_slice f l s x) (inplace_slice f l s x).
Proof.
  eapply sim_bind; [apply sim_load|]. intros ? v ->.
  eapply sim_bind; [by apply sim_lift|]. intros ? seg ->.
  apply sim_store.
Qed.

Lemma sim_setitem l orb x : sim R eq (setitem l orb x) (setitem l orb x).
Proof.
  eapply sim_bind; [apply sim_load|]. intros ? v ->. cbv zeta.
  repeat case_decide; first [apply sim_store | by apply sim_lift].
Qed.

Lemma sim_eq {A} (m1 m2 : M R A) w :
  sim R eq m1 m2 →
  m1 (swap_world w) = swapped (m2 w).
Proof.
  intros Hm. specialize (Hm w). destruct (m2 w) as [[a2 w2]|]; [|done].
  by destruct Hm as (a1 & -> & ->).
Qed.
End Swap.

Section SwapMethods.
Context `{Scalar R}.
Variables o1 v1 o2 v2 : expression R → list bool.
Hypothesis Ho : ∀ s, o1 (swap_expr s) = o2 s.
Hypothesis Hv : ∀ s, v1 (swap_expr s) = v2 s.

Ltac sim_step :=
  first
    [ eapply sim_bind;
      [ first [ apply sim_get_self | apply sim_getitem_slice
              | apply sim_inplace_slice | apply sim_setitem
              | apply sim_load | apply sim_alloc
              | apply sim_lift; cbn [swap_expr mo_coeff mo_energy mf_eri xija];
                rewrite ?Ho, ?Hv; reflexivity ]
      | first [ intros ? ? -> | intros ? ? <- ] ]
    | by apply sim_ret
    | apply sim_lift; cbn [swap_expr mo_coeff mo_energy mf_eri xija];
      rewrite ?Ho, ?Hv; reflexivity ].

Lemma sim_non_dyson : sim R eq (_MP2.non_dyson (R := R)) _MP2.non_dyson.
Proof.
  eapply sim_bind; [apply sim_get_self|]. intros ? s ->. by apply sim_ret.
Qed.

Lemma sim_main_block : sim R eq (_MP2.main_block o1) (_MP2.main_block o2).
Proof.
  unfold _MP2.main_block.
  eapply sim_bind; [apply sim_get_self|]. intros ? s ->.
  eapply sim_bind; [apply sim_non_dyson|]. intros ? [] ->.
  - repeat sim_step.
  - by apply sim_ret.
Qed.

Lemma sim_get_static_part :
  sim R eq (_MP2.get_static_part o1 v1) (_MP2.get_static_part o2 v2).
Proof.
  unfold _MP2.get_static_part.
  eapply sim_bind; [apply sim_main_block|]. intros ? [c e] ->.
  repeat sim_step.
Qed.

Lemma sim_static_or_fresh static :
  sim R eq (_MP2.static_or_fresh o1 v1 static) (_MP2.static_or_fresh o2 v2 static).
Proof.
  destruct static; simpl; [by apply sim_ret|apply sim_get_static_part].
Qed.

Lemma sim_apply_hamiltonian vector static :
  sim R eq (_MP2.apply_hamiltonian o1 v1 vector static)
    (_MP2.apply_hamiltonian o2 v2 vector static).
Proof.
  unfold _MP2.apply_hamiltonian.
  eapply sim_bind; [apply sim_static_or_fresh|]. intros ? h ->.
  eapply sim_bind; [apply sim_get_self|]. intros ? s ->.
  eapply sim_bind; [apply sim_non_dyson|]. intros ? nd ->.
  eapply sim_bind.
  { instantiate (1 := eq). destruct nd; [|by apply sim_ret].
    apply sim_lift. cbn [swap_expr mo_energy]. by rewrite Ho. }
  intros ? e ->. repeat sim_step.
Qed.

Lemma sim_diagonal static :
  sim R eq (_MP2.diagonal o1 v1 static) (_MP2.diagonal o2 v2 static).
Proof.
  unfold _MP2.diagonal.
  eapply sim_bind; [apply sim_static_or_fresh|]. intros ? h ->.
  repeat sim_step.
Qed.

Lemma sim_get_wavefunction orb :
  sim R eq (_MP2.get_wavefunction o1 v1 orb) (_MP2.get_wavefunction o2 v2 orb).
Proof.
  unfold _MP2.get_wavefunction.
  eapply sim_bind; [apply sim_get_self|]. intros ? s ->.
  eapply sim_bind; [apply sim_non_dyson|]. intros ? nd ->.
  rewrite Ho, Hv. repeat sim_step.
Qed.

Lemma sim_build_se_moments nmom :
  sim R eq (_MP2.build_se_moments o1 v1 nmom) (_MP2.build_se_moments o2 v2 nmom).
Proof.
  unfold _MP2.build_se_moments. repeat sim_step.
Qed.

Lemma sim_integrals :
  sim R eq (_MP2._integrals_for_hamiltonian o1 v1)
    (_MP2._integrals_for_hamiltonian o2 v2).
Proof.
  unfold _MP2._integrals_for_hamiltonian.
  eapply sim_bind; [apply sim_main_block|]. intros ? [c e] ->.
  repeat sim_step.
Qed.

Lemma sim_new eri coeff energy occupation non_dyson h :
  _MP2.__init__ o1 v1 eri coeff energy (invert_occupation occupation)
    non_dyson h
  = swap_world <$> _MP2.__init__ o2 v2 eri coeff energy occupation non_dyson h.
Proof.
  unfold _MP2.__init__.
  set (w0 := World (BaseExpression_init eri coeff energy occupation) h).
  change (World _ h) with (swap_world w0) at 1.
  rewrite (sim_eq
             (setattr_non_dyson non_dyson;;
              x ← _MP2._integrals_for_hamiltonian o1 v1; setattr_xija x)
             (setattr_non_dyson non_dyson;;
              x ← _MP2._integrals_for_hamiltonian o2 v2; setattr_xija x)).
  - match goal with
    | |- context [swapped ?r] => by destruct r as [[[] w1]|]
    end.
  - eapply sim_bind.
    { instantiate (1 := eq). intros w. simpl. eauto. }
    intros ? _ _.
    eapply sim_bind; [apply sim_integrals|]. intros ? x ->.
    intros w. simpl. eauto.
Qed.
End SwapMethods.

Section SwapClasses.
Context `{Scalar R}.

Lemma occ_positive_swap (s : expression R) :
  occ_positive (swap_expr s) = occ_zero s.
Proof.
  unfold occ_positive, occ_zero, swap_expr, invert_occupation. simpl.
  rewrite <- list_fmap_compose. apply list_fmap_ext. intros _ n _.
  unfold compose. apply bool_decide_ext. case_decide; lia.
Qed.

Lemma occ_zero_swap (s : expression R) :
  occ_zero (swap_expr s) = occ_positive s.
Proof.
  unfold occ_positive, occ_zero, swap_expr, invert_occupation. simpl.
  rewrite <- list_fmap_compose. apply list_fmap_ext. intros _ n _.
  unfold compose. apply bool_decide_ext. case_decide; lia.
Qed.

End SwapClasses.

(** ** Running [build_se_moments] *)

Section Moments.
Context `{Scalar R}.
Variables occ vir : expression R → list bool.
Hypothesis masks : masks_ok occ vir.

Local Abbreviation loop_body xija eo ev n :=
  (λ (tn : moment R) (i : nat),
     vl ← getitem_axis1 xija i;
     xji ← getitem_axis2 xija i;
     vr ← tensor3_zip s_sub (tensor3_map (s_mul (s_add s_one s_one)) vl) xji;
     m ← einsum_xja_yja_ja_xy vl vr
           (matrix_map (λ z, s_pow z n)
              (matrix_map (s_add (item eo i)) (direct_sum_ja eo ev)));
     moment_iadd tn m).

Lemma for_fold_cons {A B} (body : B → A → option B) x l b :
  for_fold body (x :: l) b = body b x ≫= for_fold body l.
Proof. done. Qed.

Section Loop.
Variable s : expression R.
Hypothesis Hc : (mshape (mo_coeff s)).2 = length (mo_energy s).

Local Abbreviation eo := (np_take (mo_energy s) (nonzero (occ s))).
Local Abbreviation ev := (np_take (mo_energy s) (nonzero (vir s))).
Local Abbreviation no := (length (nonzero (occ s))).

Lemma loop_first n :
  0 < no →
  loop_body (integrals_of occ vir s) eo ev n (Number s_zero) 0
  = Some (Array2 (moment_sum occ vir s n 1)).
Proof.
  intros Hno. cbv beta.
  unfold getitem_axis1, getitem_axis2.
  rewrite (shape4_integrals_of occ vir s Hc).
  rewrite !decide_True by done. cbn [mbind option_bind].
  unfold tensor3_zip. cbn [tensor3_map shape3]. rewrite decide_True by done.
  cbn [mbind option_bind]. unfold einsum_xja_yja_ja_xy. cbn [shape3].
  rewrite decide_True.
  2:{ split; [done|]. cbn [matrix_map mshape direct_sum_ja].
      by rewrite !length_np_take. }
  done.
Qed.

Lemma loop_next n k :
  0 < k → k < no →
  loop_body (integrals_of occ vir s) eo ev n (Array2 (moment_sum occ vir s n k)) k
  = Some (Array2 (moment_sum occ vir s n (S k))).
Proof.
  intros Hk Hno. cbv beta.
  unfold getitem_axis1, getitem_axis2.
  rewrite (shape4_integrals_of occ vir s Hc).
  rewrite !decide_True by done. cbn [mbind option_bind].
  unfold tensor3_zip. cbn [tensor3_map shape3]. rewrite decide_True by done.
  cbn [mbind option_bind]. unfold einsum_xja_yja_ja_xy. cbn [shape3].
  rewrite decide_True.
  2:{ split; [done|]. cbn [matrix_map mshape direct_sum_ja].
      by rewrite !length_np_take. }
  cbn [mbind option_bind moment_iadd]. unfold matrix_iadd.
  rewrite decide_True by done. done.
Qed.

Lemma loop_rest n len k :
  0 < k → k + len ≤ no →
  for_fold (loop_body (integrals_of occ vir s) eo ev n) (seq k len)
    (Array2 (moment_sum occ vir s n k))
  = Some (Array2 (moment_sum occ vir s n (k + len))).
Proof.
  revert k. induction len as [|len IH]; intros k Hk Hlen.
  - by rewrite Nat.add_0_r.
  - rewrite <- cons_seq, for_fold_cons, loop_next by lia.
    cbn [mbind option_bind]. rewrite IH by lia. do 3 f_equal. lia.
Qed.

Lemma loop_all n :
  for_fold (loop_body (integrals_of occ vir s) eo ev n) (seq 0 no)
    (Number s_zero)
  = Some (if decide (no = 0) then Number s_zero
          else Array2 (moment_sum occ vir s n no)).
Proof.
  destruct no as [|k] eqn:Hno; [done|].
  rewrite decide_False by done.
  rewrite <- cons_seq, for_fold_cons, loop_first by lia.
  cbn [mbind option_bind]. by rewrite (loop_rest n k 1) by lia.
Qed.
End Loop.

Lemma run_build_se_moments w nmom :
  consistent occ vir (self w) →
  _MP2.build_se_moments occ vir nmom w
  = Some ((λ n, if decide (length (nonzero (occ (self w))) = 0)
                then Number s_zero
                else Array2 (moment_sum occ vir (self w) n
                               (length (nonzero (occ (self w))))))
            <$> seq 0 nmom, w).
Proof.
  intros (Hc & Hlen & Hx). unfold _MP2.build_se_moments.
  rewrite (run_bind _ _ _ _ _ (run_get_self w)).
  erewrite run_bind; [|apply run_lift, (getitem_mask_occ _ _ masks); done].
  erewrite run_bind; [|apply run_lift, (getitem_mask_vir _ _ masks); done].
  erewrite run_bind; [|apply run_lift, Hx].
  apply run_lift. rewrite length_np_take.
  apply mapM_fmap_Some_total. intros n _. by apply loop_all.
Qed.
End Moments.

Section MomentFormula.
Context `{Scalar R}.
Hypothesis arith : exact_arith.
Add Ring scalar_ring_moments :
  (arith : ring_theory s_zero s_one s_add s_mul s_sub s_opp (@eq R)).
Local Open Scope scalar_scope.

Lemma moment_sum_formula (occ vir : expression R → list bool) s n k x y :
  mitem (moment_sum occ vir s n k) x y
  = sum_n k (λ i,
      sum_n (length (nonzero (occ s))) (λ j,
        sum_n (length (nonzero (vir s))) (λ a,
          item4 (integrals_of occ vir s) x i j a
          * (2 * item4 (integrals_of occ vir s) y i j a
             - item4 (integrals_of occ vir s) y j i a)
          * s_pow (item (np_take (mo_energy s) (nonzero (occ s))) i
                   + item (np_take (mo_energy s) (nonzero (occ s))) j
                   - item (np_take (mo_energy s) (nonzero (vir s))) a) n))).
Proof.
  unfold moment_sum, moment_term. cbn [mitem].
  apply sum3_ext. intros i j a. do 2 f_equal. ring.
Qed.
End MomentFormula.

(** * The claims *)

Section Claims.
Context `{Scalar R}.


(** C6.  Setting [non_dyson] to the opposite value and back succeeds and
    leaves the cached tensor [xija], indeed the whole object, equal to
    what it was before the two assignments. *)
Theorem non_dyson_round_trip key (cls : mp2_class R) w :
  MP2 !! key = Some cls →
  mp2_expression cls w →
  ∃ w1 w2 x,
    set_non_dyson cls (negb (_non_dyson (self w))) w = Some (tt, w1) ∧
    set_non_dyson cls (_non_dyson (self w)) w1 = Some (tt, w2) ∧
    xija (self w) = Some x ∧ xija (self w2) = Some x ∧ w2 = w.
Proof.
  intros [Hmasks Hcls]%MP2_masks Hexpr. rewrite Hcls in Hexpr |- *.
  apply expression_consistent in Hexpr as (Hc & Hlen & Hx); [|done].
  simpl. set (flag := _non_dyson (self w)).
  assert (negb flag ≠ flag) as Hne by (by destruct flag).
  assert (with_mode (self w) flag (xija (self w)) = self w) as Hself
    by (by destruct w as [[] ?]).
  eexists _, _, _. split; [by apply run_set_non_dyson|].
  fold flag. rewrite decide_True by done.
  split; [by apply run_set_non_dyson|]. simpl.
  rewrite decide_True by done.
  split; [done|].
  change (with_mode (with_mode (self w) (negb flag) _) flag None)
    with (with_mode (self w) flag None).
  rewrite <- (integrals_of_with_mode _ _ Hmasks (self w) flag (xija (self w))).
  rewrite Hself. split; [done|].
  destruct w as [s hp]. simpl in *. f_equal.
  rewrite <- Hx. exact Hself.
Qed.

(** C8.  On every expression [get_static_part()] returns a matrix [s],
    and passing [static=s] to [apply_hamiltonian] or to [diagonal]
    gives the same outcome as leaving [static] out. *)
Theorem static_argument_reused key (cls : mp2_class R) w :
  MP2 !! key = Some cls →
  mp2_expression cls w →
  ∃ s, get_static_part cls w = Some (s, w) ∧
       (∀ vector, apply_hamiltonian cls vector (Some s) w
                  = apply_hamiltonian cls vector None w) ∧
       diagonal cls (Some s) w = diagonal cls None w.
Proof.
  intros [Hmasks Hcls]%MP2_masks Hexpr. rewrite Hcls in Hexpr |- *.
  apply expression_consistent in Hexpr as (Hc & Hlen & _); [|done].
  destruct (run_get_static_part _ _ Hmasks w Hc Hlen) as (s & Hrun & _).
  exists s. simpl. split; [done|]. split; [intros vector|].
  - unfold _MP2.apply_hamiltonian.
    rewrite (run_bind _ _ _ _ _ (run_ret s w)).
    by rewrite (run_bind (_MP2.static_or_fresh _ _ None) _ _ _ _ Hrun).
  - unfold _MP2.diagonal.
    rewrite (run_bind _ _ _ _ _ (run_ret s w)).
    by rewrite (run_bind (_MP2.static_or_fresh _ _ None) _ _ _ _ Hrun).
Qed.

(** C10.  A call of [apply_hamiltonian], [diagonal], [get_wavefunction]
    or [build_se_moments] leaves [self], so the flag and the cached
    [xija], as it was, leaves every array that existed before the call,
    so the input vector, as it was, and returns a fresh array. *)
Theorem reads_do_not_mutate key (cls : mp2_class R) c w result w' :
  MP2 !! key = Some cls →
  call_read cls c w = Some (result, w') →
  self w' = self w ∧
  (∀ l v, heap w !! l = Some v → heap w' !! l = Some v) ∧
  (∀ r, result = Some r → heap w !! r = None).
Proof.
  intros [_ Hcls]%MP2_masks Hrun. rewrite Hcls in Hrun.
  assert (framed R (length (heap w))
            (λ res, ∀ r, res = Some r → length (heap w) ≤ r)
            (call_read (_mp2_constructor (occ cls) (vir cls)) c)) as Hframe.
  { destruct c; simpl.
    - eapply framed_bind; [apply framed_apply_hamiltonian|].
      intros r Hr. apply framed_ret. by intros ? [= <-].
    - eapply framed_bind; [apply framed_diagonal|].
      intros r Hr. apply framed_ret. by intros ? [= <-].
    - eapply framed_bind; [apply framed_get_wavefunction|].
      intros r Hr. apply framed_ret. by intros ? [= <-].
    - eapply framed_bind; [apply framed_build_se_moments|].
      intros _ _. by apply framed_ret. }
  destruct (Hframe w result w') as (Hres & Hself & _ & Hheap); [done..|].
  split; [done|]. split.
  - intros l v Hl. rewrite Hheap; [done|]. by eapply lookup_lt_Some.
  - intros r Hr. apply lookup_ge_None. auto.
Qed.


(** C7.  For a main-orbital index [0 <= orb < n_main],
    [get_wavefunction(orb)] returns a fresh vector of length
    [n_main + n_occ * n_occ * n_vir] with 1 at index [orb] and 0 at every
    other index. *)
Theorem get_wavefunction_one_hot key (cls : mp2_class R) w orb :
  MP2 !! key = Some cls →
  mp2_expression cls w →
  (0 ≤ orb < Z.of_nat (n_main cls w))%Z →
  ∃ r w' v,
    get_wavefunction cls orb w = Some (r, w') ∧
    heap w' !! r = Some v ∧
    length v = n_main cls w + n_occ cls w * n_occ cls w * n_vir cls w ∧
    ∀ k, k < length v →
         v !! k = Some (if decide (k = Z.to_nat orb) then 1%R else 0%R).
Proof.
  intros Hkey Hexpr Horb.
  destruct (MP2_masks _ _ Hkey) as [Hmasks Hcls].
  destruct (MP2_methods _ _ Hkey) as (_ & _ & _ & Hwave & _).
  rewrite Hcls in Hexpr.
  apply expression_consistent in Hexpr as (Hc & Hlen & _); [|done].
  set (n := n_main cls w + n_occ cls w * n_occ cls w * n_vir cls w).
  assert ((if _non_dyson (self w) then np_sum_mask (occ cls (self w))
           else np_sum_mask (occ cls (self w)) + np_sum_mask (vir cls (self w)))
          + np_sum_mask (occ cls (self w)) * np_sum_mask (occ cls (self w))
            * np_sum_mask (vir cls (self w)) = n) as Hn.
  { unfold n, n_main, n_occ, n_vir. destruct (_non_dyson (self w)); [done|].
    by rewrite (occ_vir_partition _ _ Hmasks), Hlen. }
  assert (Z.to_nat orb < n) as Hk by (unfold n; lia).
  exists (length (heap w)),
    (World (self w) (heap w ++ [<[Z.to_nat orb := 1%R]> (np_zeros n)])),
    (<[Z.to_nat orb := 1%R]> (np_zeros n)).
  split; [|split; [|split]].
  - rewrite Hwave. unfold _MP2.get_wavefunction.
    rewrite (run_bind _ _ _ _ _ (run_get_self w)).
    erewrite run_bind; [|reflexivity]. simpl.
    rewrite Hn.
    erewrite run_bind; [|apply run_alloc].
    erewrite run_bind.
    2:{ apply (run_setitem _ _ _ (np_zeros n)).
        - simpl. by rewrite lookup_app_r, Nat.sub_diag.
        - unfold np_zeros. rewrite length_replicate. lia. }
    rewrite run_ret. simpl. do 2 f_equal.
    rewrite insert_app_r_alt, Nat.sub_diag by done. done.
  - simpl. by rewrite lookup_app_r, Nat.sub_diag.
  - unfold np_zeros. by rewrite length_insert, length_replicate.
  - intros k. unfold np_zeros. rewrite length_insert, length_replicate.
    intros Hkn. rewrite list_lookup_insert by (by rewrite length_replicate).
    case_decide as Hd.
    + rewrite decide_True by (by destruct Hd). done.
    + rewrite lookup_replicate_2 by done.
      rewrite decide_False; [done|]. intros ->. apply Hd. by rewrite length_replicate.
Qed.

(** C1.  In exact arithmetic, applying [apply_hamiltonian] to every
    standard basis vector gives a dense [N x N] operator [H], with
    [N = n_main + n_aux], and on every vector [v] of length [N] the call
    [apply_hamiltonian(v)] returns the matrix-vector product
    [np.dot(H, v)].  Equivalently [apply_hamiltonian] is linear: it maps
    [u + v] to the sum of the results and [c * v] to [c] times the
    result. *)
Theorem apply_hamiltonian_is_dense_operator key (cls : mp2_class R) w :
  exact_arith →
  MP2 !! key = Some cls →
  mp2_expression cls w →
  ∃ H, dense cls w = Some H ∧
       mshape H = (n_main cls w + n_aux cls w, n_main cls w + n_aux cls w) ∧
       ∀ v, length v = n_main cls w + n_aux cls w →
            ∃ r, apply_to cls None v w = Some r ∧
                 np_dot H v = Some r ∧
                 (∀ c, apply_to cls None (vscale c v) w = Some (vscale c r)) ∧
                 ∀ u, length u = n_main cls w + n_aux cls w →
                      ∃ r', apply_to cls None u w = Some r' ∧
                            apply_to cls None (vadd u v) w
                            = Some (vadd r' r).
Proof.
  intros arith Hkey Hexpr.
  assert (∃ o v, masks_ok o v ∧ cls = _mp2_constructor o v)
    as (o & vi & Hmasks & ->).
  { apply MP2_lookup in Hkey as [-> | ->];
      eauto using masks_ok_1h, masks_ok_1p. }
  pose proof (expression_consistent o vi w Hmasks Hexpr) as Hcons.
  destruct Hcons as (Hc & Hlen & Hx).
  destruct (static_part_exists o vi Hmasks (self w) Hc Hlen)
    as (h & Hstatic & Hh).
  pose proof (dimension_unfold o vi w) as HN.
  assert (Hret : ∀ v, length v = n_main (_mp2_constructor o vi) w
                                 + n_aux (_mp2_constructor o vi) w →
            apply_to (_mp2_constructor o vi) None v w
            = Some (apply_value o vi (self w) h v)).
  { intros v Hv. apply apply_value_returned; try done. by rewrite <- HN. }
  eexists. split; [by apply dense_run|]. split; [done|].
  intros v Hv. exists (apply_value o vi (self w) h v).
  split; [by apply Hret|]. split; [|split].
  - unfold np_dot. rewrite decide_True by done.
    f_equal. symmetry. by apply dense_matvec.
  - intros c. rewrite Hret by (by rewrite length_vscale).
    f_equal. apply apply_value_vscale; (done || lia).
  - intros u Hu. exists (apply_value o vi (self w) h u).
    split; [by apply Hret|].
    rewrite Hret by (rewrite length_vadd; lia).
    f_equal. apply apply_value_vadd; (done || lia).
Qed.


(** C9.  [MP2_1h] and [MP2_1p] are the one constructor applied to the two
    masks in either order, and every public operation of [MP2_1p], as
    well as its constructor, does on an orbital input what the same
    operation of [MP2_1h] does on the input with the occupied and the
    virtual orbitals exchanged. *)
Theorem particle_variant_is_hole_variant_exchanged :
  MP2_1h = _mp2_constructor occ_positive occ_zero ∧
  MP2_1p = _mp2_constructor (R := R) occ_zero occ_positive ∧
  (∀ eri coeff energy occupation non_dyson h,
     __init__ MP2_1h eri coeff energy (invert_occupation occupation)
       non_dyson h
     = swap_world <$> __init__ MP2_1p eri coeff energy occupation
                        non_dyson h) ∧
  ∀ w,
    get_static_part MP2_1h (swap_world w)
    = swapped (get_static_part MP2_1p w) ∧
    (∀ vector static,
       apply_hamiltonian MP2_1h vector static (swap_world w)
       = swapped (apply_hamiltonian MP2_1p vector static w)) ∧
    (∀ static,
       diagonal MP2_1h static (swap_world w)
       = swapped (diagonal MP2_1p static w)) ∧
    (∀ orb,
       get_wavefunction MP2_1h orb (swap_world w)
       = swapped (get_wavefunction MP2_1p orb w)) ∧
    (∀ nmom,
       build_se_moments MP2_1h nmom (swap_world w)
       = swapped (build_se_moments MP2_1p nmom w)).
Proof.
  split; [done|]. split; [done|]. split.
  { intros. apply sim_new; auto using occ_positive_swap, occ_zero_swap. }
  intros w. split_and!; intros; apply sim_eq.
  - apply sim_get_static_part; auto using occ_positive_swap, occ_zero_swap.
  - apply sim_apply_hamiltonian; auto using occ_positive_swap, occ_zero_swap.
  - apply sim_diagonal; auto using occ_positive_swap, occ_zero_swap.
  - apply sim_get_wavefunction; auto using occ_positive_swap, occ_zero_swap.
  - apply sim_build_se_moments; auto using occ_positive_swap, occ_zero_swap.
Qed.

(** With at least one occupied orbital, and in exact arithmetic,
    [build_se_moments(nmom)] returns [nmom] matrices over the main block;
    entry [(p, q)] of the [n]-th is the sum over [i], [j], [a] of
    [xija[p,i,j,a] * (2 xija[q,i,j,a] - xija[q,j,i,a])
     * (e_i + e_j - e_a) ** n]. *)
Lemma build_se_moments_with_occupied key (cls : mp2_class R) w nmom :
  exact_arith →
  MP2 !! key = Some cls →
  mp2_expression cls w →
  0 < n_occ cls w →
  ∃ x ms,
    xija (self w) = Some x ∧
    build_se_moments cls nmom w = Some (Array2 <$> ms, w) ∧
    length ms = nmom ∧
    ∀ n m, ms !! n = Some m →
      mshape m = (n_main cls w, n_main cls w) ∧
      ∀ p q,
        mitem m p q
        = sum_n (n_occ cls w) (λ i,
            sum_n (n_occ cls w) (λ j,
              sum_n (n_vir cls w) (λ a,
                (item4 x p i j a
                 * (2 * item4 x q i j a - item4 x q j i a)
                 * s_pow (item (occupied_energies cls w) i
                          + item (occupied_energies cls w) j
                          - item (virtual_energies cls w) a) n)%R))).
Proof.
  intros arith Hkey Hexpr Hocc.
  assert (∃ o v, masks_ok o v ∧ cls = _mp2_constructor o v)
    as (o & vi & Hmasks & ->).
  { apply MP2_lookup in Hkey as [-> | ->];
      eauto using masks_ok_1h, masks_ok_1p. }
  pose proof (expression_consistent o vi w Hmasks Hexpr) as Hcons.
  pose proof Hcons as (Hc & Hlen & Hx).
  exists (integrals_of o vi (self w)),
    ((λ n, moment_sum o vi (self w) n (length (nonzero (o (self w)))))
       <$> seq 0 nmom).
  split; [done|]. split; [|split].
  - cbn [build_se_moments _mp2_constructor].
    rewrite (run_build_se_moments o vi Hmasks w nmom Hcons).
    destruct (decide (length (nonzero (o (self w))) = 0%nat)) as [Hno|_].
    { unfold n_occ, np_sum_mask in Hocc. simpl in Hocc. lia. }
    by rewrite <- list_fmap_compose.
  - by rewrite length_fmap, length_seq.
  - intros n m. rewrite list_lookup_fmap.
    destruct (seq 0 nmom !! n) as [n'|] eqn:Hn; [|done].
    apply lookup_seq in Hn as [-> _]. simpl. intros [= <-].
    split.
    + cbn [moment_sum mshape]. by rewrite (main_energy_length (_mp2_constructor o vi)).
    + intros p q. apply (moment_sum_formula arith).
Qed.

(** Without an occupied orbital the accumulator is never added to:
    every moment is the number it was initialized to. *)
Lemma build_se_moments_without_occupied key (cls : mp2_class R) w nmom :
  MP2 !! key = Some cls →
  mp2_expression cls w →
  n_occ cls w = 0 →
  build_se_moments cls nmom w = Some (replicate nmom (Number 0%R), w).
Proof.
  intros Hkey Hexpr Hocc.
  assert (∃ o v, masks_ok o v ∧ cls = _mp2_constructor o v)
    as (o & vi & Hmasks & ->).
  { apply MP2_lookup in Hkey as [-> | ->];
      eauto using masks_ok_1h, masks_ok_1p. }
  pose proof (expression_consistent o vi w Hmasks Hexpr) as Hcons.
  cbn [build_se_moments _mp2_constructor].
  rewrite (run_build_se_moments o vi Hmasks w nmom Hcons).
  destruct (decide (length (nonzero (o (self w))) = 0%nat)) as [_|Hno];
    [|done].
  do 2 f_equal. generalize 0%nat at 1. induction nmom as [|nmom IH]; intros k; [done|].
  simpl. f_equal. apply IH.
Qed.
End Claims.

(** * The claims on concrete expressions *)

(** C3.  On the helium expression of class [MP2_1p], one main orbital and
    nothing in the occupied role, [build_se_moments(2)] returns the two
    numbers [0], not two [1 x 1] matrices. *)
Theorem build_se_moments_helium_numbers :
  mp2_expression MP2_1p Scenario.helium ∧
  n_main MP2_1p Scenario.helium = 1 ∧
  n_occ MP2_1p Scenario.helium = 0 ∧
  build_se_moments MP2_1p 2 Scenario.helium
  = Some ([Number 0%Z; Number 0%Z], Scenario.helium).
Proof.
  split; [|by split_and!].
  apply (expression_new MP2_1p Scenario.eri Scenario.helium_coeff
           Scenario.helium_energy Scenario.helium_occupation false []);
    [split; reflexivity|reflexivity].
Qed.

(** ** The claims on the numbers of the program

    On [binary64] a vanishing denominator [e_x - e_a + e_j - e_b] puts an
    infinity or a NaN into the static part, and the laws of exact
    arithmetic that the theorems above assume are gone: [inf * 0] is NaN,
    not [0], and a NaN compares unequal to itself. *)

Lemma four_is_expression `{Scalar R} :
  mp2_expression MP2_1h (Orbitals.four (R := R)).
Proof.
  apply (expression_new MP2_1h Orbitals.ones (Orbitals.identity 4)
           Orbitals.four_energy Orbitals.four_occupation false []);
    [split; reflexivity|reflexivity].
Defined.

Lemma three_is_expression `{Scalar R} (eri : nat → nat → nat → nat → R) :
  mp2_expression MP2_1h (Orbitals.three eri).
Proof.
  apply (expression_new MP2_1h eri (Orbitals.identity 3)
           Orbitals.three_energy Orbitals.three_occupation false []);
    [split; reflexivity|reflexivity].
Defined.

(** C1, as stated, fails on the program.  On the [MP2_1h] expression with
    orbital energies [-1, 1, 3], occupations [2, 0, 0], identity
    coefficients and integrals all one, in [binary64]:
    [apply_hamiltonian([1, 1, 1, 0, 0])] is [[inf, inf, inf, 3, 3]], while
    the product of the dense operator, materialised from the basis
    vectors, with that vector is [[nan, nan, nan, 3, 3]].  So
    [apply_hamiltonian(v)] is not [np.dot(H, v)]. *)
Theorem apply_hamiltonian_differs_from_dense_operator :
  mp2_expression MP2_1h Binary64.degenerate ∧
  length Binary64.vector
  = n_main MP2_1h Binary64.degenerate + n_aux MP2_1h Binary64.degenerate ∧
  Binary64.classes
    (apply_to MP2_1h None Binary64.vector Binary64.degenerate)
  = Some [FloatClass.PInf; FloatClass.PInf; FloatClass.PInf;
          FloatClass.PNormal; FloatClass.PNormal] ∧
  Binary64.classes
    (H ← dense MP2_1h Binary64.degenerate; np_dot H Binary64.vector)
  = Some [FloatClass.NaN; FloatClass.NaN; FloatClass.NaN;
          FloatClass.PNormal; FloatClass.PNormal] ∧
  ∀ H r, dense MP2_1h Binary64.degenerate = Some H →
         apply_to MP2_1h None Binary64.vector Binary64.degenerate = Some r →
         np_dot H Binary64.vector ≠ Some r.
Proof.
  assert (Binary64.classes
            (apply_to MP2_1h None Binary64.vector Binary64.degenerate)
          = Some [FloatClass.PInf; FloatClass.PInf; FloatClass.PInf;
                  FloatClass.PNormal; FloatClass.PNormal]) as Happly
    by (vm_compute; reflexivity).
  assert (Binary64.classes
            (H ← dense MP2_1h Binary64.degenerate; np_dot H Binary64.vector)
          = Some [FloatClass.NaN; FloatClass.NaN; FloatClass.NaN;
                  FloatClass.PNormal; FloatClass.PNormal]) as Hdense
    by (vm_compute; reflexivity).
  split; [exact (three_is_expression Orbitals.ones)|].
  split; [reflexivity|]. split; [exact Happly|]. split; [exact Hdense|].
  intros H r EH Er Edot.
  rewrite Er in Happly. rewrite EH in Hdense.
  cbn [mbind option_bind] in Hdense. rewrite Edot in Hdense.
  unfold Binary64.classes in Happly, Hdense.
  cbn [fmap option_fmap option_map] in Happly, Hdense. congruence.
Qed.



(** ** The theorems on the expression of two occupied and two virtual
       orbitals *)

Lemma hole_is_expression : mp2_expression MP2_1h Scenario.hole.
Proof.
  apply (expression_new MP2_1h Scenario.eri Scenario.coeff Scenario.energy
           Scenario.occupation false []); [split; reflexivity|reflexivity].
Defined.

Lemma apply_hamiltonian_is_dense_operator_witness :
  ∃ H, dense MP2_1h Rational.four = Some H ∧
       mshape H = (12, 12) ∧
       ∀ v, length v = 12 →
            ∃ r, apply_to MP2_1h None v Rational.four = Some r ∧
                 np_dot H v = Some r ∧
                 (∀ c, apply_to MP2_1h None (vscale c v) Rational.four
                       = Some (vscale c r)) ∧
                 ∀ u, length u = 12 →
                      ∃ r', apply_to MP2_1h None u Rational.four = Some r' ∧
                            apply_to MP2_1h None (vadd u v) Rational.four
                            = Some (vadd r' r).
Proof.
  apply (apply_hamiltonian_is_dense_operator "1h" MP2_1h Rational.four
           Qc_exact).
  - reflexivity.
  - exact four_is_expression.
Defined.


Lemma get_wavefunction_one_hot_witness :
  ∃ r w' v,
    get_wavefunction MP2_1h 0 Scenario.hole = Some (r, w') ∧
    heap w' !! r = Some v ∧
    length v = n_main MP2_1h Scenario.hole
               + n_occ MP2_1h Scenario.hole * n_occ MP2_1h Scenario.hole
                 * n_vir MP2_1h Scenario.hole ∧
    ∀ k, k < length v →
         v !! k = Some (if decide (k = Z.to_nat 0) then 1%R else 0%R).
Proof.
  apply (get_wavefunction_one_hot "1h" MP2_1h Scenario.hole 0).
  - reflexivity.
  - exact hole_is_expression.
  - change (n_main MP2_1h Scenario.hole) with 4. lia.
Defined.

Lemma reads_do_not_mutate_witness :
  ∃ result w',
    call_read MP2_1h (Call_apply_hamiltonian 0 None) Scenario.hole_with_vector
    = Some (result, w') ∧
    self w' = self Scenario.hole_with_vector ∧
    (∀ l v, heap Scenario.hole_with_vector !! l = Some v →
            heap w' !! l = Some v) ∧
    (∀ r, result = Some r → heap Scenario.hole_with_vector !! r = None).
Proof.
  eexists _, _. split; [reflexivity|].
  apply (reads_do_not_mutate "1h" MP2_1h (Call_apply_hamiltonian 0 None)
           Scenario.hole_with_vector).
  - reflexivity.
  - reflexivity.
Defined.



Lemma non_dyson_round_trip_witness :
  ∃ w1 w2 x,
    set_non_dyson MP2_1h (negb (_non_dyson (self Scenario.hole))) Scenario.hole
    = Some (tt, w1) ∧
    set_non_dyson MP2_1h (_non_dyson (self Scenario.hole)) w1 = Some (tt, w2) ∧
    xija (self Scenario.hole) = Some x ∧ xija (self w2) = Some x ∧
    w2 = Scenario.hole.
Proof.
  apply (non_dyson_round_trip "1h" MP2_1h Scenario.hole).
  - reflexivity.
  - exact hole_is_expression.
Defined.

Lemma static_argument_reused_witness :
  ∃ s, get_static_part MP2_1h Scenario.hole = Some (s, Scenario.hole) ∧
       (∀ vector, apply_hamiltonian MP2_1h vector (Some s) Scenario.hole
                  = apply_hamiltonian MP2_1h vector None Scenario.hole) ∧
       diagonal MP2_1h (Some s) Scenario.hole
       = diagonal MP2_1h None Scenario.hole.
Proof.
  apply (static_argument_reused "1h" MP2_1h Scenario.hole).
  - reflexivity.
  - exact hole_is_expression.
Defined.

(** * Further properties *)

(** ** Calls that raise *)

Section Outcomes.
Context `{Scalar R}.

Lemma run_bind_None {A B} (m : M R A) (f : A → M R B) w :
  m w = None → (m ≫= f) w = None.
Proof. unfold mbind, M_bind. by intros ->. Qed.

Lemma run_setitem_negative (l : loc) (orb : Z) (x : R) (v : list R) (w : world R) :
  heap w !! l = Some v →
  (- Z.of_nat (length v) ≤ orb < 0)%Z →
  setitem l orb x w
  = Some (tt, World (self w)
                (<[l := <[Z.to_nat (Z.of_nat (length v) + orb) := x]> v]> (heap w))).
Proof.
  intros Hl Horb. unfold setitem.
  rewrite (run_bind _ _ _ _ _ (run_load l v w Hl)). cbv zeta.
  rewrite decide_False by lia. rewrite decide_True by done.
  apply run_store. by eapply lookup_lt_Some.
Qed.

Lemma run_setitem_IndexError (l : loc) (orb : Z) (x : R) (v : list R) (w : world R) :
  heap w !! l = Some v →
  (orb < - Z.of_nat (length v) ∨ Z.of_nat (length v) ≤ orb)%Z →
  setitem l orb x w = None.
Proof.
  intros Hl Horb. unfold setitem.
  rewrite (run_bind _ _ _ _ _ (run_load l v w Hl)). cbv zeta.
  rewrite !decide_False by lia. done.
Qed.
End Outcomes.

Section Wavefunction.
Context `{Scalar R}.
Variables occ vir : expression R → list bool.
Hypothesis masks : masks_ok occ vir.

Local Abbreviation cls := (_mp2_constructor occ vir).

Lemma wavefunction_length w :
  length (mo_occ (self w)) = length (mo_energy (self w)) →
  (if _non_dyson (self w) then np_sum_mask (occ (self w))
   else np_sum_mask (occ (self w)) + np_sum_mask (vir (self w)))
  + np_sum_mask (occ (self w)) * np_sum_mask (occ (self w))
    * np_sum_mask (vir (self w))
  = n_main cls w + n_aux cls w.
Proof.
  intros Hlen. unfold n_main, n_aux, n_occ, n_vir. simpl.
  destruct (_non_dyson (self w)); [done|].
  by rewrite (occ_vir_partition _ _ masks), Hlen.
Qed.

Lemma run_get_wavefunction w orb :
  length (mo_occ (self w)) = length (mo_energy (self w)) →
  _MP2.get_wavefunction occ vir orb w
  = if decide (- Z.of_nat (n_main cls w + n_aux cls w) ≤ orb
               < Z.of_nat (n_main cls w + n_aux cls w))%Z
    then Some (length (heap w),
               World (self w)
                 (heap w ++ [basis (n_main cls w + n_aux cls w)
                               (Z.to_nat (orb `mod`
                                  Z.of_nat (n_main cls w + n_aux cls w)))]))
    else None.
Proof.
  intros Hlen. unfold _MP2.get_wavefunction.
  rewrite (run_bind _ _ _ _ _ (run_get_self w)).
  erewrite run_bind; [|reflexivity]. cbv zeta.
  rewrite (wavefunction_length w Hlen).
  set (N := n_main cls w + n_aux cls w).
  erewrite run_bind; [|apply run_alloc].
  assert (length (np_zeros (R := R) N) = N) as HN by apply length_np_zeros.
  case_decide as Horb.
  - destruct (decide (0 ≤ orb)%Z) as [Hpos|Hneg].
    + erewrite run_bind.
      2:{ apply (run_setitem _ _ _ (np_zeros N)).
          - cbn [heap]. apply lookup_last_alloc.
          - rewrite HN. lia. }
      rewrite run_ret. cbn [self heap]. rewrite insert_last_alloc.
      rewrite Z.mod_small by lia. done.
    + erewrite run_bind.
      2:{ apply (run_setitem_negative _ _ _ (np_zeros N)).
          - cbn [heap]. apply lookup_last_alloc.
          - rewrite HN. lia. }
      rewrite run_ret. cbn [self heap]. rewrite insert_last_alloc, HN.
      replace (orb `mod` Z.of_nat N)%Z with (Z.of_nat N + orb)%Z; [done|].
      apply (Z.mod_unique _ _ (-1)); lia.
  - apply run_bind_None.
    apply (run_setitem_IndexError _ _ _ (np_zeros N)).
    + cbn [heap]. apply lookup_last_alloc.
    + rewrite HN. lia.
Qed.
End Wavefunction.

Section ApplyShape.
Context `{Scalar R}.
Variables occ vir : expression R → list bool.
Hypothesis masks : masks_ok occ vir.

(** A vector of another length than [n_main + n_aux] makes
    [apply_hamiltonian] raise: a shorter main part fails in [np.dot], any
    other auxiliary part in [reshape]. *)
Lemma run_apply_hamiltonian_ValueError w h vector v :
  consistent occ vir (self w) →
  mshape h = (length (main_energy occ (self w)), length (main_energy occ (self w))) →
  heap w !! vector = Some v →
  length v ≠ length (main_energy occ (self w))
             + length (nonzero (occ (self w))) * length (nonzero (occ (self w)))
               * length (nonzero (vir (self w))) →
  _MP2.apply_hamiltonian occ vir vector (Some h) w = None.
Proof.
  intros (Hc & Hlen & Hx) Hh Hv Hlv. unfold _MP2.apply_hamiltonian.
  rewrite (run_bind _ _ _ _ _ (run_ret h w)).
  rewrite (run_bind _ _ _ _ _ (run_get_self w)).
  erewrite run_bind; [|reflexivity].
  erewrite (run_bind _ _ _ (main_energy occ (self w))).
  2:{ unfold main_energy. destruct (_non_dyson (self w)); [|done].
      apply run_lift, (getitem_mask_occ _ _ masks); done. }
  erewrite run_bind; [|apply run_lift, (getitem_mask_occ _ _ masks); done].
  erewrite run_bind; [|apply run_lift, (getitem_mask_vir _ _ masks); done].
  erewrite run_bind; [|apply run_lift, Hx].
  erewrite run_bind; [|apply run_load, Hv].
  erewrite run_bind; [|apply run_alloc].
  set (n := length (main_energy occ (self w))) in *.
  set (eo := np_take (mo_energy (self w)) (nonzero (occ (self w)))).
  set (ev := np_take (mo_energy (self w)) (nonzero (vir (self w)))).
  set (no := length (nonzero (occ (self w)))) in *.
  set (nv := length (nonzero (vir (self w)))) in *.
  assert (length eo = no) as Heo by apply length_np_take.
  assert (length ev = nv) as Hev by apply length_np_take.
  set (x := integrals_of occ vir (self w)) in *.
  set (e_ija := direct_sum_ija eo eo ev).
  assert (shape3 e_ija = (no, no, nv)) as Hse by (simpl; congruence).
  assert (Hv' : ∀ r, (heap w ++ [r]) !! vector = Some v).
  { intros r. by apply lookup_app_l_Some. }
  clearbody x e_ija. cbn [getslice].
  erewrite run_bind; [|apply run_getitem_slice, Hv'].
  cbn [getslice].
  destruct (decide (length v < n)) as [Hshort|Hlong].
  - apply run_bind_None. unfold np_dot.
    rewrite decide_False; [done|].
    rewrite Hh, length_take. simpl. lia.
  - assert (length (take n v) = n) as Hvp by (rewrite length_take; lia).
    assert (np_zeros (length v) = np_zeros n ++ np_zeros (length (drop n v)) :> list R)
      as ->.
    { unfold np_zeros. rewrite <- replicate_add, length_drop. f_equal. lia. }
    erewrite run_bind.
    2:{ apply run_lift. unfold np_dot. rewrite decide_True; [done|].
        rewrite Hh. simpl. by rewrite Hvp. }
    erewrite run_bind.
    2:{ apply run_inplace_to; [apply length_replicate|].
        simpl. by rewrite length_rows_dot, Hh. }
    erewrite run_bind; [|apply run_getitem_slice, Hv'].
    cbn [getslice].
    apply run_bind_None. unfold reshape3. rewrite Hse.
    rewrite decide_False; [done|]. rewrite length_drop. lia.
Qed.
End ApplyShape.

(** ** Computations without side effects *)

Section Purity.
Context `{Scalar R}.

Lemma pure_bind {A B} (m : M R A) (f : A → M R B) :
  pure_method R m → (∀ a, pure_method R (f a)) → pure_method R (m ≫= f).
Proof.
  intros Hm Hf w b w2 Hrun.
  apply bind_inv in Hrun as (a & w1 & Hrun1 & Hrun2).
  apply Hm in Hrun1 as ->. by apply Hf in Hrun2.
Qed.

Lemma pure_ret {A} (a : A) : pure_method R (mret a).
Proof. by intros w ? ? [= _ <-]. Qed.

Lemma pure_lift {A} (o : option A) : pure_method R (lift o).
Proof.
  intros w a w'. unfold lift. destruct o; simpl; [|done]. by intros [= _ <-].
Qed.

Lemma pure_get_self : pure_method R get_self.
Proof. by intros w a w' [= _ <-]. Qed.

Variables occ vir : expression R → list bool.

Ltac pure_step :=
  first [ apply pure_ret | apply pure_lift | apply pure_get_self
        | apply pure_bind; [|intros ?] ].

Lemma pure_main_block : pure_method R (_MP2.main_block occ).
Proof.
  unfold _MP2.main_block, _MP2.non_dyson.
  apply pure_bind; [apply pure_get_self|]. intros s.
  apply pure_bind; [repeat pure_step|]. intros [].
  - repeat pure_step.
  - apply pure_ret.
Qed.

Lemma pure_integrals : pure_method R (_MP2._integrals_for_hamiltonian occ vir).
Proof.
  unfold _MP2._integrals_for_hamiltonian.
  apply pure_bind; [apply pure_main_block|]. intros [c e].
  repeat pure_step.
Qed.

End Purity.

(** ** The constructor and the setter *)

Section Construction.
Context `{Scalar R}.
Variables occ vir : expression R → list bool.
Hypothesis masks : masks_ok occ vir.

Lemma integrals_outcome w :
  is_Some (_MP2._integrals_for_hamiltonian occ vir w)
  ↔ length (mo_occ (self w)) = (mshape (mo_coeff (self w))).2 ∧
    (_non_dyson (self w) = true →
     length (mo_occ (self w)) = length (mo_energy (self w))).
Proof.
  destruct w as [[eri c e o nd x] hp].
  unfold _MP2._integrals_for_hamiltonian, _MP2.main_block, _MP2.non_dyson.
  unfold mbind, M_bind, get_self, lift, getitem_cols, getitem_mask.
  cbn -[decide nonzero np_take np_take_cols ao2mo_general].
  destruct nd;
    repeat (cbn -[decide nonzero np_take np_take_cols ao2mo_general];
            rewrite ?(occ_length _ _ masks), ?(vir_length _ _ masks);
            case_decide);
    cbn -[decide nonzero np_take np_take_cols ao2mo_general].
  all: split; [try (by intros [? [=]]); intros _; try done|].
  all: try done; try (by eauto).
  all: cbn [mo_occ] in *; intros [? Hn]; try specialize (Hn eq_refl); congruence.
Qed.

Lemma init_outcome eri coeff energy occupation non_dyson h :
  is_Some (_MP2.__init__ occ vir eri coeff energy occupation non_dyson h)
  ↔ length occupation = (mshape coeff).2 ∧
    (non_dyson = true → length occupation = length energy).
Proof.
  unfold _MP2.__init__.
  erewrite run_bind; [|reflexivity].
  unfold BaseExpression_init.
  cbn [self heap mf_eri mo_coeff mo_energy mo_occ xija].
  set (w0 := World _ h).
  transitivity (is_Some (_MP2._integrals_for_hamiltonian occ vir w0));
    [|apply (integrals_outcome w0)].
  unfold mbind at 2, M_bind.
  destruct (_MP2._integrals_for_hamiltonian occ vir w0) as [[x w1]|]; simpl.
  - split; eauto.
  - split; intros [? [=]].
Qed.

Lemma init_result eri coeff energy occupation non_dyson h w :
  _MP2.__init__ occ vir eri coeff energy occupation non_dyson h = Some w →
  ∃ x, w = World (Expression eri coeff energy occupation non_dyson (Some x)) h.
Proof.
  unfold _MP2.__init__.
  erewrite run_bind; [|reflexivity].
  unfold BaseExpression_init.
  cbn [self heap mf_eri mo_coeff mo_energy mo_occ xija].
  set (w0 := World _ h).
  unfold mbind at 2, M_bind.
  destruct (_MP2._integrals_for_hamiltonian occ vir w0) as [[x w1]|] eqn:E;
    [|done].
  apply pure_integrals in E as ->. simpl. intros [= <-]. eauto.
Qed.

Lemma set_non_dyson_inv value w w' :
  _MP2.set_non_dyson occ vir value w = Some (tt, w') →
  heap w' = heap w ∧
  mf_eri (self w') = mf_eri (self w) ∧
  mo_coeff (self w') = mo_coeff (self w) ∧
  mo_energy (self w') = mo_energy (self w) ∧
  mo_occ (self w') = mo_occ (self w) ∧
  _non_dyson (self w') = value ∧
  (value = _non_dyson (self w) → w' = w).
Proof.
  unfold _MP2.set_non_dyson.
  rewrite (run_bind _ _ _ _ _ (run_get_self w)).
  erewrite run_bind; [|reflexivity].
  case_decide as Hv.
  - intros Hrun. apply bind_inv in Hrun as (x & w1 & Hx & Hrun).
    apply pure_integrals in Hx as ->.
    injection Hrun as <-. simpl. split_and!; try done.
  - intros [= <-]. simpl. split_and!; try done.
    intros _. subst value. by destruct w as [[] ?].
Qed.
End Construction.

(** ** Sums over the flattened auxiliary index *)

Section FlatIndex.
Context `{Scalar R}.

Lemma nth_bind_uniform {A B} (f : A → list B) (l : list A) k p r dA dB :
  (∀ x, length (f x) = k) → r < k → p < length l →
  nth (p * k + r) (l ≫= f) dB = nth r (f (nth p l dA)) dB.
Proof.
  intros Hf Hr. revert p. induction l as [|x l IH]; intros p Hp; [simpl in Hp; lia|].
  rewrite bind_cons. destruct p as [|p].
  - simpl. apply app_nth1. by rewrite Hf.
  - rewrite app_nth2 by (rewrite Hf; simpl; lia). rewrite Hf.
    replace (S p * k + r - k) with (p * k + r) by (simpl; lia).
    simpl in Hp. rewrite IH by lia. done.
Qed.

Lemma flat_index_bound n1 n2 n3 i j a :
  i < n1 → j < n2 → a < n3 → (i * n2 + j) * n3 + a < n1 * n2 * n3.
Proof.
  intros Hi Hj Ha.
  assert (i * n2 + j + 1 ≤ n1 * n2) as Hij.
  { pose proof (Nat.mul_le_mono_r (i + 1) n1 n2). lia. }
  pose proof (Nat.mul_le_mono_r (i * n2 + j + 1) (n1 * n2) n3 Hij). lia.
Qed.

(** Entry [(i * n2 + j) * n3 + a] of [np.ndindex] is [(i, j, a)]. *)
Lemma nth_ndindex3 n1 n2 n3 i j a d :
  i < n1 → j < n2 → a < n3 →
  nth ((i * n2 + j) * n3 + a) (ndindex3 (n1, n2, n3)) d = (i, j, a).
Proof.
  intros Hi Hj Ha. unfold ndindex3.
  replace ((i * n2 + j) * n3 + a) with (i * (n2 * n3) + (j * n3 + a)) by lia.
  rewrite (nth_bind_uniform _ _ (n2 * n3) _ _ 0).
  - rewrite seq_nth by done. simpl.
    rewrite (nth_bind_uniform _ _ n3 _ _ 0).
    + rewrite seq_nth by done. simpl.
      replace a with (a * 1 + 0) at 1 by lia.
      rewrite (nth_bind_uniform _ _ 1 _ _ 0); rewrite ?length_seq; try done; try lia.
      rewrite seq_nth by done. done.
    + intros x. rewrite (length_bind_const _ _ 1), length_seq; [lia|done].
    + done.
    + by rewrite length_seq.
  - intros x. rewrite (length_bind_const _ _ n3), length_seq; [lia|].
    intros y. rewrite (length_bind_const _ _ 1), length_seq; [lia|done].
  - pose proof (Nat.mul_le_mono_r (j + 1) n2 n3). lia.
  - by rewrite length_seq.
Qed.

Lemma flat_index_inj n1 n2 n3 i j a i' j' a' :
  i < n1 → j < n2 → a < n3 → i' < n1 → j' < n2 → a' < n3 →
  (i * n2 + j) * n3 + a = (i' * n2 + j') * n3 + a' →
  (i, j, a) = (i', j', a').
Proof.
  intros Hi Hj Ha Hi' Hj' Ha' Heq.
  rewrite <- (nth_ndindex3 n1 n2 n3 i j a (0, 0, 0)) by done.
  rewrite <- (nth_ndindex3 n1 n2 n3 i' j' a' (0, 0, 0)) by done.
  by rewrite Heq.
Qed.

Hypothesis arith : exact_arith.
Add Ring scalar_ring_flat :
  (arith : ring_theory s_zero s_one s_add s_mul s_sub s_opp (@eq R)).
Local Open Scope scalar_scope.

Lemma sum_n_plus n m (f : nat → R) :
  sum_n (n + m) f = sum_n n f + sum_n m (λ k, f (n + k)%nat).
Proof.
  induction m as [|m IH].
  - rewrite Nat.add_0_r. simpl. ring.
  - rewrite Nat.add_succ_r. simpl. rewrite IH. ring.
Qed.

Lemma sum_n_mul a b (g : nat → R) :
  sum_n (a * b) g = sum_n a (λ i, sum_n b (λ j, g (i * b + j)%nat)).
Proof.
  induction a as [|a IH]; [done|].
  replace (S a * b)%nat with (a * b + b)%nat by lia.
  rewrite sum_n_plus, IH. done.
Qed.

Lemma sum_n_sub n (f g : nat → R) :
  sum_n n (λ k, f k - g k) = sum_n n f - sum_n n g.
Proof. induction n as [|n IH]; simpl; [|rewrite IH]; ring. Qed.

Lemma sum_n_swap n m (f : nat → nat → R) :
  sum_n n (λ i, sum_n m (λ j, f i j)) = sum_n m (λ j, sum_n n (λ i, f i j)).
Proof.
  induction n as [|n IH]; simpl.
  - symmetry. by apply (sum_n_zero arith).
  - rewrite IH, <- (sum_n_add arith). done.
Qed.

Lemma sum3_ext_range n1 n2 n3 (f g : nat → nat → nat → R) :
  (∀ i j a, (i < n1)%nat → (j < n2)%nat → (a < n3)%nat → f i j a = g i j a) →
  sum_n n1 (λ i, sum_n n2 (λ j, sum_n n3 (λ a, f i j a)))
  = sum_n n1 (λ i, sum_n n2 (λ j, sum_n n3 (λ a, g i j a))).
Proof using Type.
  intros Hfg. apply sum_n_ext. intros i Hi. apply sum_n_ext. intros j Hj.
  apply sum_n_ext. intros a Ha. by apply Hfg.
Qed.

(** A sum over [(i, j, a)] is the sum over the flattened index. *)
Lemma sum3_flat n1 n2 n3 (g : nat → R) :
  sum_n n1 (λ i, sum_n n2 (λ j, sum_n n3 (λ a,
    g ((i * n2 + j) * n3 + a)%nat)))
  = sum_n (n1 * n2 * n3) g.
Proof.
  rewrite (sum_n_mul (n1 * n2) n3), (sum_n_mul n1 n2). done.
Qed.

(** The sum over [(i, j, a)] of terms that vanish except at one triple. *)
Lemma sum3_delta n1 n2 n3 (f : nat → nat → nat → R) i j a :
  (i < n1)%nat → (j < n2)%nat → (a < n3)%nat →
  sum_n n1 (λ i', sum_n n2 (λ j', sum_n n3 (λ a',
    f i' j' a' * (if decide (((i' * n2 + j') * n3 + a')%nat
                             = ((i * n2 + j) * n3 + a)%nat) then 1 else 0))))
  = f i j a.
Proof.
  intros Hi Hj Ha.
  pose (g := λ q, (item3_at (Tensor3 (n1, n2, n3) f)
                     (nth q (ndindex3 (n1, n2, n3)) (0, 0, 0)%nat)
                   * (if decide (q = ((i * n2 + j) * n3 + a)%nat)
                      then 1 else 0))%R).
  transitivity (sum_n (n1 * n2 * n3) g).
  - rewrite <- (sum3_flat n1 n2 n3 g). apply sum3_ext_range.
    intros i' j' a' Hi' Hj' Ha'. unfold g. by rewrite nth_ndindex3.
  - unfold g.
    rewrite (sum_n_delta arith _ _
               (λ q, item3_at (Tensor3 (n1, n2, n3) f)
                       (nth q (ndindex3 (n1, n2, n3)) (0, 0, 0)%nat)))
      by (by apply flat_index_bound).
    by rewrite nth_ndindex3.
Qed.
End FlatIndex.

(** ** The four blocks of the dense operator *)

Section Blocks.
Context `{Scalar R}.
Variables occ vir : expression R → list bool.
Variables (s : expression R) (h : matrix R).
Hypothesis Hc : (mshape (mo_coeff s)).2 = length (mo_energy s).
Hypothesis Hh :
  mshape h = (length (main_energy occ s), length (main_energy occ s)).
Hypothesis arith : exact_arith.
Add Ring scalar_ring_blocks :
  (arith : ring_theory s_zero s_one s_add s_mul s_sub s_opp (@eq R)).

Local Abbreviation n := (length (main_energy occ s)).
Local Abbreviation no := (length (nonzero (occ s))).
Local Abbreviation nv := (length (nonzero (vir s))).
Local Abbreviation eo := (np_take (mo_energy s) (nonzero (occ s))).
Local Abbreviation ev := (np_take (mo_energy s) (nonzero (vir s))).
Local Abbreviation x := (item4 (integrals_of occ vir s)).
Local Abbreviation N := (n + no * no * nv).
Local Abbreviation column k := (apply_value occ vir s h (basis N k)).

Lemma column_main_main p q :
  p < n → q < n → item (column q) p = mitem h p q.
Proof.
  intros Hp Hq.
  rewrite (apply_value_main occ vir s h Hc Hh)
    by (rewrite ?length_basis; (done || lia)).
  rewrite (sum_n_ext _ _ (λ y, (mitem h p y
                                * (if decide (y = q) then 1 else 0))%R))
    by (intros y _; by rewrite item_basis by lia).
  rewrite (sum_n_delta arith) by done.
  rewrite (sum_n_zero arith).
  { ring. }
  intros i _. apply (sum_n_zero arith). intros j _.
  apply (sum_n_zero arith). intros a _.
  rewrite item_basis by lia. rewrite decide_False by lia. ring.
Qed.

Lemma column_main_aux p i j a :
  p < n → i < no → j < no → a < nv →
  item (column (n + ((i * no + j) * nv + a))) p = x p i j a.
Proof.
  intros Hp Hi Hj Ha.
  pose proof (flat_index_bound no no nv i j a Hi Hj Ha) as Hq.
  rewrite (apply_value_main occ vir s h Hc Hh)
    by (rewrite ?length_basis; (done || lia)).
  rewrite (sum_n_zero arith).
  2:{ intros y Hy. rewrite item_basis by lia. rewrite decide_False by lia. ring. }
  rewrite (sum3_ext_range _ _ _ _
             (λ i' j' a',
                (x p i' j' a'
                 * (if decide (((i' * no + j') * nv + a')%nat
                               = ((i * no + j) * nv + a)%nat)
                    then 1 else 0))%R)).
  - rewrite (sum3_delta arith) by done. ring.
  - intros i' j' a' Hi' Hj' Ha'.
    pose proof (flat_index_bound no no nv i' j' a' Hi' Hj' Ha').
    rewrite item_basis by lia. f_equal.
    repeat case_decide; (done || lia).
Qed.

Lemma column_aux_main i j a q :
  i < no → j < no → a < nv → q < n →
  item (column q) (n + ((i * no + j) * nv + a))
  = (2 * x q i j a - x q j i a)%R.
Proof.
  intros Hi Hj Ha Hq.
  pose proof (flat_index_bound no no nv i j a Hi Hj Ha) as Hflat.
  rewrite (apply_value_aux occ vir s h Hc Hh _ _ i j a)
    by (rewrite ?length_basis, ?nth_ndindex3; (done || lia)).
  rewrite (sum_n_ext _ _ (λ y, (x y i j a
                                * (if decide (y = q) then 1 else 0))%R))
    by (intros y _; by rewrite item_basis by lia).
  rewrite (sum_n_ext n (λ y, (x y j i a * item (basis N q) y)%R)
             (λ y, (x y j i a * (if decide (y = q) then 1 else 0))%R))
    by (intros y _; by rewrite item_basis by lia).
  rewrite !(sum_n_delta arith) by done.
  rewrite item_basis by lia. rewrite decide_False by lia. ring.
Qed.

Lemma column_aux_aux i j a i' j' a' :
  i < no → j < no → a < nv → i' < no → j' < no → a' < nv →
  item (column (n + ((i' * no + j') * nv + a'))) (n + ((i * no + j) * nv + a))
  = if decide ((i, j, a) = (i', j', a'))
    then (item eo i + item eo j - item ev a)%R else 0%R.
Proof.
  intros Hi Hj Ha Hi' Hj' Ha'.
  pose proof (flat_index_bound no no nv i j a Hi Hj Ha) as Hflat.
  pose proof (flat_index_bound no no nv i' j' a' Hi' Hj' Ha') as Hflat'.
  rewrite (apply_value_aux occ vir s h Hc Hh _ _ i j a)
    by (rewrite ?length_basis, ?nth_ndindex3; (done || lia)).
  rewrite !(sum_n_zero arith).
  2,3: intros y Hy; rewrite item_basis by lia; rewrite decide_False by lia; ring.
  rewrite item_basis by lia.
  destruct (decide ((i, j, a) = (i', j', a'))) as [[= -> -> ->]|Hne].
  - rewrite decide_True by done. ring.
  - rewrite decide_False; [ring|]. intros Heq. apply Hne.
    apply (flat_index_inj no no nv); (done || lia).
Qed.

(** Moment [m] of the self-energy is the coupling of the main block to the
    configurations, times the [m]-th power of their energies, times the
    coupling back. *)
Lemma moment_from_columns m p q :
  p < n → q < n →
  mitem (moment_sum occ vir s m no) p q
  = sum_n (no * no * nv) (λ k,
      (item (column (n + k)) p
       * s_pow (item (column (n + k)) (n + k)) m
       * item (column q) (n + k))%R).
Proof.
  intros Hp Hq.
  rewrite (moment_sum_formula arith).
  rewrite <- (sum3_flat arith).
  apply sum3_ext_range. intros i j a Hi Hj Ha. cbv beta.
  rewrite (column_main_aux p i j a) by done.
  rewrite (column_aux_main i j a q) by done.
  rewrite (column_aux_aux i j a i j a) by done.
  rewrite decide_True by done. ring.
Qed.
End Blocks.

(** ** The self-energy moments *)

Section MomentFacts.
Context `{Scalar R}.
Variables occ vir : expression R → list bool.
Variable s : expression R.
Hypothesis arith : exact_arith.
Add Ring scalar_ring_moment_facts :
  (arith : ring_theory s_zero s_one s_add s_mul s_sub s_opp (@eq R)).
Local Open Scope scalar_scope.

Local Abbreviation no := (length (nonzero (occ s))).
Local Abbreviation nv := (length (nonzero (vir s))).
Local Abbreviation eo := (np_take (mo_energy s) (nonzero (occ s))).
Local Abbreviation ev := (np_take (mo_energy s) (nonzero (vir s))).
Local Abbreviation x := (item4 (integrals_of occ vir s)).

Lemma sum3_sub n1 n2 n3 (f g : nat → nat → nat → R) :
  sum_n n1 (λ i, sum_n n2 (λ j, sum_n n3 (λ a, f i j a - g i j a)))
  = sum_n n1 (λ i, sum_n n2 (λ j, sum_n n3 (λ a, f i j a)))
    - sum_n n1 (λ i, sum_n n2 (λ j, sum_n n3 (λ a, g i j a))).
Proof.
  rewrite <- (sum_n_sub arith). apply sum_n_ext. intros i _.
  rewrite <- (sum_n_sub arith). apply sum_n_ext. intros j _.
  apply (sum_n_sub arith).
Qed.

(** The exchange term [xija[p,i,j,a] * xija[q,j,i,a] * e ** n] summed over
    all configurations does not change when [p] and [q] are exchanged:
    rename [i] and [j]. *)
Lemma exchange_term_symmetric n p q :
  sum_n no (λ i, sum_n no (λ j, sum_n nv (λ a,
    x p i j a * x q j i a * s_pow (item eo i + item eo j - item ev a) n)))
  = sum_n no (λ i, sum_n no (λ j, sum_n nv (λ a,
      x q i j a * x p j i a * s_pow (item eo i + item eo j - item ev a) n))).
Proof.
  rewrite (sum_n_swap arith).
  apply sum_n_ext. intros i _. apply sum_n_ext. intros j _.
  apply sum_n_ext. intros a _.
  replace (item eo j + item eo i - item ev a)
    with (item eo i + item eo j - item ev a) by ring.
  ring.
Qed.

Lemma moment_sum_symmetric n p q :
  mitem (moment_sum occ vir s n no) p q = mitem (moment_sum occ vir s n no) q p.
Proof.
  rewrite !(moment_sum_formula arith).
  rewrite (sum3_ext_range _ _ _ _
             (λ i j a,
                2 * (x p i j a * x q i j a)
                  * s_pow (item eo i + item eo j - item ev a) n
                - x p i j a * x q j i a
                  * s_pow (item eo i + item eo j - item ev a) n))
    by (intros; ring).
  rewrite (sum3_ext_range no no nv
             (λ i j a, x q i j a * (2 * x p i j a - x p j i a)
                       * s_pow (item eo i + item eo j - item ev a) n)
             (λ i j a,
                2 * (x p i j a * x q i j a)
                  * s_pow (item eo i + item eo j - item ev a) n
                - x q i j a * x p j i a
                  * s_pow (item eo i + item eo j - item ev a) n))
    by (intros; ring).
  rewrite !sum3_sub. f_equal. apply exchange_term_symmetric.
Qed.
End MomentFacts.

(** ** The entries of the static part *)

Section StaticEntries.
Context `{Scalar R}.
Variables occ vir : expression R → list bool.
Hypothesis masks : masks_ok occ vir.
Local Open Scope scalar_scope.

Lemma transpose_0321_shaped (t : tensor4 R) n0 n1 n2 n3 :
  shape4 t = (n0, n1, n2, n3) →
  transpose_0321 t = Tensor4 (n0, n3, n2, n1) (λ x a j b, item4 t x b j a).
Proof. intros Ht. unfold transpose_0321. by rewrite Ht. Qed.

Lemma static_part_entries s :
  (mshape (mo_coeff s)).2 = length (mo_energy s) →
  length (mo_occ s) = length (mo_energy s) →
  ∃ h, (∀ hp, _MP2.get_static_part occ vir (World s hp)
              = Some (h, World s hp)) ∧
       mshape h = (length (main_energy occ s), length (main_energy occ s)) ∧
       ∀ x y, mitem h x y = static_entry occ vir s x y.
Proof.
  intros Hc Hlen.
  pose proof (main_shape occ s Hc) as Hm.
  set (n := length (main_energy occ s)) in *.
  set (no := length (nonzero (occ s))).
  set (nv := length (nonzero (vir s))).
  set (xajb := ao2mo_general (mf_eri s) (main_coeff occ s)
                 (np_take_cols (mo_coeff s) (nonzero (vir s)))
                 (np_take_cols (mo_coeff s) (nonzero (occ s)))
                 (np_take_cols (mo_coeff s) (nonzero (vir s)))).
  set (e_xajb := direct_sum_xajb (main_energy occ s)
                   (np_take (mo_energy s) (nonzero (vir s)))
                   (np_take (mo_energy s) (nonzero (occ s)))
                   (np_take (mo_energy s) (nonzero (vir s)))).
  assert (shape4 xajb = (n, nv, no, nv)) as Hx.
  { subst xajb. simpl. by rewrite Hm. }
  assert (shape4 e_xajb = (n, nv, no, nv)) as He.
  { subst e_xajb. simpl. by rewrite !length_np_take. }
  eexists. split; [|split].
  - intros hp. unfold _MP2.get_static_part.
    rewrite (run_bind _ _ _ _ _
               (run_main_block occ vir masks (World s hp) Hc Hlen)).
    rewrite (run_bind _ _ _ _ _ (run_get_self (World s hp))).
    cbn [self].
    erewrite run_bind;
      [|apply run_lift, (getitem_cols_occ occ vir masks); done].
    erewrite run_bind;
      [|apply run_lift, (getitem_cols_vir occ vir masks); done].
    erewrite run_bind;
      [|apply run_lift, (getitem_mask_occ occ vir masks); done].
    erewrite run_bind;
      [|apply run_lift, (getitem_mask_vir occ vir masks); done].
    fold xajb e_xajb.
    rewrite (transpose_0321_shaped xajb _ _ _ _ Hx).
    unfold tensor4_zip. cbn [tensor4_map shape4].
    rewrite Hx, He. rewrite !decide_True by done.
    erewrite run_bind; [|apply run_lift; reflexivity].
    erewrite run_bind; [|apply run_lift; reflexivity].
    unfold einsum_xajb_yajb_xy. cbn [shape4].
    rewrite decide_True by done.
    erewrite run_bind; [|apply run_lift; reflexivity].
    unfold matrix_iadd. cbn [transpose matrix_map mshape np_diag_matrix fst snd].
    rewrite decide_True by done.
    erewrite run_bind; [|apply run_lift; reflexivity].
    cbn [mshape].
    rewrite decide_True by done.
    erewrite run_bind; [|apply run_lift; reflexivity].
    rewrite run_ret. reflexivity.
  - done.
  - intros x y. reflexivity.
Qed.
End StaticEntries.

(** ** The occupied block *)

Section Masks.
Context `{Scalar R}.

Lemma nonzero_from_ge k mask x : x ∈ nonzero_from k mask → k ≤ x.
Proof.
  revert k. induction mask as [|b m IH]; intros k; simpl.
  - by intros ?%elem_of_nil.
  - destruct b.
    + intros [->|Hx%IH]%elem_of_cons; lia.
    + intros Hx%IH. lia.
Qed.

Lemma NoDup_nonzero_from k mask : NoDup (nonzero_from k mask).
Proof.
  revert k. induction mask as [|b m IH]; intros k; simpl.
  - constructor.
  - destruct b; [|apply IH]. constructor; [|apply IH].
    intros Hk%nonzero_from_ge. lia.
Qed.

(** The positions a mask selects are distinct. *)
Lemma nonzero_inj mask x y :
  x < length (nonzero mask) → y < length (nonzero mask) →
  nth x (nonzero mask) 0 = nth y (nonzero mask) 0 → x = y.
Proof.
  intros Hx Hy Heq.
  destruct (lookup_lt_is_Some_2 _ _ Hx) as [p Hp].
  destruct (lookup_lt_is_Some_2 _ _ Hy) as [q Hq].
  rewrite (nth_lookup_Some _ _ _ _ Hp), (nth_lookup_Some _ _ _ _ Hq) in Heq.
  subst q. eapply NoDup_lookup; [apply NoDup_nonzero_from|done..].
Qed.
End Masks.

Section OccupiedBlock.
Context `{Scalar R}.
Variables occ vir : expression R → list bool.
Hypothesis masks : masks_ok occ vir.
Local Open Scope scalar_scope.

Lemma item_np_take (e : list R) idx k :
  (k < length idx)%nat → item (np_take e idx) k = item e (nth k idx 0%nat).
Proof. intros Hk. unfold np_take. by apply item_fmap. Qed.

Lemma static_half_block s c1 c2 x y :
  (y < length (nonzero (occ s)))%nat →
  static_half occ vir (with_mode s true c1) x y
  = static_half occ vir (with_mode s false c2)
      (nth x (nonzero (occ s)) 0%nat) (nth y (nonzero (occ s)) 0%nat).
Proof.
  intros Hy.
  unfold static_half, main_coeff, main_energy.
  cbn [with_mode _non_dyson mo_coeff mo_energy mf_eri].
  rewrite !(occ_attr _ _ masks (with_mode s true c1) s) by done.
  rewrite !(occ_attr _ _ masks (with_mode s false c2) s) by done.
  rewrite !(vir_attr _ _ masks (with_mode s true c1) s) by done.
  rewrite !(vir_attr _ _ masks (with_mode s false c2) s) by done.
  f_equal. apply sum_n_ext. intros a _. apply sum_n_ext. intros j _.
  apply sum_n_ext. intros b _.
  cbn [item4 ao2mo_general direct_sum_xajb np_take_cols mitem mshape fst].
  by rewrite item_np_take.
Qed.

Lemma static_entry_block s c1 c2 x y :
  (x < length (nonzero (occ s)))%nat → (y < length (nonzero (occ s)))%nat →
  static_entry occ vir (with_mode s true c1) x y
  = static_entry occ vir (with_mode s false c2)
      (nth x (nonzero (occ s)) 0%nat) (nth y (nonzero (occ s)) 0%nat).
Proof.
  intros Hx Hy. unfold static_entry.
  rewrite !(static_half_block s c1 c2) by done. f_equal.
  unfold main_energy. cbn [with_mode _non_dyson mo_energy].
  rewrite !(occ_attr _ _ masks (with_mode s true c1) s) by done.
  destruct (decide (x = y)) as [->|Hne].
  - rewrite decide_True by done. by apply item_np_take.
  - rewrite decide_False; [done|]. intros Heq. apply Hne.
    by apply (nonzero_inj (occ s)).
Qed.

(** The integrals and the moments of non-Dyson mode are those of Dyson
    mode at the occupied positions. *)
Lemma integrals_block s c1 c2 x i j a :
  item4 (integrals_of occ vir (with_mode s true c1)) x i j a
  = item4 (integrals_of occ vir (with_mode s false c2))
      (nth x (nonzero (occ s)) 0%nat) i j a.
Proof.
  unfold integrals_of, main_coeff.
  cbn [with_mode _non_dyson mo_coeff mo_energy mf_eri].
  rewrite !(occ_attr _ _ masks (with_mode s true c1) s) by done.
  rewrite !(occ_attr _ _ masks (with_mode s false c2) s) by done.
  rewrite !(vir_attr _ _ masks (with_mode s true c1) s) by done.
  rewrite !(vir_attr _ _ masks (with_mode s false c2) s) by done.
  done.
Qed.

Lemma moment_sum_block s c1 c2 n k x y :
  mitem (moment_sum occ vir (with_mode s true c1) n k) x y
  = mitem (moment_sum occ vir (with_mode s false c2) n k)
      (nth x (nonzero (occ s)) 0%nat) (nth y (nonzero (occ s)) 0%nat).
Proof.
  unfold moment_sum, moment_term. cbn [mitem].
  cbn [with_mode mo_energy].
  rewrite !(occ_attr _ _ masks (with_mode s true c1) s) by done.
  rewrite !(occ_attr _ _ masks (with_mode s false c2) s) by done.
  rewrite !(vir_attr _ _ masks (with_mode s true c1) s) by done.
  rewrite !(vir_attr _ _ masks (with_mode s false c2) s) by done.
  apply sum_n_ext. intros i _. apply sum_n_ext. intros j _.
  apply sum_n_ext. intros a _.
  by rewrite !(integrals_block s c1 c2).
Qed.
End OccupiedBlock.

(** ** An expression without configurations *)

Section NoConfigurations.
Context `{Scalar R}.
Variables occ vir : expression R → list bool.
Variables (s : expression R) (h : matrix R).
Hypothesis Hc : (mshape (mo_coeff s)).2 = length (mo_energy s).
Hypothesis Hh :
  mshape h = (length (main_energy occ s), length (main_energy occ s)).
Hypothesis Hempty :
  length (nonzero (occ s)) * length (nonzero (occ s))
  * length (nonzero (vir s)) = 0.
Hypothesis arith : exact_arith.
Add Ring scalar_ring_empty :
  (arith : ring_theory s_zero s_one s_add s_mul s_sub s_opp (@eq R)).

Lemma no_configuration i a :
  i < length (nonzero (occ s)) → a < length (nonzero (vir s)) → False.
Proof using Hempty.
  clear Hc Hh. intros Hi Ha.
  apply Nat.eq_mul_0 in Hempty as [[?|?]%Nat.eq_mul_0|?]; lia.
Qed.

Lemma static_half_empty x y : static_half occ vir s x y = 0%R.
Proof.
  unfold static_half. rewrite (sum_n_zero arith); [ring|].
  intros a Ha. apply (sum_n_zero arith). intros j Hj.
  destruct (no_configuration j a Hj Ha).
Qed.

Lemma static_entry_empty x y :
  static_entry occ vir s x y
  = if decide (x = y) then item (main_energy occ s) x else 0%R.
Proof.
  unfold static_entry. rewrite !static_half_empty. case_decide; ring.
Qed.

Lemma apply_value_empty v :
  length v = length (main_energy occ s) →
  apply_value occ vir s h v = rows_dot h v.
Proof.
  intros Hv.
  assert (length v = length (main_energy occ s)
                     + length (nonzero (occ s)) * length (nonzero (occ s))
                       * length (nonzero (vir s))) as Hv' by lia.
  apply item_ext.
  { rewrite (length_apply_value occ vir s h Hc Hh v Hv'), length_rows_dot, Hh.
    simpl. lia. }
  rewrite (length_apply_value occ vir s h Hc Hh v Hv'), Hempty, Nat.add_0_r.
  intros k Hk.
  rewrite (apply_value_main occ vir s h Hc Hh v k Hv' Hk).
  rewrite (sum_n_zero arith _ (λ i, sum_n _ _)).
  2:{ intros i Hi. apply (sum_n_zero arith). intros j _.
      apply (sum_n_zero arith). intros a Ha.
      destruct (no_configuration i a Hi Ha). }
  unfold rows_dot. rewrite Hh. cbn [fst].
  rewrite item_fmap_seq by done. rewrite Hv. ring.
Qed.
End NoConfigurations.

(** ** The positions a mask selects *)

Section Selection.
Context `{Scalar R}.

Lemma nonzero_from_lt k mask x :
  x ∈ nonzero_from k mask → x < k + length mask.
Proof.
  revert k. induction mask as [|b m IH]; intros k; simpl.
  - by intros ?%elem_of_nil.
  - destruct b.
    + intros [->|Hx%IH]%elem_of_cons; lia.
    + intros Hx%IH. lia.
Qed.

(** A mask selects positions of the array it indexes. *)
Lemma nth_nonzero_lt mask k :
  k < length (nonzero mask) → nth k (nonzero mask) 0 < length mask.
Proof.
  intros Hk. destruct (lookup_lt_is_Some_2 _ _ Hk) as [x Hx].
  rewrite (nth_lookup_Some _ _ _ _ Hx).
  apply list_elem_of_lookup_2, nonzero_from_lt in Hx. lia.
Qed.
End Selection.

(** ** Configurations and flat positions *)

Section Compression.
Context `{Scalar R}.

Lemma flat_index_surj n1 n2 n3 k :
  k < n1 * n2 * n3 →
  ∃ i j a, i < n1 ∧ j < n2 ∧ a < n3 ∧ k = (i * n2 + j) * n3 + a.
Proof.
  intros Hk.
  assert (0 < n3) as Hn3 by (destruct n3; lia).
  assert (0 < n2) as Hn2 by (destruct n2; lia).
  exists (k / n3 / n2), ((k / n3) `mod` n2), (k `mod` n3).
  split_and!.
  - apply Nat.Div0.div_lt_upper_bound. rewrite Nat.mul_comm.
    apply Nat.Div0.div_lt_upper_bound. lia.
  - apply Nat.mod_upper_bound. lia.
  - apply Nat.mod_upper_bound. lia.
  - pose proof (Nat.div_mod (k / n3) n2). pose proof (Nat.div_mod k n3). lia.
Qed.
End Compression.

(** ** The properties *)

Section Further.
Context `{Scalar R}.

Lemma MP2_constructed key (cls : mp2_class R) :
  MP2 !! key = Some cls →
  ∃ o v, masks_ok o v ∧ cls = _mp2_constructor o v.
Proof.
  intros [-> | ->]%MP2_lookup; eauto using masks_ok_1h, masks_ok_1p.
Qed.

(** X1.  [get_wavefunction(orb)] accepts every index of the vector it
    returns, the auxiliary positions included, and counts a negative
    index from the end: for [-N <= orb < N], with [N = n_main + n_aux],
    it returns the fresh basis vector of length [N] with 1 at position
    [orb mod N]. *)
Theorem get_wavefunction_index_range key (cls : mp2_class R) w orb :
  MP2 !! key = Some cls →
  mp2_expression cls w →
  (- Z.of_nat (n_main cls w + n_aux cls w) ≤ orb
   < Z.of_nat (n_main cls w + n_aux cls w))%Z →
  get_wavefunction cls orb w
  = Some (length (heap w),
          World (self w)
            (heap w ++ [basis (n_main cls w + n_aux cls w)
                          (Z.to_nat (orb `mod`
                             Z.of_nat (n_main cls w + n_aux cls w)))])).
Proof.
  intros (o & vi & Hmasks & ->)%MP2_constructed Hexpr Horb.
  pose proof (expression_consistent o vi w Hmasks Hexpr) as (Hc & Hlen & Hx).
  cbn [get_wavefunction _mp2_constructor].
  rewrite (run_get_wavefunction o vi Hmasks w orb Hlen).
  by rewrite decide_True.
Qed.

(** X2.  For an index outside [-N .. N - 1], with [N = n_main + n_aux],
    the assignment [r[orb] = 1.0] of [get_wavefunction] raises
    IndexError: the call returns nothing. *)
Theorem get_wavefunction_index_error key (cls : mp2_class R) w orb :
  MP2 !! key = Some cls →
  mp2_expression cls w →
  (orb < - Z.of_nat (n_main cls w + n_aux cls w)
   ∨ Z.of_nat (n_main cls w + n_aux cls w) ≤ orb)%Z →
  get_wavefunction cls orb w = None.
Proof.
  intros (o & vi & Hmasks & ->)%MP2_constructed Hexpr Horb.
  pose proof (expression_consistent o vi w Hmasks Hexpr) as (Hc & Hlen & Hx).
  cbn [get_wavefunction _mp2_constructor].
  rewrite (run_get_wavefunction o vi Hmasks w orb Hlen).
  rewrite decide_False; [done|lia].
Qed.

(** X3.  [apply_hamiltonian] raises on every input vector whose length is
    not [n_main + n_aux]: a shorter main part fails in [np.dot], an
    auxiliary part of another size fails in [reshape]. *)
Theorem apply_hamiltonian_length_mismatch key (cls : mp2_class R) w vector v :
  MP2 !! key = Some cls →
  mp2_expression cls w →
  heap w !! vector = Some v →
  length v ≠ n_main cls w + n_aux cls w →
  apply_hamiltonian cls vector None w = None.
Proof.
  intros (o & vi & Hmasks & ->)%MP2_constructed Hexpr Hv Hlv.
  pose proof (expression_consistent o vi w Hmasks Hexpr) as Hcons.
  pose proof Hcons as (Hc & Hlen & Hx).
  destruct (static_part_exists o vi Hmasks (self w) Hc Hlen)
    as (h & Hstatic & Hh).
  cbn [apply_hamiltonian _mp2_constructor].
  rewrite <- (run_apply_hamiltonian_ValueError o vi Hmasks w h vector v);
    try done.
  - unfold _MP2.apply_hamiltonian.
    rewrite (run_bind (_MP2.static_or_fresh _ _ (Some h)) _ _ _ _ (run_ret h _)).
    specialize (Hstatic (heap w)).
    assert (World (self w) (heap w) = w) as Hw by (by destruct w).
    rewrite Hw in Hstatic.
    by rewrite (run_bind (_MP2.static_or_fresh _ _ None) _ _ _ _ Hstatic).
  - by rewrite <- dimension_unfold.
Qed.

(** X4.  [__init__] returns exactly when the mask built from the
    occupation numbers is as long as the coefficient matrix has columns
    and, in non-Dyson mode only, as long as the vector of energies (in
    Dyson mode the energies are not looked at); the object then holds
    the orbital data, the flag as given and a cache, and the arrays of
    its clients are what they were. *)
Theorem init_validates_mask_lengths key (cls : mp2_class R)
    eri coeff energy occupation non_dyson h :
  MP2 !! key = Some cls →
  (is_Some (__init__ cls eri coeff energy occupation non_dyson h)
   ↔ length occupation = (mshape coeff).2 ∧
     (non_dyson = true → length occupation = length energy)) ∧
  ∀ w, __init__ cls eri coeff energy occupation non_dyson h = Some w →
       ∃ x, w = World (Expression eri coeff energy occupation non_dyson
                         (Some x)) h.
Proof.
  intros (o & vi & Hmasks & ->)%MP2_constructed. split.
  - by apply init_outcome.
  - apply init_result.
Qed.

(** X5.  The cache of an expression is never stale: after the
    constructor and any sequence of assignments to [non_dyson], [xija]
    is what [_integrals_for_hamiltonian()] returns now, and its shape is
    [(n_main, n_occ, n_occ, n_vir)]. *)
Theorem cached_integrals_current key (cls : mp2_class R) w :
  MP2 !! key = Some cls →
  mp2_expression cls w →
  ∃ x, xija (self w) = Some x ∧
       _integrals_for_hamiltonian cls w = Some (x, w) ∧
       shape4 x = (n_main cls w, n_occ cls w, n_occ cls w, n_vir cls w).
Proof.
  intros (o & vi & Hmasks & ->)%MP2_constructed Hexpr.
  pose proof (expression_consistent o vi w Hmasks Hexpr) as (Hc & Hlen & Hx).
  exists (integrals_of o vi (self w)). split; [done|]. split.
  - by apply run_integrals.
  - rewrite (shape4_integrals_of o vi (self w) Hc).
    by rewrite (main_energy_length (_mp2_constructor o vi)).
Qed.

(** X6.  An assignment to [non_dyson] changes nothing but the flag and
    the cache: the arrays of the clients and the orbital data stay, the
    flag reads the assigned value, and assigning the value the flag
    already has changes nothing at all. *)
Theorem set_non_dyson_frame key (cls : mp2_class R) value w w' :
  MP2 !! key = Some cls →
  set_non_dyson cls value w = Some (tt, w') →
  heap w' = heap w ∧
  mf_eri (self w') = mf_eri (self w) ∧
  mo_coeff (self w') = mo_coeff (self w) ∧
  mo_energy (self w') = mo_energy (self w) ∧
  mo_occ (self w') = mo_occ (self w) ∧
  _non_dyson (self w') = value ∧
  (value = _non_dyson (self w) → w' = w).
Proof.
  intros (o & vi & Hmasks & ->)%MP2_constructed. apply set_non_dyson_inv.
Qed.

(** X7.  On an expression an assignment to [non_dyson] always succeeds;
    it keeps the numbers of occupied and virtual orbitals and of
    configurations, and makes the main block [n_occ] wide in non-Dyson
    mode and [n_occ + n_vir] wide in Dyson mode. *)
Theorem set_non_dyson_resizes_main_block key (cls : mp2_class R) value w :
  MP2 !! key = Some cls →
  mp2_expression cls w →
  ∃ w', set_non_dyson cls value w = Some (tt, w') ∧
        n_occ cls w' = n_occ cls w ∧
        n_vir cls w' = n_vir cls w ∧
        n_aux cls w' = n_aux cls w ∧
        n_main cls w' = if value then n_occ cls w
                        else n_occ cls w + n_vir cls w.
Proof.
  intros (o & vi & Hmasks & ->)%MP2_constructed Hexpr.
  pose proof (expression_consistent o vi w Hmasks Hexpr) as (Hc & Hlen & Hx).
  eexists. split; [by apply run_set_non_dyson|].
  assert (∀ x, o (if decide (value ≠ _non_dyson (self w))
                  then with_mode (self w) value
                         (Some (integrals_of o vi (with_mode (self w) value None)))
                  else with_mode (self w) value x) = o (self w)) as Ho.
  { intros x. apply (occ_attr _ _ Hmasks). by case_decide. }
  assert (∀ x, vi (if decide (value ≠ _non_dyson (self w))
                   then with_mode (self w) value
                          (Some (integrals_of o vi (with_mode (self w) value None)))
                   else with_mode (self w) value x) = vi (self w)) as Hv.
  { intros x. apply (vir_attr _ _ Hmasks). by case_decide. }
  unfold n_aux, n_main, n_occ, n_vir.
  cbn [self occ vir _mp2_constructor]. rewrite Ho, Hv.
  split_and!; try done.
  replace (_non_dyson _) with value by (by case_decide).
  replace (mo_energy _) with (mo_energy (self w)) by (by case_decide).
  destruct value; [done|].
  by rewrite (occ_vir_partition _ _ Hmasks), Hlen.
Qed.

(** X8.  In exact arithmetic the dense operator has four blocks: the
    static part on the main block; [xija[p,i,j,a]] from configuration
    [(i, j, a)] to main orbital [p];
    [2 xija[p,i,j,a] - xija[p,j,i,a]] from [p] to the configuration;
    and the diagonal of the energies [e_i + e_j - e_a] among the
    configurations. *)
Theorem dense_operator_blocks key (cls : mp2_class R) w :
  exact_arith →
  MP2 !! key = Some cls →
  mp2_expression cls w →
  ∃ H h x,
    dense cls w = Some H ∧
    get_static_part cls w = Some (h, w) ∧
    xija (self w) = Some x ∧
    (∀ p q, p < n_main cls w → q < n_main cls w →
            mitem H p q = mitem h p q) ∧
    (∀ p i j a, p < n_main cls w →
                i < n_occ cls w → j < n_occ cls w → a < n_vir cls w →
       mitem H p (aux_index cls w i j a) = item4 x p i j a ∧
       mitem H (aux_index cls w i j a) p
       = (2 * item4 x p i j a - item4 x p j i a)%R) ∧
    (∀ i j a i' j' a',
       i < n_occ cls w → j < n_occ cls w → a < n_vir cls w →
       i' < n_occ cls w → j' < n_occ cls w → a' < n_vir cls w →
       mitem H (aux_index cls w i j a) (aux_index cls w i' j' a')
       = if decide ((i, j, a) = (i', j', a'))
         then (item (occupied_energies cls w) i
               + item (occupied_energies cls w) j
               - item (virtual_energies cls w) a)%R
         else 0%R).
Proof.
  intros arith (o & vi & Hmasks & ->)%MP2_constructed Hexpr.
  pose proof (expression_consistent o vi w Hmasks Hexpr) as Hcons.
  pose proof Hcons as (Hc & Hlen & Hx).
  destruct (static_part_exists o vi Hmasks (self w) Hc Hlen)
    as (h & Hstatic & Hh).
  exists (dense_value o vi (self w) h
            (n_main (_mp2_constructor o vi) w + n_aux (_mp2_constructor o vi) w)),
    h, (integrals_of o vi (self w)).
  split; [by apply dense_run|].
  split; [specialize (Hstatic (heap w)); by destruct w|].
  split; [done|].
  unfold aux_index, occupied_energies, virtual_energies.
  rewrite (dimension_unfold o vi w).
  rewrite <- (main_energy_length (_mp2_constructor o vi) w).
  unfold n_aux, n_occ, n_vir, np_sum_mask. cbn [occ vir _mp2_constructor].
  split_and!.
  - intros p q Hp Hq. rewrite mitem_dense_value by lia.
    by apply column_main_main.
  - intros p i j a Hp Hi Hj Ha.
    pose proof (flat_index_bound _ _ _ i j a Hi Hj Ha).
    rewrite !mitem_dense_value by lia. split.
    + by apply column_main_aux.
    + by apply column_aux_main.
  - intros i j a i' j' a' Hi Hj Ha Hi' Hj' Ha'.
    pose proof (flat_index_bound _ _ _ i' j' a' Hi' Hj' Ha').
    rewrite mitem_dense_value by lia.
    by apply column_aux_aux.
Qed.

(** X9.  In exact arithmetic, with at least one occupied orbital,
    moment [n] of [build_se_moments] is the product of the two coupling
    blocks of the dense operator through the [n]-th power of its
    auxiliary diagonal:
    [M_n[p,q] = sum_k H[p, n_main + k] * H[n_main + k, n_main + k] ** n
                      * H[n_main + k, q]]. *)
Theorem se_moments_from_dense_operator key (cls : mp2_class R) w nmom :
  exact_arith →
  MP2 !! key = Some cls →
  mp2_expression cls w →
  0 < n_occ cls w →
  ∃ H ms,
    dense cls w = Some H ∧
    build_se_moments cls nmom w = Some (Array2 <$> ms, w) ∧
    length ms = nmom ∧
    ∀ n m, ms !! n = Some m →
      ∀ p q, p < n_main cls w → q < n_main cls w →
        mitem m p q
        = sum_n (n_aux cls w) (λ k,
            (mitem H p (n_main cls w + k)
             * s_pow (mitem H (n_main cls w + k) (n_main cls w + k)) n
             * mitem H (n_main cls w + k) q)%R).
Proof.
  intros arith (o & vi & Hmasks & ->)%MP2_constructed Hexpr Hocc.
  pose proof (expression_consistent o vi w Hmasks Hexpr) as Hcons.
  pose proof Hcons as (Hc & Hlen & Hx).
  destruct (static_part_exists o vi Hmasks (self w) Hc Hlen)
    as (h & Hstatic & Hh).
  exists (dense_value o vi (self w) h
            (n_main (_mp2_constructor o vi) w + n_aux (_mp2_constructor o vi) w)),
    ((λ n, moment_sum o vi (self w) n (length (nonzero (o (self w)))))
       <$> seq 0 nmom).
  split; [by apply dense_run|]. split; [|split].
  - cbn [build_se_moments _mp2_constructor].
    rewrite (run_build_se_moments o vi Hmasks w nmom Hcons).
    destruct (decide (length (nonzero (o (self w))) = 0%nat)) as [Hno|_].
    { unfold n_occ, np_sum_mask in Hocc. simpl in Hocc. lia. }
    by rewrite <- list_fmap_compose.
  - by rewrite length_fmap, length_seq.
  - intros n m (n' & -> & [-> _]%lookup_seq)%list_lookup_fmap_Some.
    rewrite Nat.add_0_l.
    rewrite (dimension_unfold o vi w).
    rewrite <- (main_energy_length (_mp2_constructor o vi) w).
    unfold n_aux, n_occ, n_vir, np_sum_mask. cbn [occ vir _mp2_constructor].
    intros p q Hp Hq.
    rewrite (moment_from_columns o vi (self w) h Hc Hh arith) by done.
    apply sum_n_ext. intros k Hk.
    by rewrite !mitem_dense_value by lia.
Qed.

(** X10.  In exact arithmetic [build_se_moments(nmom)] returns [nmom]
    entries, and every matrix among them is symmetric. *)
Theorem se_moments_symmetric key (cls : mp2_class R) w nmom :
  exact_arith →
  MP2 !! key = Some cls →
  mp2_expression cls w →
  ∃ t, build_se_moments cls nmom w = Some (t, w) ∧
       length t = nmom ∧
       ∀ m, Array2 m ∈ t → ∀ p q, mitem m p q = mitem m q p.
Proof.
  intros arith (o & vi & Hmasks & ->)%MP2_constructed Hexpr.
  pose proof (expression_consistent o vi w Hmasks Hexpr) as Hcons.
  cbn [build_se_moments _mp2_constructor].
  rewrite (run_build_se_moments o vi Hmasks w nmom Hcons).
  eexists. split; [done|]. split.
  - by rewrite length_fmap, length_seq.
  - intros m Hm p q.
    apply list_elem_of_fmap in Hm as (n & Hm & _).
    case_decide; [done|]. injection Hm as ->.
    by apply moment_sum_symmetric.
Qed.

(** X11.  The static part of non-Dyson mode is the occupied block of the
    static part of Dyson mode: after [non_dyson = True] on a Dyson
    expression, [get_static_part()] returns the [n_occ x n_occ] matrix
    whose entry [(x, y)] is the entry of the former static part at the
    positions of the [x]-th and [y]-th occupied orbitals. *)
Theorem non_dyson_static_part_is_occupied_block key (cls : mp2_class R) w :
  MP2 !! key = Some cls →
  mp2_expression cls w →
  _non_dyson (self w) = false →
  ∃ h w1 h1,
    get_static_part cls w = Some (h, w) ∧
    set_non_dyson cls true w = Some (tt, w1) ∧
    get_static_part cls w1 = Some (h1, w1) ∧
    mshape h1 = (n_occ cls w, n_occ cls w) ∧
    ∀ x y, x < n_occ cls w → y < n_occ cls w →
      mitem h1 x y
      = mitem h (nth x (nonzero (occ cls (self w))) 0)
                (nth y (nonzero (occ cls (self w))) 0).
Proof.
  intros (o & vi & Hmasks & ->)%MP2_constructed Hexpr Hmode.
  pose proof (expression_consistent o vi w Hmasks Hexpr) as (Hc & Hlen & Hx).
  destruct w as [s hp]. cbn [self] in *.
  assert (s = with_mode s false (xija s)) as Hs.
  { destruct s; simpl in *; by subst. }
  set (s1 := with_mode s true
               (Some (integrals_of o vi (with_mode s true None)))).
  destruct (static_part_entries o vi Hmasks s Hc Hlen)
    as (h & Hrun & Hh & Hentries).
  destruct (static_part_entries o vi Hmasks s1 Hc Hlen)
    as (h1 & Hrun1 & Hh1 & Hentries1).
  exists h, (World s1 hp), h1.
  cbn [get_static_part set_non_dyson _mp2_constructor].
  split; [done|]. split.
  { rewrite (run_set_non_dyson o vi Hmasks) by done. cbn [self heap].
    rewrite Hmode. by rewrite decide_True. }
  split; [done|].
  assert (o s1 = o s) as Ho by (by apply (occ_attr _ _ Hmasks)).
  split.
  - rewrite Hh1. unfold main_energy, n_occ, np_sum_mask.
    cbn [s1 with_mode _non_dyson occ _mp2_constructor self].
    fold s1. by rewrite length_np_take, Ho.
  - unfold n_occ, np_sum_mask. cbn [occ _mp2_constructor self].
    intros x y Hx' Hy'. rewrite Hentries1, Hentries. unfold s1.
    rewrite (static_entry_block o vi Hmasks s _ (xija s)) by done.
    by rewrite <- Hs.
Qed.

(** X12.  The cached integrals and the self-energy moments of non-Dyson
    mode are those of Dyson mode restricted to the occupied orbitals:
    after [non_dyson = True] on a Dyson expression, [xija[p]] is the
    former [xija] at the position of the [p]-th occupied orbital, and
    entry [(p, q)] of every moment is the former entry at the positions
    of the [p]-th and [q]-th occupied orbitals. *)
Theorem non_dyson_moments_are_occupied_block key (cls : mp2_class R) w nmom :
  MP2 !! key = Some cls →
  mp2_expression cls w →
  _non_dyson (self w) = false →
  0 < n_occ cls w →
  ∃ x ms w1 x1 ms1,
    xija (self w) = Some x ∧
    build_se_moments cls nmom w = Some (Array2 <$> ms, w) ∧
    set_non_dyson cls true w = Some (tt, w1) ∧
    xija (self w1) = Some x1 ∧
    build_se_moments cls nmom w1 = Some (Array2 <$> ms1, w1) ∧
    (∀ p i j a,
       item4 x1 p i j a
       = item4 x (nth p (nonzero (occ cls (self w))) 0) i j a) ∧
    ∀ n m m1, ms !! n = Some m → ms1 !! n = Some m1 →
      ∀ p q, mitem m1 p q
             = mitem m (nth p (nonzero (occ cls (self w))) 0)
                       (nth q (nonzero (occ cls (self w))) 0).
Proof.
  intros (o & vi & Hmasks & ->)%MP2_constructed Hexpr Hmode Hocc.
  pose proof (expression_consistent o vi w Hmasks Hexpr) as Hcons.
  pose proof Hcons as (Hc & Hlen & Hx).
  destruct w as [s hp]. cbn [self] in *.
  assert (s = with_mode s false (xija s)) as Hs.
  { destruct s; simpl in *; by subst. }
  set (c1 := Some (integrals_of o vi (with_mode s true None))).
  set (s1 := with_mode s true c1).
  assert (_MP2.set_non_dyson o vi true (World s hp) = Some (tt, World s1 hp))
    as Hset.
  { rewrite (run_set_non_dyson o vi Hmasks) by done. cbn [self heap].
    rewrite Hmode. by rewrite decide_True. }
  destruct (consistent_set_non_dyson o vi Hmasks (World s hp) true
              (World s1 hp) Hcons Hset) as [Hcons1 _].
  cbn [self] in Hcons1.
  assert (o s1 = o s) as Ho by (by apply (occ_attr _ _ Hmasks)).
  unfold n_occ, np_sum_mask in Hocc. cbn [occ _mp2_constructor self] in Hocc.
  exists (integrals_of o vi s),
    ((λ n, moment_sum o vi s n (length (nonzero (o s)))) <$> seq 0 nmom),
    (World s1 hp), (integrals_of o vi s1),
    ((λ n, moment_sum o vi s1 n (length (nonzero (o s)))) <$> seq 0 nmom).
  cbn [build_se_moments set_non_dyson occ _mp2_constructor self].
  split; [done|]. split; [|split; [done|]; split; [|split; [|split]]].
  - rewrite (run_build_se_moments o vi Hmasks (World s hp) nmom Hcons).
    cbn [self].
    destruct (decide (length (nonzero (o s)) = 0%nat)) as [Hno|_]; [lia|].
    by rewrite <- list_fmap_compose.
  - by destruct Hcons1 as (_ & _ & ?).
  - rewrite (run_build_se_moments o vi Hmasks (World s1 hp) nmom Hcons1).
    cbn [self]. rewrite Ho.
    destruct (decide (length (nonzero (o s)) = 0%nat)) as [Hno|_]; [lia|].
    by rewrite <- list_fmap_compose.
  - intros p i j a. unfold s1.
    rewrite (integrals_block o vi Hmasks s c1 (xija s)). by rewrite <- Hs.
  - intros n m m1 (n' & -> & Hn)%list_lookup_fmap_Some
      (n'' & -> & Hn')%list_lookup_fmap_Some p q.
    assert (n'' = n') as -> by congruence.
    unfold s1. rewrite (moment_sum_block o vi Hmasks s c1 (xija s)).
    by rewrite <- Hs.
Qed.

(** X13.  Without configurations (no occupied or no virtual orbital) and
    in exact arithmetic, the static part is the diagonal matrix of the
    energies of the main block, and [apply_hamiltonian(v)] is
    [np.dot(static, v)]. *)
Theorem static_part_without_configurations key (cls : mp2_class R) w :
  exact_arith →
  MP2 !! key = Some cls →
  mp2_expression cls w →
  n_aux cls w = 0 →
  ∃ h, get_static_part cls w = Some (h, w) ∧
       mshape h = (n_main cls w, n_main cls w) ∧
       (∀ x y, mitem h x y
               = if decide (x = y)
                 then item (main_energy (occ cls) (self w)) x else 0%R) ∧
       ∀ v, length v = n_main cls w →
            apply_to cls None v w = np_dot h v.
Proof.
  intros arith (o & vi & Hmasks & ->)%MP2_constructed Hexpr Haux.
  pose proof (expression_consistent o vi w Hmasks Hexpr) as Hcons.
  pose proof Hcons as (Hc & Hlen & Hx).
  destruct (static_part_entries o vi Hmasks (self w) Hc Hlen)
    as (h & Hstatic & Hh & Hentries).
  unfold n_aux, n_occ, n_vir, np_sum_mask in Haux.
  cbn [occ vir _mp2_constructor] in Haux.
  rewrite <- (main_energy_length (_mp2_constructor o vi) w).
  cbn [occ _mp2_constructor].
  exists h. split; [specialize (Hstatic (heap w)); by destruct w|].
  split; [done|]. split.
  - intros x y. rewrite Hentries. by apply static_entry_empty.
  - intros v Hv.
    rewrite (apply_value_returned o vi Hmasks w h v Hcons Hstatic Hh) by lia.
    unfold np_dot. rewrite Hh. cbn [snd]. rewrite decide_True by done.
    f_equal. by apply apply_value_empty.
Qed.

(** X14.  [apply_hamiltonian(get_wavefunction(k))] is column [k] of the
    dense operator, for a main or an auxiliary position [k]: the two
    calls succeed one after the other and the array returned has the
    entries [H[x, k]]. *)
Theorem apply_hamiltonian_of_wavefunction key (cls : mp2_class R) w k :
  MP2 !! key = Some cls →
  mp2_expression cls w →
  k < n_main cls w + n_aux cls w →
  ∃ H r w1 r' w2 column,
    dense cls w = Some H ∧
    get_wavefunction cls (Z.of_nat k) w = Some (r, w1) ∧
    apply_hamiltonian cls r None w1 = Some (r', w2) ∧
    heap w2 !! r' = Some column ∧
    length column = n_main cls w + n_aux cls w ∧
    ∀ x, x < n_main cls w + n_aux cls w → column !! x = Some (mitem H x k).
Proof.
  intros (o & vi & Hmasks & ->)%MP2_constructed Hexpr Hk.
  pose proof (expression_consistent o vi w Hmasks Hexpr) as Hcons.
  pose proof Hcons as (Hc & Hlen & Hx).
  destruct (static_part_exists o vi Hmasks (self w) Hc Hlen)
    as (h & Hstatic & Hh).
  set (N := n_main (_mp2_constructor o vi) w + n_aux (_mp2_constructor o vi) w)
    in *.
  set (w1 := World (self w) (heap w ++ [basis N k])).
  assert (length (apply_value o vi (self w) h (basis N k)) = N) as Hcol.
  { unfold N. rewrite dimension_unfold. apply length_apply_value; [done..|].
    by rewrite length_basis, <- dimension_unfold. }
  exists (dense_value o vi (self w) h N), (length (heap w)), w1,
    (length (heap w1)),
    (World (self w) (heap w1 ++ [apply_value o vi (self w) h (basis N k)])),
    (apply_value o vi (self w) h (basis N k)).
  split; [by apply dense_run|].
  cbn [get_wavefunction apply_hamiltonian _mp2_constructor].
  split; [|split; [|split; [|split]]].
  - rewrite (run_get_wavefunction o vi Hmasks w _ Hlen). fold N.
    rewrite decide_True by lia.
    rewrite Z.mod_small by lia. by rewrite Nat2Z.id.
  - rewrite <- (run_apply_hamiltonian o vi Hmasks w1 h (length (heap w))
                  (basis N k)); try done.
    + unfold _MP2.apply_hamiltonian, w1.
      rewrite (run_bind (_MP2.static_or_fresh _ _ (Some h)) _ _ _ _
                 (run_ret h _)).
      by rewrite (run_bind (_MP2.static_or_fresh _ _ None) _ _ _ _
                    (Hstatic _)).
    + apply lookup_last_alloc.
    + cbn [w1 self]. by rewrite length_basis, <- dimension_unfold.
  - cbn [heap]. apply lookup_last_alloc.
  - done.
  - intros x Hx'. rewrite mitem_dense_value by done.
    apply lookup_item. lia.
Qed.

(** X15.  [diagonal()] of non-Dyson mode is a selection of [diagonal()]
    of Dyson mode: after [non_dyson = True] on a Dyson expression it
    returns the former main entries at the occupied positions, followed
    by the former auxiliary entries. *)
Theorem non_dyson_diagonal_is_selection key (cls : mp2_class R) w :
  MP2 !! key = Some cls →
  mp2_expression cls w →
  _non_dyson (self w) = false →
  ∃ d w1 d1,
    diagonal_of cls None w = Some d ∧
    set_non_dyson cls true w = Some (tt, w1) ∧
    diagonal_of cls None w1 = Some d1 ∧
    d1 = np_take d (nonzero (occ cls (self w))) ++ drop (n_main cls w) d.
Proof.
  intros (o & vi & Hmasks & ->)%MP2_constructed Hexpr Hmode.
  pose proof (expression_consistent o vi w Hmasks Hexpr) as (Hc & Hlen & Hx).
  destruct w as [s hp]. cbn [self] in *.
  assert (s = with_mode s false (xija s)) as Hs.
  { destruct s; simpl in *; by subst. }
  set (c1 := Some (integrals_of o vi (with_mode s true None))).
  set (s1 := with_mode s true c1).
  destruct (static_part_entries o vi Hmasks s Hc Hlen)
    as (h & Hrun & Hh & Hentries).
  destruct (static_part_entries o vi Hmasks s1 Hc Hlen)
    as (h1 & Hrun1 & Hh1 & Hentries1).
  assert (o s1 = o s) as Ho by (by apply (occ_attr _ _ Hmasks)).
  assert (vi s1 = vi s) as Hv by (by apply (vir_attr _ _ Hmasks)).
  assert (length (main_energy o s) = length (mo_energy s)) as Hn.
  { unfold main_energy. by rewrite Hmode. }
  assert (length (main_energy o s1) = length (nonzero (o s))) as Hn1.
  { unfold main_energy. cbn [s1 with_mode _non_dyson]. fold s1.
    by rewrite length_np_take, Ho. }
  set (aux := ravel3 (direct_sum_ija
                        (np_take (mo_energy s) (nonzero (o s)))
                        (np_take (mo_energy s) (nonzero (o s)))
                        (np_take (mo_energy s) (nonzero (vi s))))).
  exists (np_diag h ++ aux), (World s1 hp), (np_diag h1 ++ aux).
  unfold diagonal_of. cbn [diagonal set_non_dyson occ _mp2_constructor self].
  split; [|split; [|split]].
  - rewrite (run_diagonal o vi Hmasks (World s hp) h Hlen (Hrun hp)).
    cbn [mbind option_bind heap]. by rewrite lookup_last_alloc.
  - rewrite (run_set_non_dyson o vi Hmasks) by done. cbn [self heap].
    rewrite Hmode. by rewrite decide_True.
  - rewrite (run_diagonal o vi Hmasks (World s1 hp) h1 Hlen (Hrun1 hp)).
    cbn [mbind option_bind heap self]. rewrite lookup_last_alloc.
    cbn [s1 with_mode mo_energy]. fold s1. by rewrite Ho, Hv.
  - assert (length (np_diag h) = n_main (_mp2_constructor o vi) (World s hp))
      as Hdiag.
    { rewrite (length_np_diag h _ Hh).
      apply (main_energy_length (_mp2_constructor o vi) (World s hp)). }
    rewrite <- Hdiag, drop_app_length. f_equal.
    apply item_ext.
    { by rewrite (length_np_diag h1 _ Hh1), length_np_take. }
    rewrite (length_np_diag h1 _ Hh1), Hn1. intros k Hk.
    pose proof (nth_nonzero_lt (o s) k Hk) as Hidx.
    rewrite (occ_length _ _ Hmasks), Hlen in Hidx.
    unfold np_diag at 1. rewrite Hh1, Hn1. cbn [fst snd].
    rewrite Nat.min_id, item_fmap_seq by done.
    rewrite item_np_take by done.
    rewrite item_app_l by (rewrite (length_np_diag h _ Hh); lia).
    unfold np_diag. rewrite Hh, Hn. cbn [fst snd].
    rewrite Nat.min_id, item_fmap_seq by done.
    rewrite Hentries1, Hentries. unfold s1.
    rewrite (static_entry_block o vi Hmasks s c1 (xija s)) by done.
    by rewrite <- Hs.
Qed.

(** X16.  The moments do not depend on how many are asked for:
    [build_se_moments(nmom)] is the first [nmom] entries of
    [build_se_moments(nmom')] whenever [nmom <= nmom']. *)
Theorem se_moments_prefix key (cls : mp2_class R) w nmom nmom' :
  MP2 !! key = Some cls →
  mp2_expression cls w →
  nmom ≤ nmom' →
  ∃ t t', build_se_moments cls nmom w = Some (t, w) ∧
          build_se_moments cls nmom' w = Some (t', w) ∧
          t = take nmom t'.
Proof.
  intros (o & vi & Hmasks & ->)%MP2_constructed Hexpr Hle.
  pose proof (expression_consistent o vi w Hmasks Hexpr) as Hcons.
  cbn [build_se_moments _mp2_constructor].
  rewrite !(run_build_se_moments o vi Hmasks w _ Hcons).
  eexists _, _. split; [done|]. split; [done|].
  rewrite <- fmap_take, take_seq. by rewrite Nat.min_l.
Qed.

(** X17.  In exact arithmetic the dense operator of non-Dyson mode is
    the dense operator of Dyson mode with the rows and columns of the
    virtual orbitals deleted: after [non_dyson = True] on a Dyson
    expression, [H1[p, q] = H[pos p, pos q]], where [pos] sends a main
    entry to the position of that occupied orbital and a configuration
    to itself. *)
Theorem non_dyson_operator_is_compression key (cls : mp2_class R) w :
  exact_arith →
  MP2 !! key = Some cls →
  mp2_expression cls w →
  _non_dyson (self w) = false →
  ∃ H w1 H1,
    dense cls w = Some H ∧
    set_non_dyson cls true w = Some (tt, w1) ∧
    dense cls w1 = Some H1 ∧
    mshape H1 = (n_occ cls w + n_aux cls w, n_occ cls w + n_aux cls w) ∧
    ∀ p q, p < n_occ cls w + n_aux cls w → q < n_occ cls w + n_aux cls w →
      mitem H1 p q = mitem H (dyson_position cls w p) (dyson_position cls w q).
Proof.
  intros arith (o & vi & Hmasks & ->)%MP2_constructed Hexpr Hmode.
  pose proof (expression_consistent o vi w Hmasks Hexpr) as Hcons.
  pose proof Hcons as (Hc & Hlen & Hx).
  destruct w as [s hp]. cbn [self] in *.
  assert (s = with_mode s false (xija s)) as Hs.
  { destruct s; simpl in *; by subst. }
  set (c1 := Some (integrals_of o vi (with_mode s true None))).
  set (s1 := with_mode s true c1).
  assert (_MP2.set_non_dyson o vi true (World s hp) = Some (tt, World s1 hp))
    as Hset.
  { rewrite (run_set_non_dyson o vi Hmasks) by done. cbn [self heap].
    rewrite Hmode. by rewrite decide_True. }
  destruct (consistent_set_non_dyson o vi Hmasks (World s hp) true
              (World s1 hp) Hcons Hset) as [Hcons1 _].
  cbn [self] in Hcons1.
  destruct (static_part_entries o vi Hmasks s Hc Hlen)
    as (h & Hrun & Hh & Hentries).
  destruct (static_part_entries o vi Hmasks s1 Hc Hlen)
    as (h1 & Hrun1 & Hh1 & Hentries1).
  assert (o s1 = o s) as Ho by (by apply (occ_attr _ _ Hmasks)).
  assert (vi s1 = vi s) as Hv by (by apply (vir_attr _ _ Hmasks)).
  assert (length (main_energy o s) = length (mo_energy s)) as Hn.
  { unfold main_energy. by rewrite Hmode. }
  assert (length (main_energy o s1) = length (nonzero (o s))) as Hn1.
  { unfold main_energy. cbn [s1 with_mode _non_dyson]. fold s1.
    by rewrite length_np_take, Ho. }
  pose proof (dimension_unfold o vi (World s hp)) as HN.
  pose proof (dimension_unfold o vi (World s1 hp)) as HN1.
  cbn [self] in HN, HN1. rewrite Hn in HN. rewrite Hn1, Ho, Hv in HN1.
  pose proof (column_main_main o vi s h Hc Hh arith) as Hmm.
  pose proof (column_main_aux o vi s h Hc Hh arith) as Hma.
  pose proof (column_aux_main o vi s h Hc Hh arith) as Ham.
  pose proof (column_aux_aux o vi s h Hc Hh arith) as Haa.
  pose proof (column_main_main o vi s1 h1 Hc Hh1 arith) as Hmm1.
  pose proof (column_main_aux o vi s1 h1 Hc Hh1 arith) as Hma1.
  pose proof (column_aux_main o vi s1 h1 Hc Hh1 arith) as Ham1.
  pose proof (column_aux_aux o vi s1 h1 Hc Hh1 arith) as Haa1.
  rewrite Hn in Hmm, Hma, Ham, Haa.
  rewrite Hn1, ?Ho, ?Hv in Hmm1, Hma1, Ham1, Haa1.
  cbn [s1 with_mode mo_energy] in Haa1. fold s1 in Haa1.
  exists (dense_value o vi s h
            (n_main (_mp2_constructor o vi) (World s hp)
             + n_aux (_mp2_constructor o vi) (World s hp))),
    (World s1 hp),
    (dense_value o vi s1 h1
       (n_main (_mp2_constructor o vi) (World s1 hp)
        + n_aux (_mp2_constructor o vi) (World s1 hp))).
  split; [by apply (dense_run o vi Hmasks (World s hp))|].
  split; [done|].
  split; [by apply (dense_run o vi Hmasks (World s1 hp))|].
  rewrite HN, HN1.
  unfold dyson_position, n_aux, n_occ, n_vir, np_sum_mask.
  cbn [occ vir _mp2_constructor self].
  set (n := length (mo_energy s)) in *.
  set (no := length (nonzero (o s))) in *.
  set (nv := length (nonzero (vi s))) in *.
  split; [done|].
  assert (Hidx : ∀ p, p < no → nth p (nonzero (o s)) 0 < n).
  { intros p Hp. pose proof (nth_nonzero_lt (o s) p Hp) as Hidx.
    by rewrite (occ_length _ _ Hmasks), Hlen in Hidx. }
  intros p q Hp Hq.
  rewrite !mitem_dense_value; [|repeat case_decide; try lia; auto with lia..].
  2:{ pose proof (Hidx q). lia. }
  destruct (decide (p < no)) as [Hpm|Hpa], (decide (q < no)) as [Hqm|Hqa].
  - rewrite Hmm1, Hmm by auto.
    rewrite Hentries1, Hentries. unfold s1.
    rewrite (static_entry_block o vi Hmasks s c1 (xija s)) by done.
    by rewrite <- Hs.
  - destruct (flat_index_surj no no nv (q - no)) as (i & j & a & Hi & Hj & Ha & Hk);
      [lia|].
    replace q with (no + ((i * no + j) * nv + a)) by lia.
    replace (no + ((i * no + j) * nv + a) - no) with ((i * no + j) * nv + a)
      by lia.
    rewrite Hma1, Hma by auto. unfold s1.
    rewrite (integrals_block o vi Hmasks s c1 (xija s)). by rewrite <- Hs.
  - destruct (flat_index_surj no no nv (p - no)) as (i & j & a & Hi & Hj & Ha & Hk);
      [lia|].
    replace p with (no + ((i * no + j) * nv + a)) by lia.
    replace (no + ((i * no + j) * nv + a) - no) with ((i * no + j) * nv + a)
      by lia.
    rewrite Ham1, Ham by auto. unfold s1.
    rewrite !(integrals_block o vi Hmasks s c1 (xija s)). by rewrite <- Hs.
  - destruct (flat_index_surj no no nv (p - no)) as (i & j & a & Hi & Hj & Ha & Hk);
      [lia|].
    destruct (flat_index_surj no no nv (q - no))
      as (i' & j' & a' & Hi' & Hj' & Ha' & Hk'); [lia|].
    replace p with (no + ((i * no + j) * nv + a)) by lia.
    replace q with (no + ((i' * no + j') * nv + a')) by lia.
    replace (no + ((i * no + j) * nv + a) - no) with ((i * no + j) * nv + a)
      by lia.
    replace (no + ((i' * no + j') * nv + a') - no)
      with ((i' * no + j') * nv + a') by lia.
    by rewrite Haa1, Haa.
Qed.
End Further.

(** ** The properties on concrete expressions *)

Lemma helium_is_expression : mp2_expression MP2_1p Scenario.helium.
Proof.
  apply (expression_new MP2_1p Scenario.eri Scenario.helium_coeff
           Scenario.helium_energy Scenario.helium_occupation false []);
    [split; reflexivity|reflexivity].
Defined.

Lemma short_vector_is_expression :
  mp2_expression MP2_1h Scenario.hole_with_short_vector.
Proof.
  apply (expression_heap MP2_1h Scenario.hole [Scenario.short_vector]).
  exact hole_is_expression.
Defined.

Lemma get_wavefunction_index_range_witness :
  get_wavefunction MP2_1h (-1) Scenario.hole
  = Some (length (heap Scenario.hole),
          World (self Scenario.hole)
            (heap Scenario.hole
             ++ [basis (n_main MP2_1h Scenario.hole + n_aux MP2_1h Scenario.hole)
                   (Z.to_nat ((-1) `mod`
                      Z.of_nat (n_main MP2_1h Scenario.hole
                                + n_aux MP2_1h Scenario.hole)))])).
Proof.
  apply (get_wavefunction_index_range "1h" MP2_1h Scenario.hole (-1)).
  - reflexivity.
  - exact hole_is_expression.
  - change (n_main MP2_1h Scenario.hole + n_aux MP2_1h Scenario.hole)
      with 12%nat.
    lia.
Defined.

Lemma get_wavefunction_index_error_witness :
  get_wavefunction MP2_1h 12 Scenario.hole = None.
Proof.
  apply (get_wavefunction_index_error "1h" MP2_1h Scenario.hole 12).
  - reflexivity.
  - exact hole_is_expression.
  - change (n_main MP2_1h Scenario.hole + n_aux MP2_1h Scenario.hole)
      with 12%nat.
    lia.
Defined.

Lemma apply_hamiltonian_length_mismatch_witness :
  apply_hamiltonian MP2_1h 0 None Scenario.hole_with_short_vector = None.
Proof.
  apply (apply_hamiltonian_length_mismatch "1h" MP2_1h
           Scenario.hole_with_short_vector 0 Scenario.short_vector).
  - reflexivity.
  - exact short_vector_is_expression.
  - reflexivity.
  - vm_compute. lia.
Defined.

Lemma init_validates_mask_lengths_witness :
  (is_Some (__init__ MP2_1h Scenario.eri Scenario.coeff Scenario.energy
              Scenario.occupation false [])
   ↔ length Scenario.occupation = (mshape Scenario.coeff).2 ∧
     (false = true → length Scenario.occupation = length Scenario.energy)) ∧
  ∀ w, __init__ MP2_1h Scenario.eri Scenario.coeff Scenario.energy
         Scenario.occupation false [] = Some w →
       ∃ x, w = World (Expression Scenario.eri Scenario.coeff Scenario.energy
                         Scenario.occupation false (Some x)) [].
Proof.
  apply (init_validates_mask_lengths "1h" MP2_1h). reflexivity.
Defined.

Lemma cached_integrals_current_witness :
  ∃ x, xija (self Scenario.hole) = Some x ∧
       _integrals_for_hamiltonian MP2_1h Scenario.hole
       = Some (x, Scenario.hole) ∧
       shape4 x = (n_main MP2_1h Scenario.hole, n_occ MP2_1h Scenario.hole,
                   n_occ MP2_1h Scenario.hole, n_vir MP2_1h Scenario.hole).
Proof.
  apply (cached_integrals_current "1h" MP2_1h Scenario.hole).
  - reflexivity.
  - exact hole_is_expression.
Defined.

Lemma set_non_dyson_frame_witness :
  heap Scenario.hole_non_dyson = heap Scenario.hole ∧
  mf_eri (self Scenario.hole_non_dyson) = mf_eri (self Scenario.hole) ∧
  mo_coeff (self Scenario.hole_non_dyson) = mo_coeff (self Scenario.hole) ∧
  mo_energy (self Scenario.hole_non_dyson) = mo_energy (self Scenario.hole) ∧
  mo_occ (self Scenario.hole_non_dyson) = mo_occ (self Scenario.hole) ∧
  _non_dyson (self Scenario.hole_non_dyson) = true ∧
  (true = _non_dyson (self Scenario.hole) →
   Scenario.hole_non_dyson = Scenario.hole).
Proof.
  apply (set_non_dyson_frame "1h" MP2_1h true Scenario.hole
           Scenario.hole_non_dyson).
  - reflexivity.
  - reflexivity.
Defined.

Lemma set_non_dyson_resizes_main_block_witness :
  ∃ w', set_non_dyson MP2_1h true Scenario.hole = Some (tt, w') ∧
        n_occ MP2_1h w' = n_occ MP2_1h Scenario.hole ∧
        n_vir MP2_1h w' = n_vir MP2_1h Scenario.hole ∧
        n_aux MP2_1h w' = n_aux MP2_1h Scenario.hole ∧
        n_main MP2_1h w' = if true then n_occ MP2_1h Scenario.hole
                           else n_occ MP2_1h Scenario.hole
                                + n_vir MP2_1h Scenario.hole.
Proof.
  apply (set_non_dyson_resizes_main_block "1h" MP2_1h true Scenario.hole).
  - reflexivity.
  - exact hole_is_expression.
Defined.

Lemma dense_operator_blocks_witness :
  ∃ H h x,
    dense MP2_1h Scenario.hole = Some H ∧
    get_static_part MP2_1h Scenario.hole = Some (h, Scenario.hole) ∧
    xija (self Scenario.hole) = Some x ∧
    (∀ p q, p < n_main MP2_1h Scenario.hole →
            q < n_main MP2_1h Scenario.hole →
            mitem H p q = mitem h p q) ∧
    (∀ p i j a, p < n_main MP2_1h Scenario.hole →
                i < n_occ MP2_1h Scenario.hole →
                j < n_occ MP2_1h Scenario.hole →
                a < n_vir MP2_1h Scenario.hole →
       mitem H p (aux_index MP2_1h Scenario.hole i j a) = item4 x p i j a ∧
       mitem H (aux_index MP2_1h Scenario.hole i j a) p
       = (2 * item4 x p i j a - item4 x p j i a)%R) ∧
    (∀ i j a i' j' a',
       i < n_occ MP2_1h Scenario.hole → j < n_occ MP2_1h Scenario.hole →
       a < n_vir MP2_1h Scenario.hole →
       i' < n_occ MP2_1h Scenario.hole → j' < n_occ MP2_1h Scenario.hole →
       a' < n_vir MP2_1h Scenario.hole →
       mitem H (aux_index MP2_1h Scenario.hole i j a)
               (aux_index MP2_1h Scenario.hole i' j' a')
       = if decide ((i, j, a) = (i', j', a'))
         then (item (occupied_energies MP2_1h Scenario.hole) i
               + item (occupied_energies MP2_1h Scenario.hole) j
               - item (virtual_energies MP2_1h Scenario.hole) a)%R
         else 0%R).
Proof.
  apply (dense_operator_blocks "1h" MP2_1h Scenario.hole Z_exact).
  - reflexivity.
  - exact hole_is_expression.
Defined.

Lemma se_moments_from_dense_operator_witness :
  ∃ H ms,
    dense MP2_1h Scenario.hole = Some H ∧
    build_se_moments MP2_1h 2 Scenario.hole
    = Some (Array2 <$> ms, Scenario.hole) ∧
    length ms = 2 ∧
    ∀ n m, ms !! n = Some m →
      ∀ p q, p < n_main MP2_1h Scenario.hole →
             q < n_main MP2_1h Scenario.hole →
        mitem m p q
        = sum_n (n_aux MP2_1h Scenario.hole) (λ k,
            (mitem H p (n_main MP2_1h Scenario.hole + k)
             * s_pow (mitem H (n_main MP2_1h Scenario.hole + k)
                              (n_main MP2_1h Scenario.hole + k)) n
             * mitem H (n_main MP2_1h Scenario.hole + k) q)%R).
Proof.
  apply (se_moments_from_dense_operator "1h" MP2_1h Scenario.hole 2 Z_exact).
  - reflexivity.
  - exact hole_is_expression.
  - vm_compute. lia.
Defined.

Lemma se_moments_symmetric_witness :
  ∃ t, build_se_moments MP2_1h 2 Scenario.hole = Some (t, Scenario.hole) ∧
       length t = 2 ∧
       ∀ m, Array2 m ∈ t → ∀ p q, mitem m p q = mitem m q p.
Proof.
  apply (se_moments_symmetric "1h" MP2_1h Scenario.hole 2 Z_exact).
  - reflexivity.
  - exact hole_is_expression.
Defined.

Lemma non_dyson_static_part_is_occupied_block_witness :
  ∃ h w1 h1,
    get_static_part MP2_1h Scenario.hole = Some (h, Scenario.hole) ∧
    set_non_dyson MP2_1h true Scenario.hole = Some (tt, w1) ∧
    get_static_part MP2_1h w1 = Some (h1, w1) ∧
    mshape h1 = (n_occ MP2_1h Scenario.hole, n_occ MP2_1h Scenario.hole) ∧
    ∀ x y, x < n_occ MP2_1h Scenario.hole → y < n_occ MP2_1h Scenario.hole →
      mitem h1 x y
      = mitem h (nth x (nonzero (occ MP2_1h (self Scenario.hole))) 0)
                (nth y (nonzero (occ MP2_1h (self Scenario.hole))) 0).
Proof.
  apply (non_dyson_static_part_is_occupied_block "1h" MP2_1h Scenario.hole).
  - reflexivity.
  - exact hole_is_expression.
  - reflexivity.
Defined.

Lemma non_dyson_moments_are_occupied_block_witness :
  ∃ x ms w1 x1 ms1,
    xija (self Scenario.hole) = Some x ∧
    build_se_moments MP2_1h 2 Scenario.hole
    = Some (Array2 <$> ms, Scenario.hole) ∧
    set_non_dyson MP2_1h true Scenario.hole = Some (tt, w1) ∧
    xija (self w1) = Some x1 ∧
    build_se_moments MP2_1h 2 w1 = Some (Array2 <$> ms1, w1) ∧
    (∀ p i j a,
       item4 x1 p i j a
       = item4 x (nth p (nonzero (occ MP2_1h (self Scenario.hole))) 0) i j a) ∧
    ∀ n m m1, ms !! n = Some m → ms1 !! n = Some m1 →
      ∀ p q, mitem m1 p q
             = mitem m (nth p (nonzero (occ MP2_1h (self Scenario.hole))) 0)
                       (nth q (nonzero (occ MP2_1h (self Scenario.hole))) 0).
Proof.
  apply (non_dyson_moments_are_occupied_block "1h" MP2_1h Scenario.hole 2).
  - reflexivity.
  - exact hole_is_expression.
  - reflexivity.
  - vm_compute. lia.
Defined.

Lemma static_part_without_configurations_witness :
  ∃ h, get_static_part MP2_1p Scenario.helium = Some (h, Scenario.helium) ∧
       mshape h = (n_main MP2_1p Scenario.helium,
                   n_main MP2_1p Scenario.helium) ∧
       (∀ x y, mitem h x y
               = if decide (x = y)
                 then item (main_energy (occ MP2_1p) (self Scenario.helium)) x
                 else 0%R) ∧
       ∀ v, length v = n_main MP2_1p Scenario.helium →
            apply_to MP2_1p None v Scenario.helium = np_dot h v.
Proof.
  apply (static_part_without_configurations "1p" MP2_1p Scenario.helium
           Z_exact).
  - reflexivity.
  - exact helium_is_expression.
  - reflexivity.
Defined.

Lemma apply_hamiltonian_of_wavefunction_witness :
  ∃ H r w1 r' w2 column,
    dense MP2_1h Scenario.hole = Some H ∧
    get_wavefunction MP2_1h (Z.of_nat 5) Scenario.hole = Some (r, w1) ∧
    apply_hamiltonian MP2_1h r None w1 = Some (r', w2) ∧
    heap w2 !! r' = Some column ∧
    length column = n_main MP2_1h Scenario.hole + n_aux MP2_1h Scenario.hole ∧
    ∀ x, x < n_main MP2_1h Scenario.hole + n_aux MP2_1h Scenario.hole →
         column !! x = Some (mitem H x 5).
Proof.
  apply (apply_hamiltonian_of_wavefunction "1h" MP2_1h Scenario.hole 5).
  - reflexivity.
  - exact hole_is_expression.
  - vm_compute. lia.
Defined.

Lemma non_dyson_diagonal_is_selection_witness :
  ∃ d w1 d1,
    diagonal_of MP2_1h None Scenario.hole = Some d ∧
    set_non_dyson MP2_1h true Scenario.hole = Some (tt, w1) ∧
    diagonal_of MP2_1h None w1 = Some d1 ∧
    d1 = np_take d (nonzero (occ MP2_1h (self Scenario.hole)))
         ++ drop (n_main MP2_1h Scenario.hole) d.
Proof.
  apply (non_dyson_diagonal_is_selection "1h" MP2_1h Scenario.hole).
  - reflexivity.
  - exact hole_is_expression.
  - reflexivity.
Defined.

Lemma se_moments_prefix_witness :
  ∃ t t', build_se_moments MP2_1h 1 Scenario.hole = Some (t, Scenario.hole) ∧
          build_se_moments MP2_1h 3 Scenario.hole = Some (t', Scenario.hole) ∧
          t = take 1 t'.
Proof.
  apply (se_moments_prefix "1h" MP2_1h Scenario.hole 1 3).
  - reflexivity.
  - exact hole_is_expression.
  - lia.
Defined.

Lemma non_dyson_operator_is_compression_witness :
  ∃ H w1 H1,
    dense MP2_1h Scenario.hole = Some H ∧
    set_non_dyson MP2_1h true Scenario.hole = Some (tt, w1) ∧
    dense MP2_1h w1 = Some H1 ∧
    mshape H1 = (n_occ MP2_1h Scenario.hole + n_aux MP2_1h Scenario.hole,
                 n_occ MP2_1h Scenario.hole + n_aux MP2_1h Scenario.hole) ∧
    ∀ p q, p < n_occ MP2_1h Scenario.hole + n_aux MP2_1h Scenario.hole →
           q < n_occ MP2_1h Scenario.hole + n_aux MP2_1h Scenario.hole →
      mitem H1 p q = mitem H (dyson_position MP2_1h Scenario.hole p)
                             (dyson_position MP2_1h Scenario.hole q).
Proof.
  apply (non_dyson_operator_is_compression "1h" MP2_1h Scenario.hole Z_exact).
  - reflexivity.
  - exact hole_is_expression.
  - reflexivity.
Defined.
